(** * Forward pass of the Multi-Head-Self-Attention Transformer

    A shallow embedding of the C++ sources

      - [transformer_types.h]      (namespace [Utils])
      - [self_attention.h]         (class [MultiHeadSelfAttention])
      - [transformer_layers.h]     (feed-forward, encoder and decoder layers)
      - [tokenizer_embeddings.h]   (tokenizer and embedding tables)
      - [main.cpp]                 (class [Transformer])

    Data.  [Vector] is [std::vector<float>] and [Matrix] is a vector of
    vectors; they are lists here.  The scalar type and its operations are a
    parameter (class [Scalar]), so every definition below is the C++ text
    with [+], [*], [/], ... read in that arithmetic.  Two instances are
    given: exact real arithmetic ([Exact]) and IEEE 754 binary32 with
    round-to-nearest-even ([Binary32]), the arithmetic of [float].

    Effects.  [operator[]] out of range, dereferencing [end()] and a failed
    allocation are undefined behaviour or exceptions in C++; every such
    access is checked here and the function returns [None].  Values of
    type [int] and [size_t] are integers and natural numbers; the
    dimensions are far from the range where they would wrap around. *)

From Stdlib Require Import ZArith Reals Lra Lia.
From Stdlib Require Import Floats.SpecFloat.
From Stdlib Require Import Ascii String.
From stdpp Require Import base option list strings gmap.

Set Default Proof Using "Type".

(** * Arithmetic *)

(** The operations on [float] the sources use.  [fltb a b] is [a < b];
    [of_size n] is the conversion of a [size_t] to [float]; [fdiv_sqrt x n]
    is [x / std::sqrt(n)] for an [int] [n] (the square root and the division
    are carried out in [double] and the quotient is stored in a [float]);
    [fmask] and [fepsilon] are the literals [-1e9] and [1e-5] as [float]. *)
Class Scalar (F : Type) := {
  fzero : F;
  fone : F;
  fadd : F → F → F;
  fsub : F → F → F;
  fmul : F → F → F;
  fdiv : F → F → F;
  fsqrt : F → F;
  fltb : F → F → bool;
  of_size : nat → F;
  fdiv_sqrt : F → Z → F;
  fmask : F;
  fepsilon : F;
}.

(** [std::exp] on [float], a routine of the C library. *)
Class ScalarExp (F : Type) := { fexp : F → F }.

(** The two expressions of [generatePositionalEncodings], computed in
    [double] and stored in a [float]: [sin_pos pos num den] is
    [std::sin(pos / std::pow(10000, num / den))] and [cos_pos pos num den]
    is [std::cos(pos / std::pow(10000, num / den))], where [num] is the
    value of [2.0 * i] or of [2.0 * (i - 1)]. *)
Class ScalarTrig (F : Type) := {
  sin_pos : Z → Z → Z → F;
  cos_pos : Z → Z → Z → F;
}.

(** * Control: counted loops and checked writes *)

(** [for (i = lo; i < lo + n; ++i) s = body(i, s)]. *)
Fixpoint for_range {St : Type} (lo n : nat) (body : nat → St → option St) (s : St)
    : option St :=
  match n with
  | O => Some s
  | S n' => s' ← body lo s; for_range (S lo) n' body s'
  end.

(** [Vector out(n); for (i = 0; i < n; ++i) out[i] = f(i)]. *)
Definition tabulate {A : Type} (n : nat) (f : nat → option A) : option (list A) :=
  mapM f (seq 0 n).

(** The size argument of a [std::vector] constructor given as an [int]: a
    negative value converts to a huge [size_t] and the constructor throws. *)
Definition alloc_size (n : Z) : option nat :=
  if (n <? 0)%Z then None else Some (Z.to_nat n).

(** [typedef std::vector<float> Vector;] and
    [typedef std::vector<std::vector<float>> Matrix;] *)
Abbreviation Vector F := (list F) (only parsing).
Abbreviation Matrix F := (list (list F)) (only parsing).

Section Utils.
Context {F : Type} `{Scalar F}.

(** [m[i][j] = x] *)
Definition write2 (m : Matrix F) (i j : nat) (x : F) : option (Matrix F) :=
  row ← m !! i;
  if j <? length row then Some (<[i := <[j := x]> row]> m) else None.

(** [std::accumulate(v.begin(), v.end(), 0.0f)] *)
Definition accumulate (v : Vector F) : F := foldl fadd fzero v.

(** [*std::max_element(v.begin(), v.end())]: the first largest element;
    on an empty range the iterator is [end()] and must not be
    dereferenced. *)
Definition max_element (v : Vector F) : option F :=
  match v with
  | [] => None
  | x :: rest => Some (foldl (λ largest y, if fltb largest y then y else largest) x rest)
  end.

(** [Utils::dotProduct] *)
Definition dotProduct (a b : Vector F) : option F :=
  for_range 0 (length a)
    (λ i result, x ← a !! i; y ← b !! i; Some (fadd result (fmul x y)))
    fzero.

(** [Utils::matMul(const Vector&, const Matrix&)]: the row vector times
    the matrix. *)
Definition matMul (vec : Vector F) (matrix : Matrix F) : option (Vector F) :=
  row0 ← matrix !! 0;
  tabulate (length row0) (λ i,
    for_range 0 (length vec)
      (λ j acc, v ← vec !! j; r ← matrix !! j; m ← r !! i;
                Some (fadd acc (fmul v m)))
      fzero).

(** [Utils::matMul(const Matrix&, const Vector&)]: the matrix times the
    column vector. *)
Definition matMulCol (matrix : Matrix F) (vec : Vector F) : option (Vector F) :=
  mapM (λ row,
    for_range 0 (length vec)
      (λ j acc, m ← row !! j; v ← vec !! j; Some (fadd acc (fmul m v)))
      fzero) matrix.

(** [Utils::add] *)
Definition add (a b : Vector F) : option (Vector F) :=
  tabulate (length a) (λ i, x ← a !! i; y ← b !! i; Some (fadd x y)).

(** [Utils::layerNorm] *)
Definition layerNorm (input gamma beta : Vector F) (epsilon : F) : option (Vector F) :=
  let mean := fdiv (accumulate input) (of_size (length input)) in
  let variance :=
    fdiv (foldl (λ variance val,
                   fadd variance (fmul (fsub val mean) (fsub val mean)))
                fzero input)
         (of_size (length input)) in
  tabulate (length input) (λ i,
    x ← input !! i; g ← gamma !! i; b ← beta !! i;
    Some (fadd (fdiv (fmul g (fsub x mean)) (fsqrt (fadd variance epsilon))) b)).

(** [Utils::initializeMatrix].  The C library's [rand()] is a global
    generator: [rnd k] stands for the value of
    [(float)rand() / RAND_MAX - 0.5] at the [k]-th call and the state that
    is threaded is the number of calls made so far. *)
Definition initializeMatrix (rnd : nat → F) (rows cols : Z) (calls : nat)
    : option (Matrix F * nat) :=
  r ← alloc_size rows;
  c ← alloc_size cols;
  Some ((λ i, (λ j, rnd (calls + i * c + j)) <$> seq 0 c) <$> seq 0 r,
        calls + r * c).

Context `{ScalarExp F}.

(** [Utils::softmax] *)
Definition softmax (scores : Vector F) : option (Vector F) :=
  maxScore ← max_element scores;
  let expScores := (λ score, fexp (fsub score maxScore)) <$> scores in
  let sumExpScores := accumulate expScores in
  Some ((λ e, fdiv e sumExpScores) <$> expScores).

End Utils.

(** * [self_attention.h] *)

Module MultiHeadSelfAttention.
Section Def.
Context {F : Type} `{Scalar F} `{ScalarExp F}.

Record t := {
  embeddingDim : Z;
  numHeads : Z;
  headDim : Z;
  W_Q : Matrix F;
  W_K : Matrix F;
  W_V : Matrix F;
  W_O : Matrix F;
}.

(** The causal mask: [scores[i][j] = -1e9] for every [j > i]. *)
Definition apply_mask (scores : Matrix F) : Matrix F :=
  imap (λ i row, imap (λ j s, if i <? j then fmask else s) row) scores.

(** The attention weights of one head: the scaled scores, masked when [mask]
    is set, then [softmax] row by row.  [scores[0]] is read for its size, so
    an empty score matrix is an error. *)
Definition attentionWeights (self : t) (Q K : Matrix F) (mask : bool)
    : option (Matrix F) :=
  scores ← mapM (λ Qi,
              mapM (λ Kj, d ← dotProduct Qi Kj; Some (fdiv_sqrt d (headDim self))) K) Q;
  let scores := if mask then apply_mask scores else scores in
  _ ← scores !! 0;
  mapM softmax scores.

(** [scaledDotProductAttention]: [Q], [K], [V] are those of a single head. *)
Definition scaledDotProductAttention (self : t) (Q K V : Matrix F) (mask : bool)
    : option (Matrix F) :=
  weights ← attentionWeights self Q K mask;
  V0 ← V !! 0;
  w0 ← weights !! 0;
  mapM (λ wi,
    tabulate (length V0) (λ k,
      for_range 0 (length w0)
        (λ j acc, w ← wi !! j; Vj ← V !! j; v ← Vj !! k;
                  Some (fadd acc (fmul w v)))
        fzero)) weights.

(** The constructor.  [embedDim / nHeads] is the division of [int]: it
    truncates, and a zero divisor is an error; nothing else is checked. *)
Definition new (rnd : nat → F) (embedDim nHeads : Z) (calls : nat)
    : option (t * nat) :=
  hd ← (if (nHeads =? 0)%Z then None else Some (Z.quot embedDim nHeads));
  '(wq, calls) ← initializeMatrix rnd embedDim embedDim calls;
  '(wk, calls) ← initializeMatrix rnd embedDim embedDim calls;
  '(wv, calls) ← initializeMatrix rnd embedDim embedDim calls;
  '(wo, calls) ← initializeMatrix rnd embedDim embedDim calls;
  Some ({| embeddingDim := embedDim; numHeads := nHeads; headDim := hd;
           W_Q := wq; W_K := wk; W_V := wv; W_O := wo |}, calls).

(** The columns [h * headDim .. h * headDim + headDim - 1] of every row. *)
Definition split_head (all : Matrix F) (h D : nat) : option (Matrix F) :=
  mapM (λ row, tabulate D (λ d, row !! (h * D + d))) all.

(** [concatenatedHeads[i][h * headDim + d] = headOutput[i][d]] for every
    row [i] and every [d < headDim]. *)
Definition concat_head (headOutput : Matrix F) (h D seqLen : nat)
    (concatenatedHeads : Matrix F) : option (Matrix F) :=
  for_range 0 seqLen (λ i cat,
    for_range 0 D (λ d cat,
      row ← headOutput !! i; x ← row !! d; write2 cat i (h * D + d) x) cat)
    concatenatedHeads.

(** What the loop over the heads does for head [h]. *)
Definition head_step (self : t) (Q_all K_all V_all : Matrix F) (mask : bool)
    (seqLen h : nat) (concatenatedHeads : Matrix F) : option (Matrix F) :=
  D ← alloc_size (headDim self);
  Q_head ← split_head Q_all h D;
  K_head ← split_head K_all h D;
  V_head ← split_head V_all h D;
  headOutput ← scaledDotProductAttention self Q_head K_head V_head mask;
  concat_head headOutput h D seqLen concatenatedHeads.

(** [forward] *)
Definition forward (self : t) (input : Matrix F) (mask : bool) : option (Matrix F) :=
  let seqLen := length input in
  E ← alloc_size (embeddingDim self);
  Q_all ← mapM (λ x, matMul x (W_Q self)) input;
  K_all ← mapM (λ x, matMul x (W_K self)) input;
  V_all ← mapM (λ x, matMul x (W_V self)) input;
  concatenatedHeads ←
    for_range 0 (Z.to_nat (numHeads self))
      (head_step self Q_all K_all V_all mask seqLen)
      (replicate seqLen (replicate E fzero));
  mapM (λ row, matMul row (W_O self)) concatenatedHeads.

End Def.
Arguments t : clear implicits.
End MultiHeadSelfAttention.

(** * [transformer_layers.h] *)

Module FeedForwardNetwork.
Section Def.
Context {F : Type} `{Scalar F}.

Record t := {
  W1 : Matrix F;
  W2 : Matrix F;
  B1 : Vector F;
  B2 : Vector F;
  inputDim : Z;
  hiddenDim : Z;
}.

(** [std::max(0.0f, x)] is [(0.0f < x) ? x : 0.0f]. *)
Definition relu (input : Vector F) : Vector F :=
  (λ x, if fltb fzero x then x else fzero) <$> input.

(** The constructor: two random matrices, zero biases. *)
Definition new (rnd : nat → F) (inDim hDim : Z) (calls : nat) : option (t * nat) :=
  '(w1, calls) ← initializeMatrix rnd inDim hDim calls;
  '(w2, calls) ← initializeMatrix rnd hDim inDim calls;
  h ← alloc_size hDim;
  i ← alloc_size inDim;
  Some ({| W1 := w1; W2 := w2; B1 := replicate h fzero; B2 := replicate i fzero;
           inputDim := inDim; hiddenDim := hDim |}, calls).

Definition forward (self : t) (input : Vector F) : option (Vector F) :=
  xW1 ← matMul input (W1 self);
  hidden ← add xW1 (B1 self);
  let hidden := relu hidden in
  hW2 ← matMul hidden (W2 self);
  add hW2 (B2 self).

End Def.
Arguments t : clear implicits.
End FeedForwardNetwork.

(** The "Add & Norm" loop shared by the layers:
    [out[i] = Utils::layerNorm(Utils::add(x[i], y[i]), gamma, beta)], with
    the default [epsilon = 1e-5]. *)
Definition add_norm {F : Type} `{Scalar F} (n : nat) (x y : Matrix F)
    (gamma beta : Vector F) : option (Matrix F) :=
  tabulate n (λ i,
    xi ← x !! i; yi ← y !! i; s ← add xi yi; layerNorm s gamma beta fepsilon).

Module EncoderLayer.
Section Def.
Context {F : Type} `{Scalar F} `{ScalarExp F}.

Record t := {
  selfAttention : MultiHeadSelfAttention.t F;
  ffn : FeedForwardNetwork.t F;
  ln1_gamma : Vector F;
  ln1_beta : Vector F;
  ln2_gamma : Vector F;
  ln2_beta : Vector F;
  embeddingDim : Z;
}.

(** The constructor: [gamma] is all ones and [beta] all zeros. *)
Definition new (rnd : nat → F) (embedDim numHeads ffnHiddenDim : Z) (calls : nat)
    : option (t * nat) :=
  '(attention, calls) ← MultiHeadSelfAttention.new rnd embedDim numHeads calls;
  '(network, calls) ← FeedForwardNetwork.new rnd embedDim ffnHiddenDim calls;
  E ← alloc_size embedDim;
  Some ({| selfAttention := attention; ffn := network;
           ln1_gamma := replicate E fone; ln1_beta := replicate E fzero;
           ln2_gamma := replicate E fone; ln2_beta := replicate E fzero;
           embeddingDim := embedDim |}, calls).

Definition forward (self : t) (input : Matrix F) : option (Matrix F) :=
  attnOutput ← MultiHeadSelfAttention.forward (selfAttention self) input false;
  _ ← alloc_size (embeddingDim self);
  output1 ← add_norm (length input) input attnOutput (ln1_gamma self) (ln1_beta self);
  ffnOutput ← tabulate (length input) (λ i,
                 o ← output1 !! i; FeedForwardNetwork.forward (ffn self) o);
  add_norm (length input) output1 ffnOutput (ln2_gamma self) (ln2_beta self).

End Def.
Arguments t : clear implicits.
End EncoderLayer.

Module DecoderLayer.
Section Def.
Context {F : Type} `{Scalar F} `{ScalarExp F}.

Record t := {
  maskedSelfAttention : MultiHeadSelfAttention.t F;
  encoderDecoderAttention : MultiHeadSelfAttention.t F;
  ffn : FeedForwardNetwork.t F;
  ln1_gamma : Vector F;
  ln1_beta : Vector F;
  ln2_gamma : Vector F;
  ln2_beta : Vector F;
  ln3_gamma : Vector F;
  ln3_beta : Vector F;
  embeddingDim : Z;
}.

(** The constructor. *)
Definition new (rnd : nat → F) (embedDim numHeads ffnHiddenDim : Z) (calls : nat)
    : option (t * nat) :=
  '(masked, calls) ← MultiHeadSelfAttention.new rnd embedDim numHeads calls;
  '(cross, calls) ← MultiHeadSelfAttention.new rnd embedDim numHeads calls;
  '(network, calls) ← FeedForwardNetwork.new rnd embedDim ffnHiddenDim calls;
  E ← alloc_size embedDim;
  Some ({| maskedSelfAttention := masked; encoderDecoderAttention := cross;
           ffn := network;
           ln1_gamma := replicate E fone; ln1_beta := replicate E fzero;
           ln2_gamma := replicate E fone; ln2_beta := replicate E fzero;
           ln3_gamma := replicate E fone; ln3_beta := replicate E fzero;
           embeddingDim := embedDim |}, calls).

(** The encoder-decoder attention is called as
    [encoderDecoderAttention.forward(output1)]: the parameter
    [encoderOutput] is not used in the body. *)
Definition forward (self : t) (targetInput encoderOutput : Matrix F)
    : option (Matrix F) :=
  let n := length targetInput in
  maskedAttnOutput ←
    MultiHeadSelfAttention.forward (maskedSelfAttention self) targetInput true;
  _ ← alloc_size (embeddingDim self);
  output1 ← add_norm n targetInput maskedAttnOutput (ln1_gamma self) (ln1_beta self);
  encDecAttnOutput ←
    MultiHeadSelfAttention.forward (encoderDecoderAttention self) output1 false;
  output2 ← add_norm n output1 encDecAttnOutput (ln2_gamma self) (ln2_beta self);
  ffnOutput ← tabulate n (λ i,
                 o ← output2 !! i; FeedForwardNetwork.forward (ffn self) o);
  add_norm n output2 ffnOutput (ln3_gamma self) (ln3_beta self).

End Def.
Arguments t : clear implicits.
End DecoderLayer.

Module Encoder.
Section Def.
Context {F : Type} `{Scalar F} `{ScalarExp F}.

Record t := { layers : list (EncoderLayer.t F); numLayers : Z }.

(** The constructor:
    [for (i = 0; i < numLayers; ++i) layers.emplace_back(...)]. *)
Definition new (rnd : nat → F) (numL embedDim numHeads ffnHiddenDim : Z)
    (calls : nat) : option (t * nat) :=
  '(ls, calls) ←
    for_range 0 (Z.to_nat numL)
      (λ _ '(ls, calls),
         '(layer, calls) ← EncoderLayer.new rnd embedDim numHeads ffnHiddenDim calls;
         Some (ls ++ [layer], calls))
      ([], calls);
  Some ({| layers := ls; numLayers := numL |}, calls).

(** [for (auto& layer : layers) output = layer.forward(output);] *)
Definition forward (self : t) (input : Matrix F) : option (Matrix F) :=
  foldl (λ output layer, o ← output; EncoderLayer.forward layer o)
        (Some input) (layers self).

End Def.
Arguments t : clear implicits.
End Encoder.

Module Decoder.
Section Def.
Context {F : Type} `{Scalar F} `{ScalarExp F}.

Record t := { layers : list (DecoderLayer.t F); numLayers : Z }.

(** The constructor. *)
Definition new (rnd : nat → F) (numL embedDim numHeads ffnHiddenDim : Z)
    (calls : nat) : option (t * nat) :=
  '(ls, calls) ←
    for_range 0 (Z.to_nat numL)
      (λ _ '(ls, calls),
         '(layer, calls) ← DecoderLayer.new rnd embedDim numHeads ffnHiddenDim calls;
         Some (ls ++ [layer], calls))
      ([], calls);
  Some ({| layers := ls; numLayers := numL |}, calls).

Definition forward (self : t) (targetInput encoderOutput : Matrix F)
    : option (Matrix F) :=
  foldl (λ output layer, o ← output; DecoderLayer.forward layer o encoderOutput)
        (Some targetInput) (layers self).

End Def.
Arguments t : clear implicits.
End Decoder.

(** * [tokenizer_embeddings.h] *)

(** [operator>>] on a [std::istringstream] skips the white space of the
    "C" locale and reads up to the next white-space character. *)
Definition isspace (c : ascii) : bool :=
  let n := nat_of_ascii c in
  (n =? 32) || ((9 <=? n) && (n <=? 13)).

Fixpoint words_from (word : list ascii) (s : string) : list string :=
  match s with
  | EmptyString =>
      match word with [] => [] | _ => [string_of_list_ascii (rev word)] end
  | String c rest =>
      if isspace c then
        match word with
        | [] => words_from [] rest
        | _ => string_of_list_ascii (rev word) :: words_from [] rest
        end
      else words_from (c :: word) rest
  end.

(** [while (iss >> word) tokens.push_back(word);] *)
Definition read_words (sentence : string) : list string := words_from [] sentence.

(** [::tolower] in the "C" locale. *)
Definition tolower (c : ascii) : ascii :=
  let n := nat_of_ascii c in
  if (65 <=? n) && (n <=? 90) then ascii_of_nat (n + 32) else c.

Definition lowercase (w : string) : string :=
  string_of_list_ascii (tolower <$> list_ascii_of_string w).

Module Tokenizer.

Record t := {
  wordToIndex : gmap string Z;
  indexToWord : gmap Z string;
  vocabSize : Z;
}.

Definition empty : t :=
  {| wordToIndex := ∅; indexToWord := ∅; vocabSize := 0 |}.

Definition add_word (self : t) (word : string) : t :=
  let word := lowercase word in
  match wordToIndex self !! word with
  | Some _ => self
  | None => {| wordToIndex := <[word := vocabSize self]> (wordToIndex self);
               indexToWord := <[vocabSize self := word]> (indexToWord self);
               vocabSize := vocabSize self + 1 |}
  end.

Definition buildVocabulary (self : t) (sentences : list string) : t :=
  foldl (λ self sentence, foldl add_word self (read_words sentence)) self sentences.

Definition encode (self : t) (word : string) : Z :=
  match wordToIndex self !! lowercase word with
  | Some index => index
  | None => (-1)%Z
  end.

Definition decode (self : t) (index : Z) : string :=
  match indexToWord self !! index with
  | Some word => word
  | None => "<unk>"
  end.

Definition getVocabSize (self : t) : Z := vocabSize self.

End Tokenizer.

Module Embeddings.
Section Def.
Context {F : Type} `{Scalar F}.

(** The two tables are filled by the constructor (random word embeddings,
    sinusoidal positional encodings) and only read afterwards. *)
Record t := {
  wordEmbeddings : Matrix F;
  positionalEncodings : Matrix F;
  embeddingDim : Z;
  maxSequenceLength : Z;
}.

(** [v[i]] for an [int] index. *)
Definition at_int {A : Type} (v : list A) (i : Z) : option A :=
  if (i <? 0)%Z then None else v !! Z.to_nat i.

Definition getEmbedding (self : t) (tokenIndex position : Z) : option (Vector F) :=
  embedding ← at_int (wordEmbeddings self) tokenIndex;
  posEncoding ← at_int (positionalEncodings self) position;
  add embedding posEncoding.

Definition getEmbeddingDim (self : t) : Z := embeddingDim self.

Definition getMaxSequenceLength (self : t) : Z := maxSequenceLength self.

Context `{ScalarTrig F}.

(** [generatePositionalEncodings]: entry [i] of the row of position [pos]
    is a sine for even [i] and a cosine for odd [i]. *)
Definition generatePositionalEncodings (maxSeqLen embedDim : Z)
    : option (Matrix F) :=
  cols ← alloc_size embedDim;
  rows ← alloc_size maxSeqLen;
  Some ((λ pos : nat,
           (λ i : nat,
              if (Z.of_nat i mod 2 =? 0)%Z
              then sin_pos (Z.of_nat pos) (2 * Z.of_nat i) embedDim
              else cos_pos (Z.of_nat pos) (2 * (Z.of_nat i - 1)) embedDim)
           <$> seq 0 cols)
        <$> seq 0 rows).

(** The constructor: random word embeddings, then the positional
    encodings. *)
Definition new (rnd : nat → F) (vocabSize embedDim maxSeqLen : Z) (calls : nat)
    : option (t * nat) :=
  '(words, calls) ← initializeMatrix rnd vocabSize embedDim calls;
  positions ← generatePositionalEncodings maxSeqLen embedDim;
  Some ({| wordEmbeddings := words; positionalEncodings := positions;
           embeddingDim := embedDim; maxSequenceLength := maxSeqLen |}, calls).

End Def.
Arguments t : clear implicits.
End Embeddings.

(** * [main.cpp] *)

Module Transformer.
Section Def.
Context {F : Type} `{Scalar F} `{ScalarExp F}.

Record t := {
  tokenizer : Tokenizer.t;
  embeddings : Embeddings.t F;
  encoder : Encoder.t F;
  decoder : Decoder.t F;
  outputLayerWeights : Matrix F;
  embeddingDim : Z;
  vocabSize : Z;
}.

(** The search for the highest probability: the state is
    [(predictedIndex, maxProb)], started at [(0, 0.0f)] and updated when
    [probabilities[i] > maxProb]. *)
Definition highest_probability (probabilities : Vector F) : nat * F :=
  foldl (λ '(predictedIndex, maxProb) '(i, p),
           if fltb maxProb p then (i, p) else (predictedIndex, maxProb))
        (0, fzero) (imap pair probabilities).

Definition predictedIndex (probabilities : Vector F) : nat :=
  fst (highest_probability probabilities).

(** [predictNextWord].  The warning written to [std::cerr] for an unknown
    token is not part of the result and is left out. *)
Definition predictNextWord (self : t) (sentence : string) : option string :=
  let tokens := read_words sentence in
  match tokens with
  | [] => Some EmptyString
  | _ =>
    E ← alloc_size (embeddingDim self);
    encoderInput ← tabulate (length tokens) (λ i,
        token ← tokens !! i;
        let tokenIdx := Tokenizer.encode (tokenizer self) token in
        if (tokenIdx =? -1)%Z then Some (replicate E fzero)
        else Embeddings.getEmbedding (embeddings self) tokenIdx (Z.of_nat i));
    encoderOutput ← Encoder.forward (encoder self) encoderInput;
    lastEncoderOutput ← encoderOutput !! (length encoderOutput - 1);
    logits ← matMul lastEncoderOutput (outputLayerWeights self);
    probabilities ← softmax logits;
    Some (Tokenizer.decode (tokenizer self)
            (Z.of_nat (predictedIndex probabilities)))
  end.

Context `{ScalarTrig F}.

(** The constructor.  The embeddings are built for a vocabulary of one
    word, [outputLayerWeights] stays empty, and the member [vocabSize] is
    not initialised: [indeterminate] stands for the value it happens to
    have. *)
Definition new (rnd : nat → F) (indeterminate : Z)
    (embedDim numHeads ffnHiddenDim numLayers maxSeqLen : Z) (calls : nat)
    : option (t * nat) :=
  '(emb, calls) ← Embeddings.new rnd 1 embedDim maxSeqLen calls;
  '(enc, calls) ← Encoder.new rnd numLayers embedDim numHeads ffnHiddenDim calls;
  '(dec, calls) ← Decoder.new rnd numLayers embedDim numHeads ffnHiddenDim calls;
  Some ({| tokenizer := Tokenizer.empty; embeddings := emb;
           encoder := enc; decoder := dec; outputLayerWeights := [];
           embeddingDim := embedDim; vocabSize := indeterminate |}, calls).

(** [build]: the vocabulary of the corpus, then new embeddings and output
    weights for its size. *)
Definition build (rnd : nat → F) (self : t) (corpus : list string) (calls : nat)
    : option (t * nat) :=
  let tok := Tokenizer.buildVocabulary (tokenizer self) corpus in
  let size := Tokenizer.getVocabSize tok in
  '(emb, calls) ← Embeddings.new rnd size (embeddingDim self)
                    (Embeddings.getMaxSequenceLength (embeddings self)) calls;
  '(weights, calls) ← initializeMatrix rnd (embeddingDim self) size calls;
  Some ({| tokenizer := tok; embeddings := emb;
           encoder := encoder self; decoder := decoder self;
           outputLayerWeights := weights;
           embeddingDim := embeddingDim self; vocabSize := size |}, calls).

End Def.
Arguments t : clear implicits.
End Transformer.

(** [main]: the hyperparameters, the corpus, and the word predicted for the
    line read from the standard input. *)
Module Main.
Section Def.
Context {F : Type} `{Scalar F} `{ScalarExp F} `{ScalarTrig F}.

Definition EMBEDDING_DIM : Z := 64.
Definition NUM_HEADS : Z := 4.
Definition FFN_HIDDEN_DIM : Z := 128.
Definition NUM_LAYERS : Z := 2.
Definition MAX_SEQ_LEN : Z := 100.

Definition corpus : list string :=
  ["the quick brown fox jumps over the lazy dog";
   "the dog barks loudly";
   "fox is a clever animal"]%string.

Definition predictedWord (rnd : nat → F) (indeterminate : Z) (sentence : string)
    : option string :=
  '(transformer, calls) ←
    Transformer.new rnd indeterminate
      EMBEDDING_DIM NUM_HEADS FFN_HIDDEN_DIM NUM_LAYERS MAX_SEQ_LEN 0;
  '(transformer, _) ← Transformer.build rnd transformer corpus calls;
  Transformer.predictNextWord transformer sentence.

End Def.
End Main.

(** * Two arithmetics *)

(** Exact arithmetic: the operations of the real numbers. *)
Module Exact.

#[global] Instance R_scalar : Scalar R := {|
  fzero := 0%R;
  fone := 1%R;
  fadd := Rplus;
  fsub := Rminus;
  fmul := Rmult;
  fdiv := Rdiv;
  fsqrt := sqrt;
  fltb := λ a b, if Rlt_dec a b then true else false;
  of_size := INR;
  fdiv_sqrt := λ x n, (x / sqrt (IZR n))%R;
  fmask := (-1000000000)%R;
  fepsilon := (1 / 100000)%R;
|}.

#[global] Instance R_exp : ScalarExp R := {| fexp := exp |}.

#[global] Instance R_trig : ScalarTrig R := {|
  sin_pos := λ pos num den, sin (IZR pos / Rpower 10000 (IZR num / IZR den));
  cos_pos := λ pos num den, cos (IZR pos / Rpower 10000 (IZR num / IZR den));
|}.

(** The sum of a list, as in the textbook definitions of mean and of a
    probability distribution. *)
Definition Rsum (l : list R) : R := foldr Rplus 0%R l.

End Exact.

(** IEEE 754 binary32, round to nearest even: [float] on the usual targets.
    [std::sqrt(int)] is computed in binary64.  [std::exp] on a [float] is
    the exponential rounded to the nearest binary32 number ([exp32]
    below). *)
Module Binary32.

Definition float : Type := spec_float.

Definition prec : Z := 24.
Definition emax : Z := 128.

(** Conversion of an integer. *)
Definition of_Z (n : Z) : float := binary_normalize prec emax n 0 false.

Definition round_to (p e : Z) (x : spec_float) : spec_float :=
  match x with
  | S754_finite s m ex => binary_normalize p e (cond_Zopp s (Zpos m)) ex s
  | _ => x
  end.

Definition double_of_Z (n : Z) : spec_float := binary_normalize 53 1024 n 0 false.

(** [1e-5] as a [float]: 10995116 * 2^-40, the nearest binary32 number. *)
Definition epsilon32 : float := S754_finite false 10995116 (-40).

#[global] Instance b32_scalar : Scalar float := {|
  fzero := S754_zero false;
  fone := of_Z 1;
  fadd := SFadd prec emax;
  fsub := SFsub prec emax;
  fmul := SFmul prec emax;
  fdiv := SFdiv prec emax;
  fsqrt := SFsqrt prec emax;
  fltb := SFltb;
  of_size := λ n, of_Z (Z.of_nat n);
  fdiv_sqrt := λ x n,
    round_to prec emax
      (SFdiv 53 1024 (round_to 53 1024 x) (SFsqrt 53 1024 (double_of_Z n)));
  fmask := of_Z (-1000000000);
  fepsilon := epsilon32;
|}.

(** [std::exp(float)], the library's [expf]: the exponential rounded to
    the nearest [float].  The value is computed in fixed point with 128
    fractional bits, far more than rounding to 24 bits can see:
    [x = k ln 2 + r] with [0 <= r < ln 2], [exp r] by its power series,
    and the result [exp r * 2^k] is rounded.  Below [-104] the exponential
    is less than half the least positive [float] and the result is [+0];
    above [89] it exceeds the largest [float] and the result is
    [+infinity]. *)
Definition exp_bits : Z := 128.

(** [ln 2 * 2^128], rounded down. *)
Definition ln2_fixed : Z :=
  235865763225513294137944142764154484399.

(** The partial sums of [sum r^n / n!] in fixed point; [term] is the
    previous term and [n] the index of the next one. *)
Fixpoint exp_series (fuel : nat) (n r term acc : Z) : Z :=
  match fuel with
  | O => acc
  | S fuel' =>
      let term' := (term * r / (n * 2 ^ exp_bits))%Z in
      exp_series fuel' (n + 1)%Z r term' (acc + term')%Z
  end.

Definition exp32 (x : float) : float :=
  match x with
  | S754_nan => S754_nan
  | S754_infinity false => S754_infinity false
  | S754_infinity true => S754_zero false
  | S754_zero _ => of_Z 1
  | S754_finite s m e =>
      if SFltb x (of_Z (-104)) then S754_zero false
      else if SFltb (of_Z 89) x then S754_infinity false
      else
        let xfix := (cond_Zopp s (Zpos m) * 2 ^ (e + exp_bits))%Z in
        let k := (xfix / ln2_fixed)%Z in
        let r := (xfix - k * ln2_fixed)%Z in
        let sum := exp_series 40 1 r (2 ^ exp_bits) (2 ^ exp_bits) in
        binary_normalize prec emax (Zpos (Z.to_pos sum)) (k - exp_bits) false
  end.

#[global] Instance b32_exp : ScalarExp float := {| fexp := exp32 |}.


(** Zeros and finite numbers, as opposed to infinities and NaN. *)
Definition is_finite (x : float) : bool :=
  match x with
  | S754_zero _ | S754_finite _ _ _ => true
  | _ => false
  end.

End Binary32.

(** * Shapes and the notions the statements use *)

Section Notions.
Context {F : Type} `{Scalar F}.

(** A matrix with [r] rows, all of length [c]. *)
Definition has_shape (r c : nat) (m : Matrix F) : Prop :=
  length m = r ∧ ∀ i row, m !! i = Some row → length row = c.

(** The arithmetic mean: the sum of the entries divided by their number. *)
Definition arithmetic_mean (v : Vector F) : F :=
  fdiv (accumulate v) (of_size (length v)).

(** The population variance: the sum of the squared deviations from the
    mean divided by the number [N] of entries (not by [N - 1]). *)
Definition population_variance (v : Vector F) : F :=
  let mean := arithmetic_mean v in
  fdiv (accumulate ((λ x, fmul (fsub x mean) (fsub x mean)) <$> v))
       (of_size (length v)).

End Notions.

Section WellFormed.
Context {F : Type} `{Scalar F}.

(** What [forward] needs of an attention module with embedding dimension
    [E]: square weight matrices and head blocks that fit into a row.  The
    head count need not divide [E]. *)
Definition attention_ok (a : MultiHeadSelfAttention.t F) (E : nat) : Prop :=
  0 < E ∧
  MultiHeadSelfAttention.embeddingDim a = Z.of_nat E ∧
  (0 ≤ MultiHeadSelfAttention.headDim a)%Z ∧
  Z.to_nat (MultiHeadSelfAttention.numHeads a)
    * Z.to_nat (MultiHeadSelfAttention.headDim a) ≤ E ∧
  has_shape E E (MultiHeadSelfAttention.W_Q a) ∧
  has_shape E E (MultiHeadSelfAttention.W_K a) ∧
  has_shape E E (MultiHeadSelfAttention.W_V a) ∧
  has_shape E E (MultiHeadSelfAttention.W_O a).

(** The documented case: [numHeads] divides [embeddingDim] and
    [headDim = embeddingDim / numHeads]. *)
Definition heads_divide (a : MultiHeadSelfAttention.t F) : Prop :=
  (0 < MultiHeadSelfAttention.numHeads a)%Z ∧
  (MultiHeadSelfAttention.numHeads a * MultiHeadSelfAttention.headDim a
   = MultiHeadSelfAttention.embeddingDim a)%Z.

(** A valid attention module with embedding dimension [E]. *)
Definition attention_valid (a : MultiHeadSelfAttention.t F) (E : nat) : Prop :=
  heads_divide a ∧
  0 < E ∧
  MultiHeadSelfAttention.embeddingDim a = Z.of_nat E ∧
  has_shape E E (MultiHeadSelfAttention.W_Q a) ∧
  has_shape E E (MultiHeadSelfAttention.W_K a) ∧
  has_shape E E (MultiHeadSelfAttention.W_V a) ∧
  has_shape E E (MultiHeadSelfAttention.W_O a).

(** A feed-forward network from [E] to [E] through a hidden layer of width
    [hidden]. *)
Definition ffn_ok (f : FeedForwardNetwork.t F) (E : nat) : Prop :=
  ∃ hidden, 0 < hidden ∧
    has_shape E hidden (FeedForwardNetwork.W1 f) ∧
    has_shape hidden E (FeedForwardNetwork.W2 f) ∧
    length (FeedForwardNetwork.B1 f) = hidden ∧
    length (FeedForwardNetwork.B2 f) = E.

Definition encoder_layer_ok (l : EncoderLayer.t F) (E : nat) : Prop :=
  EncoderLayer.embeddingDim l = Z.of_nat E ∧
  attention_valid (EncoderLayer.selfAttention l) E ∧
  ffn_ok (EncoderLayer.ffn l) E ∧
  length (EncoderLayer.ln1_gamma l) = E ∧ length (EncoderLayer.ln1_beta l) = E ∧
  length (EncoderLayer.ln2_gamma l) = E ∧ length (EncoderLayer.ln2_beta l) = E.

(** Residual connection and normalisation of one position:
    [LayerNorm(x + y, gamma, beta)]. *)
Definition residual_norm (x y gamma beta : Vector F) : option (Vector F) :=
  s ← add x y; layerNorm s gamma beta fepsilon.


(** Two sequences of the same length with the same rows [0..i]. *)
Definition same_upto (i : nat) (X X' : Matrix F) : Prop :=
  length X = length X' ∧ ∀ k, k ≤ i → X !! k = X' !! k.

End WellFormed.

(** A sentence without tokens: every character is white space. *)
Definition blank (sentence : string) : Prop :=
  Forall (λ c, isspace c = true) (list_ascii_of_string sentence).

(** The encoder layer at one position, given the input vector [x] of the
    position and row [a] of the self-attention output:
    [normed1 = LayerNorm(x + a)] with the [ln1] parameters, then
    [LayerNorm(normed1 + ffn(normed1))] with the [ln2] parameters. *)
Definition encoder_position {F : Type} `{Scalar F} (l : EncoderLayer.t F)
    (x a : Vector F) : option (Vector F) :=
  normed1 ← residual_norm x a (EncoderLayer.ln1_gamma l) (EncoderLayer.ln1_beta l);
  ffnOut ← FeedForwardNetwork.forward (EncoderLayer.ffn l) normed1;
  residual_norm normed1 ffnOut (EncoderLayer.ln2_gamma l) (EncoderLayer.ln2_beta l).

(** * Concrete models and inputs used in the examples *)

Module Examples.
Import MultiHeadSelfAttention.
Open Scope R_scope.

(** One head of width one: [Q = x], [K = -x], [V = x]. *)
Definition narrow : MultiHeadSelfAttention.t R :=
  {| embeddingDim := 1; numHeads := 1; headDim := 1;
     W_Q := [[1]]; W_K := [[-1]]; W_V := [[1]]; W_O := [[1]] |}.

(** Two sequences of length two that differ at position 1 only. *)
Definition seq_a : Matrix R := [[100000]; [0]].
Definition seq_b : Matrix R := [[100000]; [1]].

(** Two heads of width one; the value projection reads the first
    coordinate only. *)
Definition two_heads : MultiHeadSelfAttention.t R :=
  {| embeddingDim := 2; numHeads := 2; headDim := 1;
     W_Q := [[1; 0]; [0; 1]]; W_K := [[1; 0]; [0; 1]];
     W_V := [[1; 0]; [0; 0]]; W_O := [[1; 0]; [0; 1]] |}.

Definition seq_c : Matrix R := [[1; 2]; [3; 4]].
Definition seq_d : Matrix R := [[1; 2]; [3; 5]].

(** An encoder layer around [two_heads] with a hidden layer of width one,
    [gamma = 1] and [beta = 0]. *)
Definition tiny_ffn : FeedForwardNetwork.t R :=
  {| FeedForwardNetwork.W1 := [[1]; [1]];
     FeedForwardNetwork.W2 := [[1; -1]];
     FeedForwardNetwork.B1 := [0];
     FeedForwardNetwork.B2 := [0; 0];
     FeedForwardNetwork.inputDim := 2;
     FeedForwardNetwork.hiddenDim := 1 |}.

Definition tiny_layer : EncoderLayer.t R :=
  {| EncoderLayer.selfAttention := two_heads;
     EncoderLayer.ffn := tiny_ffn;
     EncoderLayer.ln1_gamma := [1; 1];
     EncoderLayer.ln1_beta := [0; 0];
     EncoderLayer.ln2_gamma := [1; 1];
     EncoderLayer.ln2_beta := [0; 0];
     EncoderLayer.embeddingDim := 2 |}.

(** A model without vocabulary, layers and output weights, as before
    [build] has run. *)
Definition unbuilt : Transformer.t R :=
  {| Transformer.tokenizer := Tokenizer.empty;
     Transformer.embeddings :=
       {| Embeddings.wordEmbeddings := [[]];
          Embeddings.positionalEncodings := [];
          Embeddings.embeddingDim := 2;
          Embeddings.maxSequenceLength := 0 |};
     Transformer.encoder := {| Encoder.layers := []; Encoder.numLayers := 0 |};
     Transformer.decoder := {| Decoder.layers := []; Decoder.numLayers := 0 |};
     Transformer.outputLayerWeights := [];
     Transformer.embeddingDim := 2;
     Transformer.vocabSize := 0 |}.

End Examples.

(** * Notions used by the further properties *)

Section MoreNotions.
Context {F : Type} `{Scalar F}.

(** The sum of the products of corresponding entries, added from the left
    starting from [0.0]; entries of the longer vector without a partner
    are left out. *)
Definition sum_of_products (a b : Vector F) : F :=
  foldl (λ acc xy, fadd acc (fmul xy.1 xy.2)) fzero (zip a b).

(** Column [i] of a matrix. *)
Definition column (i : nat) (matrix : Matrix F) : Vector F :=
  (λ row, default fzero (row !! i)) <$> matrix.

End MoreNotions.

(** The words of a corpus in reading order, in lower case. *)
Definition corpus_words (sentences : list string) : list string :=
  lowercase <$> (sentences ≫= read_words).

(** A list of words without its repetitions: every word stays at the place
    of its first occurrence. *)
Definition first_occurrences (ws : list string) : list string :=
  foldl (λ acc w, if bool_decide (w ∈ acc) then acc else acc ++ [w]) [] ws.

(** The position of a word in a list, or [-1]. *)
Definition position_of (w : string) (ws : list string) : Z :=
  match list_find (λ v, v = w) ws with
  | Some (i, _) => Z.of_nat i
  | None => (-1)%Z
  end.

(** The tokenizer holds exactly the words [ws], numbered by position. *)
Definition numbered (tk : Tokenizer.t) (ws : list string) : Prop :=
  NoDup ws ∧
  Tokenizer.vocabSize tk = Z.of_nat (length ws) ∧
  (∀ w i, Tokenizer.wordToIndex tk !! w = Some i
          ↔ (0 ≤ i)%Z ∧ ws !! Z.to_nat i = Some w) ∧
  (∀ i w, Tokenizer.indexToWord tk !! i = Some w
          ↔ (0 ≤ i)%Z ∧ ws !! Z.to_nat i = Some w).

Section MoreWellFormed.
Context {F : Type} `{Scalar F}.

(** A valid decoder layer with embedding dimension [E]. *)
Definition decoder_layer_ok (l : DecoderLayer.t F) (E : nat) : Prop :=
  DecoderLayer.embeddingDim l = Z.of_nat E ∧
  attention_valid (DecoderLayer.maskedSelfAttention l) E ∧
  attention_valid (DecoderLayer.encoderDecoderAttention l) E ∧
  ffn_ok (DecoderLayer.ffn l) E ∧
  length (DecoderLayer.ln1_gamma l) = E ∧ length (DecoderLayer.ln1_beta l) = E ∧
  length (DecoderLayer.ln2_gamma l) = E ∧ length (DecoderLayer.ln2_beta l) = E ∧
  length (DecoderLayer.ln3_gamma l) = E ∧ length (DecoderLayer.ln3_beta l) = E.

(** The parameters of the three normalisations as the constructor sets
    them: every [gamma] is all ones and every [beta] all zeros. *)
Definition decoder_layer_norms_initial (l : DecoderLayer.t F) (E : nat) : Prop :=
  DecoderLayer.ln1_gamma l = replicate E fone ∧
  DecoderLayer.ln1_beta l = replicate E fzero ∧
  DecoderLayer.ln2_gamma l = replicate E fone ∧
  DecoderLayer.ln2_beta l = replicate E fzero ∧
  DecoderLayer.ln3_gamma l = replicate E fone ∧
  DecoderLayer.ln3_beta l = replicate E fzero.

(** Embedding tables for [V] words and [M] positions of dimension [E]. *)
Definition embeddings_ok (e : Embeddings.t F) (V E M : nat) : Prop :=
  has_shape V E (Embeddings.wordEmbeddings e) ∧
  has_shape M E (Embeddings.positionalEncodings e).

(** A built model: a vocabulary of [V > 0] words numbered [0 .. V - 1],
    embedding tables and output weights of the matching sizes, and valid
    encoder layers. *)
Definition transformer_ok (m : Transformer.t F) (V E M : nat) : Prop :=
  0 < V ∧ 0 < E ∧
  Transformer.embeddingDim m = Z.of_nat E ∧
  (∃ ws, numbered (Transformer.tokenizer m) ws ∧ length ws = V) ∧
  embeddings_ok (Transformer.embeddings m) V E M ∧
  Forall (λ l, encoder_layer_ok l E) (Encoder.layers (Transformer.encoder m)) ∧
  has_shape E V (Transformer.outputLayerWeights m).

End MoreWellFormed.

(** The number of calls of [rand()] that the constructor of one encoder
    layer makes: four [E x E] attention matrices and the two matrices of the
    feed-forward network. *)
Definition encoder_layer_draws (E hidden : nat) : nat :=
  4 * (E * E) + (E * hidden + hidden * E).

(** A [float] that is neither a NaN nor negative: [+0.0], a positive
    number or [+infinity]. *)
Definition nonnegative32 (x : Binary32.float) : bool :=
  match x with
  | S754_zero false | S754_infinity false | S754_finite false _ _ => true
  | _ => false
  end.

(** * Further concrete models used in the examples *)

Module MoreExamples.
Import Examples.
Open Scope R_scope.

(** A decoder layer around [two_heads] and [tiny_ffn]. *)
Definition tiny_decoder_layer : DecoderLayer.t R :=
  {| DecoderLayer.maskedSelfAttention := two_heads;
     DecoderLayer.encoderDecoderAttention := two_heads;
     DecoderLayer.ffn := tiny_ffn;
     DecoderLayer.ln1_gamma := [1; 1];
     DecoderLayer.ln1_beta := [0; 0];
     DecoderLayer.ln2_gamma := [1; 1];
     DecoderLayer.ln2_beta := [0; 0];
     DecoderLayer.ln3_gamma := [1; 1];
     DecoderLayer.ln3_beta := [0; 0];
     DecoderLayer.embeddingDim := 2 |}.

(** Embedding tables for two words and two positions. *)
Definition tiny_embeddings : Embeddings.t R :=
  {| Embeddings.wordEmbeddings := [[1; 2]; [3; 4]];
     Embeddings.positionalEncodings := [[0; 1]; [1; 0]];
     Embeddings.embeddingDim := 2;
     Embeddings.maxSequenceLength := 2 |}.

(** A built model with the vocabulary of the corpus ["a b"] and one
    encoder layer. *)
Definition tiny_model : Transformer.t R :=
  {| Transformer.tokenizer :=
       Tokenizer.buildVocabulary Tokenizer.empty ["a b"%string];
     Transformer.embeddings := tiny_embeddings;
     Transformer.encoder :=
       {| Encoder.layers := [tiny_layer]; Encoder.numLayers := 1 |};
     Transformer.decoder :=
       {| Decoder.layers := [tiny_decoder_layer]; Decoder.numLayers := 1 |};
     Transformer.outputLayerWeights := [[1; 0]; [0; 1]];
     Transformer.embeddingDim := 2;
     Transformer.vocabSize := 2 |}.

End MoreExamples.

(** * Notions for the arithmetic of [float] *)

(** A [float] that is a number with the sign bit [s]: a zero, a finite
    number or an infinity of that sign, and not a NaN. *)
Definition has_sign (s : bool) (x : Binary32.float) : Prop :=
  match x with
  | S754_nan => False
  | S754_zero sx | S754_infinity sx | S754_finite sx _ _ => sx = s
  end.

Definition is_nan (x : Binary32.float) : bool :=
  match x with S754_nan => true | _ => false end.

(** A key that orders the [float] numbers: the class (negative infinity,
    negative, zero, positive, positive infinity), then exponent and
    mantissa, both negated for a negative number.  [SFcompare] compares two
    numbers as it compares their keys. *)
Definition float_key (x : Binary32.float) : Z * Z * Z :=
  match x with
  | S754_nan => (0, 0, 0)%Z
  | S754_zero _ => (0, 0, 0)%Z
  | S754_infinity true => (-2, 0, 0)%Z
  | S754_infinity false => (2, 0, 0)%Z
  | S754_finite true m e => (-1, - e, Z.neg m)%Z
  | S754_finite false m e => (1, e, Z.pos m)%Z
  end.

Definition key_lt (a b : Z * Z * Z) : Prop :=
  (a.1.1 < b.1.1)%Z ∨
  (a.1.1 = b.1.1 ∧ ((a.1.2 < b.1.2)%Z ∨ (a.1.2 = b.1.2 ∧ (a.2 < b.2)%Z))).

(** * The selection of [predictNextWord] *)

Section Selection.
Context {F : Type} `{Scalar F} `{ScalarExp F}.

(** [k] is the index of the first largest entry of [v] for the comparison
    [<] of the arithmetic: no entry is above the entry at [k], and every
    entry before [k] is below it. *)
Definition first_maximum (v : Vector F) (k : nat) : Prop :=
  ∃ best, v !! k = Some best ∧
    (∀ j p, v !! j = Some p → fltb best p = false) ∧
    (∀ j p, j < k → v !! j = Some p → fltb p best = true).

(** The comparison [<] orders the values [vs] as numbers are ordered: no
    value is below itself, [<] is transitive, and so is "not below". *)
Definition ordered_by_lt (vs : list F) : Prop :=
  (∀ a, a ∈ vs → fltb a a = false) ∧
  (∀ a b c, a ∈ vs → b ∈ vs → c ∈ vs →
            fltb a b = true → fltb b c = true → fltb a c = true) ∧
  (∀ a b c, a ∈ vs → b ∈ vs → c ∈ vs →
            fltb a b = false → fltb b c = false → fltb a c = false).

(** The probabilities that [predictNextWord] computes on a sentence: its
    statements from the encoder input to [softmax(logits)]. *)
Definition next_word_probabilities (self : Transformer.t F) (sentence : string)
    : option (Vector F) :=
  let tokens := read_words sentence in
  E ← alloc_size (Transformer.embeddingDim self);
  encoderInput ← tabulate (length tokens) (λ i,
      token ← tokens !! i;
      let tokenIdx := Tokenizer.encode (Transformer.tokenizer self) token in
      if (tokenIdx =? -1)%Z then Some (replicate E fzero)
      else Embeddings.getEmbedding (Transformer.embeddings self) tokenIdx
             (Z.of_nat i));
  encoderOutput ← Encoder.forward (Transformer.encoder self) encoderInput;
  lastEncoderOutput ← encoderOutput !! (length encoderOutput - 1);
  logits ← matMul lastEncoderOutput (Transformer.outputLayerWeights self);
  softmax logits.

End Selection.

(** * A concrete model over [float] *)

Module Examples32.
Import Binary32.

(** A built model with the vocabulary of the corpus ["a b c"], embeddings
    of dimension 2 for two positions and no encoder layer.  The output
    weights give the second and the third word the same logit. *)
Definition tie_model : Transformer.t float :=
  {| Transformer.tokenizer :=
       Tokenizer.buildVocabulary Tokenizer.empty ["a b c"%string];
     Transformer.embeddings :=
       {| Embeddings.wordEmbeddings :=
            [[of_Z 1; of_Z 0]; [of_Z 2; of_Z 0]; [of_Z 3; of_Z 0]];
          Embeddings.positionalEncodings := [[of_Z 0; of_Z 1]; [of_Z 1; of_Z 0]];
          Embeddings.embeddingDim := 2;
          Embeddings.maxSequenceLength := 2 |};
     Transformer.encoder := {| Encoder.layers := []; Encoder.numLayers := 0 |};
     Transformer.decoder := {| Decoder.layers := []; Decoder.numLayers := 0 |};
     Transformer.outputLayerWeights :=
       [[of_Z 1; of_Z 2; of_Z 2]; [of_Z 0; of_Z 0; of_Z 0]];
     Transformer.embeddingDim := 2;
     Transformer.vocabSize := 3 |}.





End Examples32.

(** * Notions for the causal mask in [float] arithmetic *)

Definition is_zero (x : Binary32.float) : bool :=
  match x with S754_zero _ => true | _ => false end.




(** * Notions for [softmax] in [float] arithmetic *)

(** A value of the type [float]: a finite [spec_float] is one when its
    mantissa and exponent are those of the format ([valid_binary]). *)
Definition is_float (x : Binary32.float) : bool :=
  valid_binary Binary32.prec Binary32.emax x.

(** A zero, a negative number or [-infinity]. *)
Definition nonpositive (x : Binary32.float) : Prop :=
  match x with
  | S754_zero _ | S754_finite true _ _ | S754_infinity true => True
  | _ => False
  end.

(** [+0.0] or a positive finite number, with an exponent of the format. *)
Definition finite_nonnegative (x : Binary32.float) : Prop :=
  match x with
  | S754_zero false => True
  | S754_finite false _ e => (-149 ≤ e)%Z
  | _ => False
  end.

(** A finite number has an exponent of the format. *)
Definition lower_bounded (x : Binary32.float) : Prop :=
  match x with S754_finite _ _ e => (-149 ≤ e)%Z | _ => True end.

(** A number that is at least 1: [+infinity], or [m * 2^e] with a
    mantissa of 24 digits, so [2^23 <= m], and [-23 <= e]. *)
Definition at_least_one (x : Binary32.float) : Prop :=
  match x with
  | S754_infinity false => True
  | S754_finite false m e => Z.pos (digits2_pos m) = 24%Z ∧ (-23 ≤ e)%Z
  | _ => False
  end.

(** * Loops *)

Section Loops.
Context {St : Type}.
Implicit Types (body : nat → St → option St) (s : St).

(** Total correctness: an invariant that every iteration re-establishes. *)
Lemma for_range_inv (P : nat → St → Prop) lo n body s :
  P lo s →
  (∀ i t, lo ≤ i < lo + n → P i t → ∃ t', body i t = Some t' ∧ P (S i) t') →
  ∃ r, for_range lo n body s = Some r ∧ P (lo + n) r.
Proof.
  revert lo s. induction n as [|n IH]; intros lo s H0 Hstep; simpl.
  - exists s. by rewrite Nat.add_0_r.
  - destruct (Hstep lo s) as (s' & -> & HP); [lia|done|]. simpl.
    destruct (IH (S lo) s') as (r & Hr & HPr); [done| |].
    + intros i t Hi. apply Hstep. lia.
    + exists r. split; [done|]. by replace (lo + S n) with (S lo + n) by lia.
Qed.

(** Two runs side by side. *)
Lemma for_range_rel (R : nat → St → St → Prop) lo n body1 body2 s1 s2 r1 r2 :
  R lo s1 s2 →
  (∀ i a b a' b', lo ≤ i < lo + n → R i a b →
     body1 i a = Some a' → body2 i b = Some b' → R (S i) a' b') →
  for_range lo n body1 s1 = Some r1 →
  for_range lo n body2 s2 = Some r2 →
  R (lo + n) r1 r2.
Proof.
  revert lo s1 s2. induction n as [|n IH]; intros lo s1 s2 H0 Hstep; simpl.
  - intros [= <-] [= <-]. by rewrite Nat.add_0_r.
  - destruct (body1 lo s1) as [a'|] eqn:H1; simpl; [|done].
    destruct (body2 lo s2) as [b'|] eqn:H2; simpl; [|done].
    intros Hr1 Hr2. replace (lo + S n) with (S lo + n) by lia.
    apply (IH (S lo) a' b'); [by eapply Hstep; [lia| | |]| |done|done].
    intros i a b a2 b2 Hi. apply Hstep. lia.
Qed.

End Loops.

Section Tabulate.
Context {A : Type}.
Implicit Types (f : nat → option A) (l : list A).

Lemma tabulate_Some n f l :
  tabulate n f = Some l ↔ length l = n ∧ ∀ i, i < n → f i = l !! i.
Proof.
  unfold tabulate. rewrite mapM_Some. split.
  - intros HF. pose proof (Forall2_length _ _ _ HF) as Hlen.
    rewrite length_seq in Hlen. split; [done|]. intros i Hi.
    destruct (lookup_lt_is_Some_2 l i) as [y Hy]; [lia|].
    rewrite Hy. eapply (Forall2_lookup_lr _ (seq 0 n) l i i y) in HF; eauto.
    by rewrite lookup_seq_lt.
  - intros [Hlen Hf]. apply Forall2_same_length_lookup_2.
    + by rewrite length_seq.
    + intros i x y Hx Hy. apply lookup_seq in Hx as [-> Hi]. simpl.
      by rewrite Hf.
Qed.

Lemma tabulate_length n f l : tabulate n f = Some l → length l = n.
Proof. intros Hl. by apply tabulate_Some in Hl as [? _]. Qed.

Lemma tabulate_lookup n f l i :
  tabulate n f = Some l → i < n → l !! i = f i.
Proof. intros Hl Hi. apply tabulate_Some in Hl as [_ Hf]. by rewrite Hf. Qed.

Lemma tabulate_total n f :
  (∀ i, i < n → is_Some (f i)) → ∃ l, tabulate n f = Some l.
Proof.
  intros Hf. apply (mapM_is_Some_2 f). apply Forall_forall.
  intros i Hi. apply elem_of_seq in Hi. apply Hf. lia.
Qed.

End Tabulate.

Lemma mapM_lookup {A B : Type} (f : A → option B) l k i :
  mapM f l = Some k → k !! i = l !! i ≫= f.
Proof.
  intros Hk. apply mapM_Some in Hk.
  destruct (l !! i) as [x|] eqn:Hx; simpl.
  - destruct (Forall2_lookup_l _ _ _ _ _ Hk Hx) as (y & Hy & Hf). congruence.
  - apply lookup_ge_None. rewrite <- (Forall2_length _ _ _ Hk).
    by apply lookup_ge_None.
Qed.

Lemma mapM_total {A B : Type} (f : A → option B) l :
  (∀ x, x ∈ l → is_Some (f x)) → ∃ k, mapM f l = Some k.
Proof. intros Hf. apply (mapM_is_Some_2 f). by apply Forall_forall. Qed.

(** * Numeric utilities *)

Section UtilsFacts.
Context {F : Type} `{Scalar F}.
Implicit Types (a b v vec input gamma beta : Vector F) (m matrix : Matrix F).

Lemma has_shape_lookup r c m i row :
  has_shape r c m → m !! i = Some row → length row = c.
Proof. intros [_ Hrows]. apply Hrows. Qed.

Lemma has_shape_replicate r c (x : F) : has_shape r c (replicate r (replicate c x)).
Proof.
  split; [by rewrite length_replicate|].
  intros i row [-> _]%lookup_replicate. by rewrite length_replicate.
Qed.

Lemma dotProduct_total a b :
  length a ≤ length b → ∃ d, dotProduct a b = Some d.
Proof.
  intros Hlen. unfold dotProduct.
  destruct (for_range_inv (λ _ _, True) 0 (length a)
    (λ i result, x ← a !! i; y ← b !! i; Some (fadd result (fmul x y))) fzero)
    as (r & Hr & _); [done| |by exists r].
  intros i t Hi _.
  destruct (lookup_lt_is_Some_2 a i) as [x ->]; [lia|].
  destruct (lookup_lt_is_Some_2 b i) as [y ->]; [lia|]. simpl. eauto.
Qed.

Lemma matMul_total vec matrix r c :
  has_shape r c matrix → 0 < r → length vec ≤ r →
  ∃ out, matMul vec matrix = Some out ∧ length out = c.
Proof.
  intros [Hr Hrows] Hpos Hvec. unfold matMul.
  destruct (lookup_lt_is_Some_2 matrix 0) as [row0 Hrow0]; [lia|].
  rewrite Hrow0. simpl. rewrite (Hrows _ _ Hrow0).
  match goal with |- ∃ _, tabulate _ ?f = _ ∧ _ =>
    destruct (tabulate_total c f) as [out Hout] end.
  - intros i Hi.
    match goal with |- is_Some (for_range _ _ ?body _) =>
      destruct (for_range_inv (λ _ _, True) 0 (length vec) body fzero)
        as (x & -> & _); [done| |done] end.
    intros j t Hj _.
    destruct (lookup_lt_is_Some_2 vec j) as [v ->]; [lia|].
    destruct (lookup_lt_is_Some_2 matrix j) as [rj Hrj]; [lia|].
    rewrite Hrj. simpl.
    destruct (lookup_lt_is_Some_2 rj i) as [x ->];
      [rewrite (Hrows _ _ Hrj); lia|].
    simpl. eauto.
  - exists out. split; [done|]. by apply tabulate_length in Hout.
Qed.

Lemma add_total a b :
  length a ≤ length b → ∃ out, add a b = Some out ∧ length out = length a.
Proof.
  intros Hlen. destruct (tabulate_total (length a)
    (λ i, x ← a !! i; y ← b !! i; Some (fadd x y))) as [out Hout].
  - intros i Hi.
    destruct (lookup_lt_is_Some_2 a i) as [x ->]; [lia|].
    destruct (lookup_lt_is_Some_2 b i) as [y ->]; [lia|]. simpl. eauto.
  - exists out. split; [done|]. by apply tabulate_length in Hout.
Qed.

(** The loop that accumulates the squared deviations computes the sum of
    the list of squared deviations. *)
Lemma variance_loop_accumulate (mean : F) input :
  foldl (λ variance val, fadd variance (fmul (fsub val mean) (fsub val mean)))
        fzero input
  = accumulate ((λ x, fmul (fsub x mean) (fsub x mean)) <$> input).
Proof. unfold accumulate. by rewrite foldl_fmap. Qed.

Lemma layerNorm_total input gamma beta epsilon :
  length input ≤ length gamma → length input ≤ length beta →
  ∃ out, layerNorm input gamma beta epsilon = Some out ∧
         length out = length input.
Proof.
  intros Hg Hb. unfold layerNorm.
  match goal with |- ∃ _, tabulate _ ?f = _ ∧ _ =>
    destruct (tabulate_total (length input) f) as [out Hout] end.
  - intros i Hi.
    destruct (lookup_lt_is_Some_2 input i) as [x ->]; [lia|].
    destruct (lookup_lt_is_Some_2 gamma i) as [g ->]; [lia|].
    destruct (lookup_lt_is_Some_2 beta i) as [b ->]; [lia|]. simpl. eauto.
  - exists out. split; [done|]. by apply tabulate_length in Hout.
Qed.

(** The loop that fills [output]: entry [i] is computed from [input[i]],
    [gamma[i]] and [beta[i]] with the mean and the variance accumulated
    before. *)
Lemma layerNorm_lookup input gamma beta epsilon output i :
  layerNorm input gamma beta epsilon = Some output →
  i < length input →
  output !! i =
    (xi ← input !! i; gi ← gamma !! i; bi ← beta !! i;
     Some (fadd (fdiv (fmul gi (fsub xi (arithmetic_mean input)))
                      (fsqrt (fadd (population_variance input) epsilon)))
                bi)).
Proof.
  unfold layerNorm. intros Hout Hi.
  rewrite (tabulate_lookup _ _ _ i Hout Hi).
  by rewrite variance_loop_accumulate.
Qed.

(** C6. For a non-empty [input] and [gamma], [beta] of the same length,
    [Utils::layerNorm] returns the vector of that length whose [i]-th entry
    is [gamma[i] * (input[i] - mean) / sqrt(variance + epsilon) + beta[i]],
    where [mean] is the arithmetic mean of [input] and [variance] its
    population variance (squared deviations summed and divided by [N]).
    This holds for every [epsilon], in particular the default [1e-5]. *)
Theorem layerNorm_formula input gamma beta epsilon :
  input ≠ [] →
  length gamma = length input →
  length beta = length input →
  ∃ output,
    layerNorm input gamma beta epsilon = Some output ∧
    length output = length input ∧
    ∀ i xi gi bi,
      input !! i = Some xi → gamma !! i = Some gi → beta !! i = Some bi →
      output !! i =
        Some (fadd (fdiv (fmul gi (fsub xi (arithmetic_mean input)))
                         (fsqrt (fadd (population_variance input) epsilon)))
                   bi).
Proof.
  intros _ Hg Hb.
  destruct (layerNorm_total input gamma beta epsilon) as (out & Hout & Hlen);
    [lia|lia|].
  exists out. split; [done|]. split; [done|].
  intros i xi gi bi Hx Hgi Hbi.
  rewrite (layerNorm_lookup _ _ _ _ _ i Hout); [|by eapply lookup_lt_Some].
  by rewrite Hx, Hgi, Hbi.
Qed.

End UtilsFacts.

(** The formula in binary32 on the input [(1, 2)] with [gamma = (1, 1)]
    and [beta = (0, 0)]. *)
Lemma layerNorm_formula_witness :
  let input := [Binary32.of_Z 1; Binary32.of_Z 2] in
  let gamma := [Binary32.of_Z 1; Binary32.of_Z 1] in
  let beta := [Binary32.of_Z 0; Binary32.of_Z 0] in
  ∃ output,
    layerNorm input gamma beta fepsilon = Some output ∧
    length output = length input ∧
    ∀ i xi gi bi,
      input !! i = Some xi → gamma !! i = Some gi → beta !! i = Some bi →
      output !! i =
        Some (fadd (fdiv (fmul gi (fsub xi (arithmetic_mean input)))
                         (fsqrt (fadd (population_variance input) fepsilon)))
                   bi).
Proof.
  exact (layerNorm_formula (F := Binary32.float)
           [Binary32.of_Z 1; Binary32.of_Z 2]
           [Binary32.of_Z 1; Binary32.of_Z 1]
           [Binary32.of_Z 0; Binary32.of_Z 0] fepsilon
           ltac:(discriminate) eq_refl eq_refl).
Defined.

(** * Attention *)

Lemma mapM_shape {A F : Type} (f : A → option (list F)) (l : list A) c :
  (∀ x, x ∈ l → ∃ y, f x = Some y ∧ length y = c) →
  ∃ k, mapM f l = Some k ∧ has_shape (length l) c k.
Proof.
  intros Hf. destruct (mapM_total f l) as [k Hk].
  { intros x Hx. destruct (Hf x Hx) as (y & -> & _). eauto. }
  exists k. split; [done|]. split; [symmetry; by eapply length_mapM|].
  intros i row Hrow. rewrite (mapM_lookup _ _ _ i Hk) in Hrow.
  destruct (l !! i) as [x|] eqn:Hx; simpl in Hrow; [|done].
  destruct (Hf x) as (y & Hy & Hlen); [by eapply list_elem_of_lookup_2|].
  congruence.
Qed.

Section SoftmaxFacts.
Context {F : Type} `{Scalar F} `{ScalarExp F}.

Lemma max_element_is_Some (v : Vector F) : v ≠ [] → is_Some (max_element v).
Proof. destruct v; [done|]. simpl. eauto. Qed.

Lemma softmax_Some (scores r : Vector F) :
  softmax scores = Some r → length r = length scores.
Proof.
  unfold softmax. destruct (max_element scores); simpl; [|done].
  intros [= <-]. by rewrite !length_fmap.
Qed.

Lemma softmax_total (scores : Vector F) :
  scores ≠ [] → ∃ r, softmax scores = Some r ∧ length r = length scores.
Proof.
  intros Hne. destruct (max_element_is_Some scores Hne) as [mx Hmx].
  unfold softmax. rewrite Hmx. simpl. eexists. split; [done|].
  by rewrite !length_fmap.
Qed.

(** [softmax] commutes with every change of the scores that preserves the
    comparisons and the differences of the entries. *)
Lemma max_loop_shift (shift : F → F) (scores : Vector F) x rest :
  (∀ a b, a ∈ scores → b ∈ scores → fltb (shift a) (shift b) = fltb a b) →
  x ∈ scores → (∀ y, y ∈ rest → y ∈ scores) →
  let m := foldl (λ largest y, if fltb largest y then y else largest) x rest in
  m ∈ scores ∧
  foldl (λ largest y, if fltb largest y then y else largest)
        (shift x) (shift <$> rest) = shift m.
Proof.
  intros Hlt. revert x. induction rest as [|z rest IH]; intros x Hx Hrest;
    cbn [foldl fmap list_fmap]; [done|].
  assert (z ∈ scores) as Hz by apply Hrest, list_elem_of_here.
  rewrite (Hlt x z Hx Hz).
  assert (∀ y, y ∈ rest → y ∈ scores) as Hrest'
    by (intros y Hy; by apply Hrest, list_elem_of_further).
  destruct (fltb x z); by apply IH.
Qed.

Lemma max_element_shift (shift : F → F) (scores : Vector F) :
  (∀ a b, a ∈ scores → b ∈ scores → fltb (shift a) (shift b) = fltb a b) →
  max_element (shift <$> scores) = shift <$> max_element scores ∧
  ∀ m, max_element scores = Some m → m ∈ scores.
Proof.
  intros Hlt. destruct scores as [|x rest]; [done|].
  destruct (max_loop_shift shift (x :: rest) x rest Hlt) as [Hm Heq].
  { apply list_elem_of_here. }
  { intros y Hy. by apply list_elem_of_further. }
  split.
  - change (shift <$> x :: rest) with (shift x :: (shift <$> rest)).
    unfold max_element. by rewrite Heq.
  - by intros m [= <-].
Qed.

End SoftmaxFacts.

Section AttentionFacts.
Context {F : Type} `{Scalar F} `{ScalarExp F}.
Import MultiHeadSelfAttention.
Implicit Types (self : MultiHeadSelfAttention.t F) (Q K V X : Matrix F).

Lemma apply_mask_shape r c (scores : Matrix F) :
  has_shape r c scores → has_shape r c (apply_mask scores).
Proof.
  intros [Hr Hrows]. unfold apply_mask. split; [by rewrite length_imap|].
  intros i row. rewrite list_lookup_imap.
  destruct (scores !! i) as [row0|] eqn:Hrow0; simpl; [|done].
  intros [= <-]. rewrite length_imap. eauto.
Qed.

(** The scaled scores of one query row against all the keys. *)
Lemma scores_total self Q K n D :
  has_shape n D Q → has_shape (length K) D K →
  ∃ scores,
    mapM (λ Qi, mapM (λ Kj, d ← dotProduct Qi Kj;
                            Some (fdiv_sqrt d (headDim self))) K) Q = Some scores ∧
    has_shape n (length K) scores.
Proof.
  intros [<- HQ] [_ HK]. apply mapM_shape. intros Qi HQi.
  apply list_elem_of_lookup_1 in HQi as [i HQi].
  destruct (mapM_total (λ Kj, d ← dotProduct Qi Kj;
                              Some (fdiv_sqrt d (headDim self))) K) as [row Hrow].
  - intros Kj HKj. apply list_elem_of_lookup_1 in HKj as [j HKj].
    destruct (dotProduct_total Qi Kj) as [d ->];
      [by rewrite (HQ _ _ HQi), (HK _ _ HKj)|]. simpl. eauto.
  - exists row. split; [done|]. symmetry. by eapply length_mapM.
Qed.

Lemma attentionWeights_total self Q K mask n D :
  0 < n → has_shape n D Q → has_shape n D K →
  ∃ weights, attentionWeights self Q K mask = Some weights ∧
             has_shape n n weights.
Proof.
  intros Hn HQ HK. unfold attentionWeights.
  assert (length K = n) as HlenK by apply HK.
  destruct (scores_total self Q K n D) as (scores & -> & Hsc);
    [done|by rewrite HlenK|]. simpl. rewrite HlenK in Hsc.
  set (masked := if mask then apply_mask scores else scores).
  assert (has_shape n n masked) as [Hlen Hrows].
  { unfold masked. destruct mask; [by apply apply_mask_shape|done]. }
  destruct (lookup_lt_is_Some_2 masked 0) as [row0 ->]; [lia|]. simpl.
  destruct (mapM_shape softmax masked n) as (w & Hw & Hshape).
  - intros row Hrow. apply list_elem_of_lookup_1 in Hrow as [i Hrow].
    apply Hrows in Hrow. destruct (softmax_total row) as (r & -> & Hr).
    + intros ->. simpl in Hrow. lia.
    + exists r. split; [done|]. lia.
  - exists w. split; [done|]. by rewrite Hlen in Hshape.
Qed.

Lemma scaledDotProductAttention_total self Q K V mask n D :
  0 < n → has_shape n D Q → has_shape n D K → has_shape n D V →
  ∃ out, scaledDotProductAttention self Q K V mask = Some out ∧
         has_shape n D out.
Proof.
  intros Hn HQ HK [HlenV HV]. unfold scaledDotProductAttention.
  destruct (attentionWeights_total self Q K mask n D)
    as (weights & -> & [Hlenw Hw]); [done..|]. simpl.
  destruct (lookup_lt_is_Some_2 V 0) as [V0 HV0]; [lia|].
  rewrite HV0. simpl. rewrite (HV _ _ HV0).
  destruct (lookup_lt_is_Some_2 weights 0) as [w0 Hw0]; [lia|].
  rewrite Hw0. simpl. rewrite (Hw _ _ Hw0).
  match goal with |- ∃ _, mapM ?f _ = _ ∧ _ =>
    destruct (mapM_shape f weights D) as (out & Hout & Hshape) end.
  - intros wi Hwi. apply list_elem_of_lookup_1 in Hwi as [i Hwi].
    apply Hw in Hwi.
    match goal with |- ∃ _, tabulate _ ?g = _ ∧ _ =>
      destruct (tabulate_total D g) as [row Hrow] end.
    + intros k Hk.
      match goal with |- is_Some (for_range _ _ ?body _) =>
        destruct (for_range_inv (λ _ _, True) 0 n body fzero)
          as (x & -> & _); [done| |done] end.
      intros j t Hj _.
      destruct (lookup_lt_is_Some_2 wi j) as [w ->]; [lia|].
      destruct (lookup_lt_is_Some_2 V j) as [Vj HVj]; [lia|].
      rewrite HVj. simpl.
      destruct (lookup_lt_is_Some_2 Vj k) as [v ->];
        [by rewrite (HV _ _ HVj)|]. simpl. eauto.
    + exists row. split; [done|]. by apply tabulate_length in Hrow.
  - exists out. split; [done|]. by rewrite Hlenw in Hshape.
Qed.

End AttentionFacts.

Section ForwardFacts.
Context {F : Type} `{Scalar F} `{ScalarExp F}.
Import MultiHeadSelfAttention.
Implicit Types (self : MultiHeadSelfAttention.t F) (Q K V X cat : Matrix F).

Lemma write2_Some cat i j x cat' :
  write2 cat i j x = Some cat' ↔
  ∃ row, cat !! i = Some row ∧ j < length row ∧ cat' = <[i := <[j := x]> row]> cat.
Proof.
  unfold write2. destruct (cat !! i) as [row|]; simpl.
  - destruct (Nat.ltb_spec j (length row)); split.
    + intros [= <-]. eauto.
    + intros (row' & [= <-] & _ & ->). done.
    + done.
    + intros (row' & [= <-] & ? & _). lia.
  - split; [done|]. by intros (? & ? & _).
Qed.

Lemma write2_shape r c cat i j x cat' :
  has_shape r c cat → write2 cat i j x = Some cat' → has_shape r c cat'.
Proof.
  intros [Hr Hrows] (row & Hrow & Hj & ->)%write2_Some.
  split; [by rewrite length_insert|]. intros k row' Hk.
  destruct (decide (k = i)) as [->|Hne].
  - rewrite list_lookup_insert_eq in Hk by (by eapply lookup_lt_Some).
    injection Hk as <-. rewrite length_insert. eauto.
  - rewrite list_lookup_insert_ne in Hk by done. eauto.
Qed.

(** A write to row [k] leaves every other row alone and changes row [k] at
    the written column only. *)
Lemma write2_row cat k j x cat' i :
  write2 cat k j x = Some cat' →
  cat' !! i = if decide (k = i) then <[j := x]> <$> cat !! i else cat !! i.
Proof.
  intros (row & Hrow & Hj & ->)%write2_Some. case_decide as Hk.
  - subst k. rewrite Hrow. simpl.
    apply list_lookup_insert_eq. by eapply lookup_lt_Some.
  - by apply list_lookup_insert_ne.
Qed.

Lemma split_head_total (all : Matrix F) h D n c :
  has_shape n c all → h * D + D ≤ c →
  ∃ hd, split_head all h D = Some hd ∧ has_shape n D hd.
Proof.
  intros [<- Hrows] Hfit. apply mapM_shape. intros row Hrow.
  apply list_elem_of_lookup_1 in Hrow as [i Hrow]. apply Hrows in Hrow.
  destruct (tabulate_total D (λ d, row !! (h * D + d))) as [r Hr].
  - intros d Hd. apply lookup_lt_is_Some_2. lia.
  - exists r. split; [done|]. by apply tabulate_length in Hr.
Qed.

(** Row [i] of a head's slice is read from row [i] alone. *)
Lemma split_head_row (all : Matrix F) h D hd i :
  split_head all h D = Some hd →
  hd !! i = all !! i ≫= (λ row, tabulate D (λ d, row !! (h * D + d))).
Proof. intros Hhd. apply (mapM_lookup _ _ _ i Hhd). Qed.

Lemma concat_head_total (headOutput : Matrix F) h D n E cat :
  has_shape n D headOutput → has_shape n E cat → h * D + D ≤ E →
  ∃ cat', concat_head headOutput h D n cat = Some cat' ∧ has_shape n E cat'.
Proof.
  intros [Hlen Hrows] Hcat Hfit. unfold concat_head.
  match goal with |- ∃ _, for_range _ _ ?body _ = _ ∧ _ =>
    destruct (for_range_inv (λ _ c, has_shape n E c) 0 n body cat)
      as (r & Hr & HP); [done| |by exists r] end.
  intros i c Hi Hc.
  match goal with |- ∃ _, for_range _ _ ?body _ = _ ∧ _ =>
    destruct (for_range_inv (λ _ c, has_shape n E c) 0 D body c)
      as (r & Hr & HP); [done| |by exists r] end.
  intros d c' Hd Hc'.
  destruct (lookup_lt_is_Some_2 headOutput i) as [row Hrow]; [lia|].
  rewrite Hrow. simpl.
  destruct (lookup_lt_is_Some_2 row d) as [x ->];
    [rewrite (Hrows _ _ Hrow); lia|]. simpl.
  destruct (lookup_lt_is_Some_2 c' i) as [crow Hcrow];
    [destruct Hc' as [-> _]; lia|].
  assert (write2 c' i (h * D + d) x
          = Some (<[i := <[h * D + d := x]> crow]> c')) as Hw.
  { apply write2_Some. exists crow. split; [done|]. split; [|done].
    rewrite (has_shape_lookup _ _ _ _ _ Hc' Hcrow). lia. }
  eexists. split; [exact Hw|]. by eapply write2_shape.
Qed.

(** Of the rows of [headOutput] only row [i] is written into row [i]. *)
Lemma concat_head_row (headOutput headOutput' : Matrix F) h D n cat cat' r r' i :
  headOutput !! i = headOutput' !! i → cat !! i = cat' !! i →
  concat_head headOutput h D n cat = Some r →
  concat_head headOutput' h D n cat' = Some r' →
  r !! i = r' !! i.
Proof.
  intros Hho Hcat. unfold concat_head. intros Hr Hr'.
  refine (for_range_rel (λ _ a b, a !! i = b !! i) 0 n _ _ cat cat' r r'
            Hcat _ Hr Hr').
  intros k a b a' b' _ Hab Ha' Hb'.
  refine (for_range_rel (λ _ a b, a !! i = b !! i) 0 D _ _ a b a' b'
            Hab _ Ha' Hb').
  clear a b a' b' Hab Ha' Hb'. intros d a b a' b' _ Hab.
  destruct (headOutput !! k) as [row|] eqn:Hrow; simpl; [|done].
  destruct (headOutput' !! k) as [row'|] eqn:Hrow'; simpl; [|done].
  destruct (row !! d) as [x|] eqn:Hx; simpl; [|done].
  destruct (row' !! d) as [x'|] eqn:Hx'; simpl; [|done].
  intros Ha' Hb'.
  rewrite (write2_row _ _ _ _ _ i Ha'), (write2_row _ _ _ _ _ i Hb').
  case_decide as Hk; [|done]. subst k.
  rewrite Hrow, Hrow' in Hho. injection Hho as <-.
  rewrite Hx in Hx'. injection Hx' as <-. by rewrite Hab.
Qed.

Lemma head_step_total self Q_all K_all V_all mask n E h cat :
  0 < n → (0 ≤ headDim self)%Z →
  h * Z.to_nat (headDim self) + Z.to_nat (headDim self) ≤ E →
  has_shape n E Q_all → has_shape n E K_all → has_shape n E V_all →
  has_shape n E cat →
  ∃ cat', head_step self Q_all K_all V_all mask n h cat = Some cat' ∧
          has_shape n E cat'.
Proof.
  intros Hn HD Hfit HQ HK HV Hcat. unfold head_step, alloc_size.
  destruct (Z.ltb_spec (headDim self) 0) as [?|_]; [lia|]. simpl.
  destruct (split_head_total Q_all h _ n E HQ Hfit) as (Qh & -> & HQh).
  destruct (split_head_total K_all h _ n E HK Hfit) as (Kh & -> & HKh).
  destruct (split_head_total V_all h _ n E HV Hfit) as (Vh & -> & HVh).
  simpl.
  destruct (scaledDotProductAttention_total self Qh Kh Vh mask n _ Hn HQh HKh HVh)
    as (ho & -> & Hho). simpl.
  by apply (concat_head_total ho h _ n E cat).
Qed.

Lemma project_total (W : Matrix F) X n E :
  0 < E → has_shape n E X → has_shape E E W →
  ∃ P, mapM (λ x, matMul x W) X = Some P ∧ has_shape n E P.
Proof.
  intros HE [<- HX] HW. apply mapM_shape. intros x Hx.
  apply list_elem_of_lookup_1 in Hx as [i Hx]. apply HX in Hx.
  apply (matMul_total x W E E); [done|done|lia].
Qed.

(** [forward] returns on every non-empty sequence of [E]-vectors, with a
    result of the shape of its input. *)
Lemma forward_total self X mask n E :
  attention_ok self E → 0 < n → has_shape n E X →
  ∃ out, forward self X mask = Some out ∧ has_shape n E out.
Proof.
  intros (HE & HeqE & HD & Hfit & HWQ & HWK & HWV & HWO) Hn HX.
  unfold forward, alloc_size. rewrite HeqE.
  destruct (Z.ltb_spec (Z.of_nat E) 0) as [?|_]; [lia|]. simpl.
  destruct (project_total _ X n E HE HX HWQ) as (Q_all & -> & HQ).
  destruct (project_total _ X n E HE HX HWK) as (K_all & -> & HK).
  destruct (project_total _ X n E HE HX HWV) as (V_all & -> & HV). simpl.
  assert (length X = n) as -> by apply HX. rewrite Nat2Z.id.
  destruct (for_range_inv (λ _ c, has_shape n E c) 0
    (Z.to_nat (numHeads self)) (head_step self Q_all K_all V_all mask n)
    (replicate n (replicate E fzero))) as (cat & -> & Hcat).
  - apply has_shape_replicate.
  - intros h c Hh Hc. apply head_step_total; try done. nia.
  - simpl. by apply project_total.
Qed.

(** On an empty sequence the first head reads [scores[0]] of an empty
    score matrix: [forward] is only defined on sequences with at least one
    position. *)
Lemma forward_empty_input self mask :
  (0 < numHeads self)%Z → forward self [] mask = None.
Proof.
  intros Hheads. unfold forward.
  destruct (alloc_size (embeddingDim self)) as [E|]; [|done]. simpl.
  destruct (Z.to_nat (numHeads self)) as [|k] eqn:Hk; [lia|].
  cbn [for_range]. unfold head_step.
  destruct (alloc_size (headDim self)) as [D|]; [|done].
  cbn [mbind option_bind split_head mapM].
  unfold scaledDotProductAttention, attentionWeights.
  cbn [mbind option_bind mapM]. by destruct mask.
Qed.

Lemma attentionWeights_row_length self Q K mask weights k row :
  attentionWeights self Q K mask = Some weights →
  weights !! k = Some row → length row = length K.
Proof.
  unfold attentionWeights. intros Hw Hrow.
  destruct (mapM _ Q) as [scores|] eqn:Hsc; simpl in Hw; [|done].
  set (masked := if mask then apply_mask scores else scores) in Hw.
  destruct (masked !! 0); simpl in Hw; [|done].
  rewrite (mapM_lookup _ _ _ k Hw) in Hrow.
  destruct (masked !! k) as [mrow|] eqn:Hm; simpl in Hrow; [|done].
  apply softmax_Some in Hrow. rewrite Hrow.
  assert (∃ srow, scores !! k = Some srow ∧ length mrow = length srow)
    as (srow & Hsrow & ->).
  { unfold masked in Hm. destruct mask; [|eauto].
    unfold apply_mask in Hm. rewrite list_lookup_imap in Hm.
    destruct (scores !! k) as [srow|]; simpl in Hm; [|done].
    injection Hm as <-. exists srow. by rewrite length_imap. }
  rewrite (mapM_lookup _ _ _ k Hsc) in Hsrow.
  destruct (Q !! k) as [Qk|]; simpl in Hsrow; [|done].
  symmetry. by eapply length_mapM.
Qed.

(** The masked scores of query [i]: the entries [j > i] are the constant
    [-1e9] whatever the keys [j > i] are. *)
Lemma masked_row_keys (g : list F → option F) K K' row row' i :
  same_upto i K K' →
  mapM g K = Some row → mapM g K' = Some row' →
  imap (λ j s, if i <? j then fmask else s) row
  = imap (λ j s, if i <? j then fmask else s) row'.
Proof.
  intros [HlenK HK] Hrow Hrow'.
  pose proof (length_mapM _ _ _ Hrow) as Hlen.
  pose proof (length_mapM _ _ _ Hrow') as Hlen'.
  apply list_eq. intros j. rewrite !list_lookup_imap.
  destruct (decide (j ≤ i)) as [Hj|Hj].
  - by rewrite (mapM_lookup _ _ _ j Hrow), (mapM_lookup _ _ _ j Hrow'), HK.
  - destruct (row !! j) as [s|] eqn:Hs; destruct (row' !! j) as [s'|] eqn:Hs';
      simpl.
    + by destruct (Nat.ltb_spec i j); [|lia].
    + apply lookup_lt_Some in Hs. apply lookup_ge_None in Hs'. lia.
    + apply lookup_lt_Some in Hs'. apply lookup_ge_None in Hs. lia.
    + done.
Qed.

(** With the mask on, row [i] of the attention weights is computed from
    query [i] and the keys [0..i]: the scores against later keys are
    overwritten before they are used. *)
Lemma attentionWeights_row self Q Q' K K' weights weights' i :
  Q !! i = Q' !! i → same_upto i K K' →
  attentionWeights self Q K true = Some weights →
  attentionWeights self Q' K' true = Some weights' →
  weights !! i = weights' !! i.
Proof.
  intros HQ HK. unfold attentionWeights. intros Hw Hw'.
  destruct (mapM _ Q) as [scores|] eqn:Hsc; simpl in Hw; [|done].
  destruct (mapM _ Q') as [scores'|] eqn:Hsc'; simpl in Hw'; [|done].
  destruct (apply_mask scores !! 0); simpl in Hw; [|done].
  destruct (apply_mask scores' !! 0); simpl in Hw'; [|done].
  rewrite (mapM_lookup _ _ _ i Hw), (mapM_lookup _ _ _ i Hw').
  f_equal. unfold apply_mask. rewrite !list_lookup_imap.
  destruct (scores !! i) as [srow|] eqn:Hsrow;
    destruct (scores' !! i) as [srow'|] eqn:Hsrow'; simpl.
  - rewrite (mapM_lookup _ _ _ i Hsc) in Hsrow.
    rewrite (mapM_lookup _ _ _ i Hsc'), <- HQ in Hsrow'.
    destruct (Q !! i) as [Qi|]; simpl in *; [|done].
    f_equal. by eapply masked_row_keys.
  - apply lookup_lt_Some in Hsrow. apply lookup_ge_None in Hsrow'.
    rewrite <- (length_mapM _ _ _ Hsc) in Hsrow.
    rewrite <- (length_mapM _ _ _ Hsc') in Hsrow'.
    apply lookup_lt_is_Some in Hsrow. apply lookup_ge_None in Hsrow'.
    rewrite HQ, Hsrow' in Hsrow. by destruct Hsrow.
  - apply lookup_lt_Some in Hsrow'. apply lookup_ge_None in Hsrow.
    rewrite <- (length_mapM _ _ _ Hsc) in Hsrow.
    rewrite <- (length_mapM _ _ _ Hsc') in Hsrow'.
    apply lookup_lt_is_Some in Hsrow'. apply lookup_ge_None in Hsrow.
    rewrite <- HQ, Hsrow in Hsrow'. by destruct Hsrow'.
  - done.
Qed.

(** Row [i] of a head's output under the mask: a function of query [i], of
    the keys [0..i] and of the values. *)
Lemma scaledDotProductAttention_row self Q Q' K K' V out out' i :
  Q !! i = Q' !! i → same_upto i K K' →
  scaledDotProductAttention self Q K V true = Some out →
  scaledDotProductAttention self Q' K' V true = Some out' →
  out !! i = out' !! i.
Proof.
  intros HQ HK. unfold scaledDotProductAttention. intros Ho Ho'.
  destruct (attentionWeights self Q K true) as [w|] eqn:Hw;
    simpl in Ho; [|done].
  destruct (attentionWeights self Q' K' true) as [w'|] eqn:Hw';
    simpl in Ho'; [|done].
  destruct (V !! 0) as [V0|]; simpl in Ho, Ho'; [|done].
  destruct (w !! 0) as [w0|] eqn:Hw0; simpl in Ho; [|done].
  destruct (w' !! 0) as [w0'|] eqn:Hw0'; simpl in Ho'; [|done].
  rewrite (mapM_lookup _ _ _ i Ho), (mapM_lookup _ _ _ i Ho').
  rewrite (attentionWeights_row_length _ _ _ _ _ _ _ Hw Hw0).
  rewrite (attentionWeights_row_length _ _ _ _ _ _ _ Hw' Hw0').
  rewrite (attentionWeights_row _ _ _ _ _ _ _ i HQ HK Hw Hw').
  by destruct HK as [-> _].
Qed.

Lemma split_head_same_upto (all all' : Matrix F) h D hd hd' i :
  same_upto i all all' →
  split_head all h D = Some hd → split_head all' h D = Some hd' →
  same_upto i hd hd'.
Proof.
  intros [Hlen Hrows] Hhd Hhd'. split.
  - unfold split_head in *.
    by rewrite <- (length_mapM _ _ _ Hhd), <- (length_mapM _ _ _ Hhd').
  - intros k Hk.
    by rewrite (split_head_row _ _ _ _ k Hhd), (split_head_row _ _ _ _ k Hhd'),
         Hrows.
Qed.

Lemma head_step_row self Q_all Q_all' K_all K_all' V_all n h cat cat' r r' i :
  Q_all !! i = Q_all' !! i → same_upto i K_all K_all' → cat !! i = cat' !! i →
  head_step self Q_all K_all V_all true n h cat = Some r →
  head_step self Q_all' K_all' V_all true n h cat' = Some r' →
  r !! i = r' !! i.
Proof.
  intros HQ HK Hcat. unfold head_step. intros Hr Hr'.
  destruct (alloc_size (headDim self)) as [D|]; simpl in *; [|done].
  destruct (split_head Q_all h D) as [Qh|] eqn:HQh; simpl in Hr; [|done].
  destruct (split_head Q_all' h D) as [Qh'|] eqn:HQh'; simpl in Hr'; [|done].
  destruct (split_head K_all h D) as [Kh|] eqn:HKh; simpl in Hr; [|done].
  destruct (split_head K_all' h D) as [Kh'|] eqn:HKh'; simpl in Hr'; [|done].
  destruct (split_head V_all h D) as [Vh|] eqn:HVh; simpl in Hr, Hr'; [|done].
  destruct (scaledDotProductAttention self Qh Kh Vh true) as [ho|] eqn:Hho;
    simpl in Hr; [|done].
  destruct (scaledDotProductAttention self Qh' Kh' Vh true) as [ho'|] eqn:Hho';
    simpl in Hr'; [|done].
  eapply concat_head_row; [|exact Hcat|exact Hr|exact Hr'].
  eapply scaledDotProductAttention_row; [| |exact Hho|exact Hho'].
  - by rewrite (split_head_row _ _ _ _ i HQh), (split_head_row _ _ _ _ i HQh'), HQ.
  - by eapply split_head_same_upto.
Qed.

Lemma project_same_upto (W : Matrix F) X X' P P' i :
  same_upto i X X' →
  mapM (λ x, matMul x W) X = Some P → mapM (λ x, matMul x W) X' = Some P' →
  same_upto i P P'.
Proof.
  intros [Hlen Hrows] HP HP'. split.
  - by rewrite <- (length_mapM _ _ _ HP), <- (length_mapM _ _ _ HP').
  - intros k Hk.
    by rewrite (mapM_lookup _ _ _ k HP), (mapM_lookup _ _ _ k HP'), Hrows.
Qed.

(** Row [i] of the masked [forward]: two inputs with the same rows [0..i]
    and the same value projections give the same row [i]. *)
Lemma forward_row self X X' out out' i :
  same_upto i X X' →
  Forall2 (λ x x', matMul x (W_V self) = matMul x' (W_V self)) X X' →
  forward self X true = Some out → forward self X' true = Some out' →
  out !! i = out' !! i.
Proof.
  intros HX HV. unfold forward. intros Ho Ho'.
  destruct (alloc_size (embeddingDim self)) as [E|]; simpl in *; [|done].
  rewrite <- (Forall2_mapM_ext _ _ _ _ HV) in Ho'.
  destruct (mapM (λ x, matMul x (W_Q self)) X) as [Q_all|] eqn:HQ;
    simpl in Ho; [|done].
  destruct (mapM (λ x, matMul x (W_Q self)) X') as [Q_all'|] eqn:HQ';
    simpl in Ho'; [|done].
  destruct (mapM (λ x, matMul x (W_K self)) X) as [K_all|] eqn:HK;
    simpl in Ho; [|done].
  destruct (mapM (λ x, matMul x (W_K self)) X') as [K_all'|] eqn:HK';
    simpl in Ho'; [|done].
  destruct (mapM (λ x, matMul x (W_V self)) X) as [V_all|] eqn:HVall;
    simpl in Ho, Ho'; [|done].
  destruct (for_range _ _ _ _) as [cat|] eqn:Hcat in Ho; simpl in Ho; [|done].
  destruct (for_range _ _ _ _) as [cat'|] eqn:Hcat' in Ho'; simpl in Ho'; [|done].
  rewrite (mapM_lookup _ _ _ i Ho), (mapM_lookup _ _ _ i Ho'). f_equal.
  pose proof (project_same_upto _ _ _ _ _ i HX HQ HQ') as [_ HQi].
  pose proof (project_same_upto _ _ _ _ _ i HX HK HK') as HKi.
  destruct HX as [HlenX _]. rewrite <- HlenX in Hcat'.
  refine (for_range_rel (λ _ a b, a !! i = b !! i) 0 _ _ _ _ _ cat cat'
            eq_refl _ Hcat Hcat').
  intros h a b a' b' _ Hab. apply head_step_row; auto.
Qed.

End ForwardFacts.

(** * Causal masking *)

Section Causality.
Context {F : Type} `{Scalar F} `{ScalarExp F}.
Import MultiHeadSelfAttention.



End Causality.

Section CausalityExamples.
Import MultiHeadSelfAttention Exact Examples.
Open Scope R_scope.

Lemma two_heads_ok : attention_ok two_heads 2.
Proof.
  unfold attention_ok, has_shape. simpl.
  repeat split; try lia;
    intros [|[|?]] row [= <-]; reflexivity.
Qed.

Lemma shape_2_2 (a b c d : R) : has_shape 2 2 [[a; b]; [c; d]].
Proof. split; [done|]. intros [|[|?]] row [= <-]; reflexivity. Qed.

(** The value projection of [two_heads] does not see the difference between
    [seq_c] and [seq_d]. *)
Lemma seq_c_seq_d_same_values :
  Forall2 (λ x x', matMul x (W_V two_heads) = matMul x' (W_V two_heads))
    seq_c seq_d.
Proof.
  repeat constructor. cbn. apply (f_equal Some).
  apply (f_equal2 cons); [lra|]. apply (f_equal2 cons); [lra|done].
Qed.

(** The dependence on a later row is not an effect of rounding.  In
    [narrow] the query is [x] and the key [-x], so the only unmasked score
    of position 0 in [seq_a] and [seq_b] is [-1e10], below the mask value
    [-1e9]: position 0 attends to position 1.  The two sequences differ at
    position 1 only, and in exact arithmetic the outputs at position 0
    differ by more than [1/2]. *)
Lemma masked_forward_depends_on_later_row_exact :
  seq_a !! 0%nat = seq_b !! 0%nat ∧
  ∃ y y' rest rest',
    forward narrow seq_a true = Some ([y] :: rest) ∧
    forward narrow seq_b true = Some ([y'] :: rest') ∧
    y' - y > 1 / 2.
Proof.
  split; [done|].
  unfold forward, alloc_size, seq_a, seq_b, narrow. cbn.
  change (Z.to_nat 1) with 1%nat. cbn.
  unfold head_step, alloc_size. cbn. change (Z.to_nat 1) with 1%nat. cbn.
  unfold scaledDotProductAttention, attentionWeights. cbn.
  rewrite sqrt_1.
  destruct (Rlt_dec _ _) as [_|Hn]; [|exfalso; apply Hn; lra].
  do 4 eexists. split; [reflexivity|]. split; [reflexivity|].
  replace (-1000000000 - -1000000000) with 0 by lra. rewrite exp_0.
  match goal with |- context [exp ?x] => set (e := exp x) end.
  assert (0 < e) as Hpos by apply exp_pos.
  assert (e < 1) as Hlt.
  { rewrite <- exp_0. apply exp_increasing. lra. }
  assert (0 < 0 + e + 1) as HS by lra.
  assert (1 / (0 + e + 1) > 1 / 2) as Hw.
  { apply Rlt_gt. unfold Rdiv. rewrite !Rmult_1_l.
    apply Rinv_lt_contravar; lra. }
  set (w := 1 / (0 + e + 1)) in *.
  set (u := e / (0 + e + 1)). lra.
Qed.

End CausalityExamples.

(** * Layers *)

Section LayerFacts.
Context {F : Type} `{Scalar F} `{ScalarExp F}.

Lemma attention_valid_ok (a : MultiHeadSelfAttention.t F) E :
  attention_valid a E → attention_ok a E.
Proof.
  intros ([Hpos Hdiv] & HE & Heq & HWQ & HWK & HWV & HWO).
  repeat split; try done; try apply HWQ; try apply HWK; try apply HWV;
    try apply HWO.
  - nia.
  - rewrite <- Z2Nat.inj_mul by nia. rewrite Hdiv, Heq. lia.
Qed.

Lemma relu_length (v : Vector F) : length (FeedForwardNetwork.relu v) = length v.
Proof. unfold FeedForwardNetwork.relu. by rewrite length_fmap. Qed.

Lemma ffn_forward_total (f : FeedForwardNetwork.t F) E (x : Vector F) :
  ffn_ok f E → 0 < E → length x = E →
  ∃ out, FeedForwardNetwork.forward f x = Some out ∧ length out = E.
Proof.
  intros (hidden & Hh & HW1 & HW2 & HB1 & HB2) HE Hx.
  unfold FeedForwardNetwork.forward.
  destruct (matMul_total x _ E hidden HW1) as (xW1 & -> & Hlen1); [lia..|].
  simpl. destruct (add_total xW1 (FeedForwardNetwork.B1 f))
    as (hid & -> & Hlenh); [lia|]. simpl.
  destruct (matMul_total (FeedForwardNetwork.relu hid) _ hidden E HW2)
    as (hW2 & -> & Hlen2); [lia|rewrite relu_length; lia|]. simpl.
  destruct (add_total hW2 (FeedForwardNetwork.B2 f))
    as (out & -> & Hleno); [lia|]. exists out. split; [done|]. lia.
Qed.

Lemma residual_norm_total (x y gamma beta : Vector F) E :
  length x = E → length y = E → length gamma = E → length beta = E →
  ∃ out, residual_norm x y gamma beta = Some out ∧ length out = E.
Proof.
  intros Hx Hy Hg Hb. unfold residual_norm.
  destruct (add_total x y) as (s & -> & Hs); [lia|]. simpl.
  destruct (layerNorm_total s gamma beta fepsilon) as (out & -> & Ho);
    [lia..|]. exists out. split; [done|]. lia.
Qed.

Lemma add_norm_total n E (x y : Matrix F) (gamma beta : Vector F) :
  has_shape n E x → has_shape n E y → length gamma = E → length beta = E →
  ∃ out, add_norm n x y gamma beta = Some out ∧ has_shape n E out ∧
         ∀ i xi yi, x !! i = Some xi → y !! i = Some yi →
                    out !! i = residual_norm xi yi gamma beta.
Proof.
  intros [Hnx Hx] [Hny Hy] Hg Hb. unfold add_norm.
  match goal with |- ∃ _, tabulate _ ?f = _ ∧ _ =>
    destruct (tabulate_total n f) as [out Hout] end.
  - intros i Hi.
    destruct (lookup_lt_is_Some_2 x i) as [xi Hxi]; [lia|].
    destruct (lookup_lt_is_Some_2 y i) as [yi Hyi]; [lia|].
    rewrite Hxi, Hyi. simpl.
    destruct (residual_norm_total xi yi gamma beta E) as (o & Ho & _);
      [eauto..|].
    unfold residual_norm in Ho. rewrite Ho. eauto.
  - exists out. split; [done|]. split.
    + split; [by apply tabulate_length in Hout|]. intros i row Hrow.
      pose proof (lookup_lt_Some _ _ _ Hrow) as Hi.
      rewrite (tabulate_length _ _ _ Hout) in Hi.
      rewrite (tabulate_lookup _ _ _ i Hout Hi) in Hrow.
      destruct (x !! i) as [xi|] eqn:Hxi; simpl in Hrow; [|done].
      destruct (y !! i) as [yi|] eqn:Hyi; simpl in Hrow; [|done].
      destruct (residual_norm_total xi yi gamma beta E) as (o & Ho & Hlen);
        [eauto..|].
      unfold residual_norm in Ho. rewrite Ho in Hrow. by injection Hrow as <-.
    + intros i xi yi Hxi Hyi. pose proof (lookup_lt_Some _ _ _ Hxi) as Hi.
      rewrite Hnx in Hi.
      by rewrite (tabulate_lookup _ _ _ i Hout Hi), Hxi, Hyi.
Qed.

(** C9. For a valid encoder layer ([numHeads] divides the embedding
    dimension [E]) and an input sequence of [n > 0] vectors of length [E],
    [EncoderLayer::forward] returns a matrix of the same shape [n x E]; its
    row [i] is [LayerNorm(normed1 + ffn(normed1))] with
    [normed1 = LayerNorm(input[i] + attn[i])], where [attn] is the output of
    the self-attention called on the whole input without mask. *)
Theorem encoder_layer_forward_shape (l : EncoderLayer.t F) (E n : nat)
    (input : Matrix F) :
  encoder_layer_ok l E →
  0 < n → has_shape n E input →
  ∃ attn output,
    MultiHeadSelfAttention.forward (EncoderLayer.selfAttention l) input false
      = Some attn ∧
    EncoderLayer.forward l input = Some output ∧
    has_shape n E output ∧
    ∀ i, i < n →
      ∃ x a o, input !! i = Some x ∧ attn !! i = Some a ∧
               output !! i = Some o ∧ encoder_position l x a = Some o.
Proof.
  intros (HE & Hatt & Hffn & Hg1 & Hb1 & Hg2 & Hb2) Hn Hin.
  pose proof (attention_valid_ok _ _ Hatt) as Hok.
  assert (0 < E) as HEpos by apply Hok.
  destruct (forward_total _ input false n E Hok Hn Hin) as (attn & Hattn & Hsh).
  unfold EncoderLayer.forward, alloc_size. rewrite Hattn, HE. simpl.
  destruct (Z.ltb_spec (Z.of_nat E) 0) as [?|_]; [lia|]. simpl.
  assert (length input = n) as -> by apply Hin.
  destruct (add_norm_total n E input attn _ _ Hin Hsh Hg1 Hb1)
    as (output1 & -> & Hsh1 & Hrow1). simpl.
  match goal with |- context [tabulate n ?f] =>
    destruct (tabulate_total n f) as [ffnOutput Hffn_out] end.
  { intros i Hi. destruct (lookup_lt_is_Some_2 output1 i) as [o Ho];
      [destruct Hsh1 as [-> _]; lia|]. rewrite Ho. simpl.
    destruct (ffn_forward_total _ E o Hffn HEpos) as (r & -> & _); [|done].
    by eapply has_shape_lookup. }
  rewrite Hffn_out. simpl.
  assert (has_shape n E ffnOutput) as Hshf.
  { split; [by apply tabulate_length in Hffn_out|]. intros i row Hrow.
    pose proof (lookup_lt_Some _ _ _ Hrow) as Hi.
    rewrite (tabulate_length _ _ _ Hffn_out) in Hi.
    rewrite (tabulate_lookup _ _ _ i Hffn_out Hi) in Hrow.
    destruct (output1 !! i) as [o|] eqn:Ho; simpl in Hrow; [|done].
    destruct (ffn_forward_total _ E o Hffn HEpos) as (r & Hr & Hlen);
      [by eapply has_shape_lookup|]. congruence. }
  destruct (add_norm_total n E output1 ffnOutput _ _ Hsh1 Hshf Hg2 Hb2)
    as (output2 & -> & Hsh2 & Hrow2).
  exists attn, output2. repeat split; try apply Hsh2; try done.
  intros i Hi.
  destruct (lookup_lt_is_Some_2 input i) as [x Hx];
    [destruct Hin as [-> _]; lia|].
  destruct (lookup_lt_is_Some_2 attn i) as [a Ha];
    [destruct Hsh as [-> _]; lia|].
  destruct (lookup_lt_is_Some_2 output1 i) as [o1 Ho1];
    [destruct Hsh1 as [-> _]; lia|].
  destruct (lookup_lt_is_Some_2 ffnOutput i) as [f Hf];
    [destruct Hshf as [-> _]; lia|].
  destruct (lookup_lt_is_Some_2 output2 i) as [o Ho];
    [destruct Hsh2 as [-> _]; lia|].
  exists x, a, o. repeat split; try done.
  unfold encoder_position.
  rewrite <- (Hrow1 i x a Hx Ha), Ho1. simpl.
  pose proof Hf as Hf'.
  rewrite (tabulate_lookup _ _ _ i Hffn_out Hi), Ho1 in Hf'. simpl in Hf'.
  rewrite Hf'. simpl. by rewrite <- (Hrow2 i o1 f Ho1 Hf).
Qed.

(** C1. [DecoderLayer::forward] does not read [encoderOutput]: whatever
    is passed for it, the result is the same.  The encoder-decoder
    attention takes query, key and value from [output1]. *)
Theorem decoder_layer_forward_ignores_encoder_output
    (self : DecoderLayer.t F) (targetInput enc1 enc2 : Matrix F) :
  DecoderLayer.forward self targetInput enc1
  = DecoderLayer.forward self targetInput enc2.
Proof. reflexivity. Qed.

(** The same for the whole stack. *)
Lemma decoder_forward_ignores_encoder_output
    (self : Decoder.t F) (targetInput enc1 enc2 : Matrix F) :
  Decoder.forward self targetInput enc1 = Decoder.forward self targetInput enc2.
Proof. reflexivity. Qed.

End LayerFacts.

Section LayerExamples.
Import MultiHeadSelfAttention Exact Examples.
Open Scope R_scope.

Lemma tiny_layer_ok : encoder_layer_ok tiny_layer 2.
Proof.
  unfold encoder_layer_ok, attention_valid, heads_divide, ffn_ok. simpl.
  repeat split; try lia; try (intros [|[|?]] row [= <-]; reflexivity).
  exists 1%nat. repeat split; try lia;
    intros [|[|?]] row [= <-]; reflexivity.
Qed.

(** The layer [tiny_layer] on the sequence [seq_c] of two vectors of
    length two. *)
Lemma encoder_layer_forward_shape_witness :
  ∃ attn output,
    forward two_heads seq_c false = Some attn ∧
    EncoderLayer.forward tiny_layer seq_c = Some output ∧
    has_shape 2 2 output ∧
    ∀ i, (i < 2)%nat →
      ∃ x a o, seq_c !! i = Some x ∧ attn !! i = Some a ∧
               output !! i = Some o ∧ encoder_position tiny_layer x a = Some o.
Proof.
  apply (encoder_layer_forward_shape tiny_layer 2 2 seq_c).
  - exact tiny_layer_ok.
  - lia.
  - apply shape_2_2.
Defined.

End LayerExamples.

(** * Construction of the attention module *)

Section Construction.
Context {F : Type} `{Scalar F} `{ScalarExp F}.
Import MultiHeadSelfAttention.

Lemma initializeMatrix_shape (rnd : nat → F) (rows cols : Z) calls :
  (0 ≤ rows)%Z → (0 ≤ cols)%Z →
  ∃ m, initializeMatrix rnd rows cols calls
       = Some (m, calls + Z.to_nat rows * Z.to_nat cols) ∧
       has_shape (Z.to_nat rows) (Z.to_nat cols) m.
Proof.
  intros Hr Hc. unfold initializeMatrix, alloc_size.
  destruct (Z.ltb_spec rows 0) as [?|_]; [lia|].
  destruct (Z.ltb_spec cols 0) as [?|_]; [lia|]. simpl.
  eexists. split; [reflexivity|]. split.
  - by rewrite length_fmap, length_seq.
  - intros i row. rewrite list_lookup_fmap.
    destruct (seq 0 (Z.to_nat rows) !! i); simpl; [|done].
    intros [= <-]. by rewrite length_fmap, length_seq.
Qed.

(** C3, as amended.  The constructor checks nothing: for all positive
    [embedDim] and [nHeads], divisible or not, it returns a module whose
    [headDim] is the truncated quotient [embedDim / nHeads], and [forward]
    accepts every non-empty sequence of [embedDim]-vectors and returns a
    matrix of the same shape. *)
Theorem constructor_accepts_positive_dimensions (rnd : nat → F) (embedDim nHeads : Z)
    (calls : nat) :
  (0 < embedDim)%Z → (0 < nHeads)%Z →
  ∃ a calls',
    new rnd embedDim nHeads calls = Some (a, calls') ∧
    embeddingDim a = embedDim ∧ numHeads a = nHeads ∧
    headDim a = (embedDim ÷ nHeads)%Z ∧
    ∀ (X : Matrix F) (n : nat) (mask : bool),
      0 < n → has_shape n (Z.to_nat embedDim) X →
      ∃ out, forward a X mask = Some out ∧
             has_shape n (Z.to_nat embedDim) out.
Proof.
  intros HE HH. unfold new.
  destruct (Z.eqb_spec nHeads 0) as [?|_]; [lia|]. simpl.
  destruct (initializeMatrix_shape rnd embedDim embedDim calls)
    as (wq & -> & Hwq); [lia..|]. simpl.
  destruct (initializeMatrix_shape rnd embedDim embedDim
              (calls + Z.to_nat embedDim * Z.to_nat embedDim))
    as (wk & -> & Hwk); [lia..|]. simpl.
  destruct (initializeMatrix_shape rnd embedDim embedDim
              (calls + Z.to_nat embedDim * Z.to_nat embedDim
                 + Z.to_nat embedDim * Z.to_nat embedDim))
    as (wv & -> & Hwv); [lia..|]. simpl.
  destruct (initializeMatrix_shape rnd embedDim embedDim
              (calls + Z.to_nat embedDim * Z.to_nat embedDim
                 + Z.to_nat embedDim * Z.to_nat embedDim
                 + Z.to_nat embedDim * Z.to_nat embedDim))
    as (wo & -> & Hwo); [lia..|]. simpl.
  eexists _, _. split; [reflexivity|]. simpl. repeat split.
  intros X n mask Hn HX. apply forward_total; [|done..].
  unfold attention_ok. simpl. repeat split;
    try apply Hwq; try apply Hwk; try apply Hwv; try apply Hwo; try lia.
  - apply Z.quot_pos; lia.
  - rewrite <- Z2Nat.inj_mul; [|lia|apply Z.quot_pos; lia].
    apply Z2Nat.inj_le; [|lia|].
    + apply Z.mul_nonneg_nonneg; [lia|apply Z.quot_pos; lia].
    + apply Z.mul_quot_le; lia.
Qed.

(** In the documented case, [numHeads] dividing [embedDim], the
    constructor of the encoder layer builds a valid layer. *)
Lemma encoder_layer_new_ok (rnd : nat → F) (embedDim nHeads hidden : Z)
    (calls : nat) :
  (0 < embedDim)%Z → (0 < nHeads)%Z → (0 < hidden)%Z →
  (nHeads | embedDim)%Z →
  ∃ l calls',
    EncoderLayer.new rnd embedDim nHeads hidden calls = Some (l, calls') ∧
    encoder_layer_ok l (Z.to_nat embedDim).
Proof.
  intros HE HH Hh [q Hq]. unfold EncoderLayer.new, new.
  destruct (Z.eqb_spec nHeads 0) as [?|_]; [lia|]. simpl.
  destruct (initializeMatrix_shape rnd embedDim embedDim calls)
    as (wq & -> & Hwq); [lia..|]. simpl.
  destruct (initializeMatrix_shape rnd embedDim embedDim
              (calls + Z.to_nat embedDim * Z.to_nat embedDim))
    as (wk & -> & Hwk); [lia..|]. simpl.
  destruct (initializeMatrix_shape rnd embedDim embedDim
              (calls + Z.to_nat embedDim * Z.to_nat embedDim
                 + Z.to_nat embedDim * Z.to_nat embedDim))
    as (wv & -> & Hwv); [lia..|]. simpl.
  destruct (initializeMatrix_shape rnd embedDim embedDim
              (calls + Z.to_nat embedDim * Z.to_nat embedDim
                 + Z.to_nat embedDim * Z.to_nat embedDim
                 + Z.to_nat embedDim * Z.to_nat embedDim))
    as (wo & -> & Hwo); [lia..|]. simpl.
  unfold FeedForwardNetwork.new.
  match goal with |- context [initializeMatrix rnd embedDim hidden ?c] =>
    destruct (initializeMatrix_shape rnd embedDim hidden c)
      as (w1 & -> & Hw1); [lia..|] end. simpl.
  match goal with |- context [initializeMatrix rnd hidden embedDim ?c] =>
    destruct (initializeMatrix_shape rnd hidden embedDim c)
      as (w2 & -> & Hw2); [lia..|] end. simpl.
  unfold alloc_size.
  destruct (Z.ltb_spec hidden 0) as [?|_]; [lia|].
  destruct (Z.ltb_spec embedDim 0) as [?|_]; [lia|]. simpl.
  eexists _, _. split; [reflexivity|].
  unfold encoder_layer_ok. simpl. rewrite !length_replicate.
  split; [lia|]. split; [|split; [|done]].
  - unfold attention_valid, heads_divide. simpl.
    split; [|split; [lia|split; [lia|done]]].
    split; [done|]. subst embedDim. rewrite Z.quot_mul by lia. lia.
  - exists (Z.to_nat hidden). simpl. rewrite !length_replicate.
    split; [lia|]. done.
Qed.

End Construction.

Section ConstructionExamples.
Import MultiHeadSelfAttention Exact.

(** The constructor called with [embeddingDim = 5], [numHeads = 2]. *)
Lemma constructor_accepts_positive_dimensions_witness :
  ∃ a calls',
    new (λ _ : nat, 0%R) 5 2 0 = Some (a, calls') ∧
    embeddingDim a = 5%Z ∧ numHeads a = 2%Z ∧
    headDim a = (5 ÷ 2)%Z ∧
    ∀ (X : Matrix R) (n : nat) (mask : bool),
      0 < n → has_shape n (Z.to_nat 5) X →
      ∃ out, forward a X mask = Some out ∧ has_shape n (Z.to_nat 5) out.
Proof.
  apply (constructor_accepts_positive_dimensions (F := R) (λ _, 0%R) 5 2 0); lia.
Defined.

(** C3 as stated fails: with [embeddingDim = 5] and [numHeads = 2] the
    constructor returns a module, with [headDim = 2]. *)
Lemma constructor_accepts_5_2 :
  ∃ a calls',
    new (λ _ : nat, 0%R) 5 2 0 = Some (a, calls') ∧
    embeddingDim a = 5%Z ∧ numHeads a = 2%Z ∧ headDim a = 2%Z.
Proof. eexists _, _. split; [reflexivity|]. done. Qed.

End ConstructionExamples.

(** * Prediction on a sentence without tokens *)

Lemma words_from_blank (s : string) :
  blank s → words_from [] s = [].
Proof.
  unfold blank. induction s as [|c s IH]; simpl; [done|].
  intros Hall. apply Forall_cons in Hall as [-> Hall]. by apply IH.
Qed.

(** C8. On a sentence that contains no token (empty, or white space only)
    [predictNextWord] returns the empty string, for every state of the
    model: nothing of the model is consulted, in particular the encoder is
    not run, and no error is raised. *)
Theorem predictNextWord_blank {F : Type} `{Scalar F} `{ScalarExp F}
    (self : Transformer.t F) (sentence : string) :
  blank sentence →
  Transformer.predictNextWord self sentence = Some EmptyString.
Proof.
  intros Hblank. unfold Transformer.predictNextWord, read_words.
  by rewrite words_from_blank.
Qed.

(** What [predictNextWord] returns on a sentence with tokens is the word
    decoded from the predicted index of [softmax(logits)]. *)
Lemma predictNextWord_decodes {F : Type} `{Scalar F} `{ScalarExp F}
    (self : Transformer.t F) (sentence word : string) :
  read_words sentence ≠ [] →
  Transformer.predictNextWord self sentence = Some word →
  ∃ logits probabilities,
    softmax logits = Some probabilities ∧
    word = Tokenizer.decode (Transformer.tokenizer self)
             (Z.of_nat (Transformer.predictedIndex probabilities)).
Proof.
  unfold Transformer.predictNextWord. intros Hne.
  destruct (read_words sentence) as [|t ts]; [done|].
  intros Hword. simplify_option_eq. eauto.
Qed.

(** The model before [build] on a sentence of two spaces and a tab. *)
Lemma predictNextWord_blank_witness :
  Transformer.predictNextWord Examples.unbuilt
    (String " " (String " " (String (ascii_of_nat 9) EmptyString)))
  = Some EmptyString.
Proof.
  apply (predictNextWord_blank Examples.unbuilt).
  unfold blank. simpl. repeat constructor.
Defined.

(** * Exact arithmetic: softmax and the prediction *)

Section ExactFacts.
Import Exact.
Open Scope R_scope.
Implicit Types (v scores logits : list R).

Lemma fltb_R (a b : R) : fltb a b = true ↔ a < b.
Proof. simpl. destruct (Rlt_dec a b); split; (done || lra). Qed.

Lemma Rsum_cons (x : R) v : Rsum (x :: v) = x + Rsum v.
Proof. reflexivity. Qed.

Lemma foldl_Rplus (a : R) v : foldl Rplus a v = a + Rsum v.
Proof.
  revert a. induction v as [|x v IH]; intros a; [simpl; lra|].
  rewrite Rsum_cons. simpl foldl. rewrite IH. lra.
Qed.

(** [std::accumulate] from the left is the sum of the list. *)
Lemma accumulate_Rsum v : accumulate v = Rsum v.
Proof. unfold accumulate. simpl. rewrite foldl_Rplus. lra. Qed.

Lemma Rsum_nonneg v : Forall (λ x, 0 <= x) v → 0 <= Rsum v.
Proof.
  induction 1 as [|x v Hx _ IH]; [simpl; lra|]. rewrite Rsum_cons. lra.
Qed.

Lemma Rsum_ge_elem v x : Forall (λ y, 0 <= y) v → x ∈ v → x <= Rsum v.
Proof.
  intros Hall Hx. induction Hall as [|y v Hy Hall IH]; [by inversion Hx|].
  rewrite Rsum_cons. pose proof (Rsum_nonneg v Hall).
  apply elem_of_cons in Hx as [->|Hx]; [lra|]. specialize (IH Hx). lra.
Qed.


(** The running maximum of [std::max_element]. *)
Lemma max_loop_spec (x : R) rest :
  let m := foldl (λ largest y, if fltb largest y then y else largest) x rest in
  m ∈ x :: rest ∧ ∀ y, y ∈ x :: rest → y <= m.
Proof.
  revert x. induction rest as [|z rest IH]; intros x; cbn [foldl].
  - split; [by apply list_elem_of_singleton|].
    intros y ->%list_elem_of_singleton. lra.
  - destruct (fltb x z) eqn:Hc.
    + apply fltb_R in Hc. destruct (IH z) as [Hin Hmax].
      split; [by apply list_elem_of_further|].
      intros y [->|Hy]%elem_of_cons; [|by apply Hmax].
      specialize (Hmax z (list_elem_of_here _ _)). lra.
    + assert (z <= x) as Hle.
      { apply Rnot_lt_le. intros Hlt%fltb_R. congruence. }
      destruct (IH x) as [Hin Hmax]. split.
      * apply elem_of_cons in Hin as [Hin|Hin];
          [rewrite Hin; apply list_elem_of_here|].
        by do 2 apply list_elem_of_further.
      * intros y [->|[->|Hy]%elem_of_cons]%elem_of_cons.
        -- apply Hmax, list_elem_of_here.
        -- specialize (Hmax x (list_elem_of_here _ _)). lra.
        -- by apply Hmax, list_elem_of_further.
Qed.

Lemma max_element_spec v :
  v ≠ [] →
  ∃ m, max_element v = Some m ∧ m ∈ v ∧ ∀ y, y ∈ v → y <= m.
Proof.
  destruct v as [|x rest]; [done|]. intros _. eexists. split; [done|].
  apply max_loop_spec.
Qed.

(** The exponentials of the scores shifted by their maximum are positive
    and one of them is [exp 0 = 1]. *)
Lemma exp_sum_ge_1 scores (m : R) :
  m ∈ scores → 1 <= Rsum ((λ s, exp (s - m)) <$> scores).
Proof.
  intros Hin. apply Rsum_ge_elem.
  - apply Forall_fmap, Forall_forall. intros s _. simpl.
    apply Rlt_le, exp_pos.
  - apply list_elem_of_fmap. exists m. split; [|done].
    replace (m - m) with 0 by lra. by rewrite exp_0.
Qed.

(** The value of [softmax], given the maximum. *)
Lemma softmax_unfold scores (m : R) :
  max_element scores = Some m →
  softmax scores
  = Some ((λ s, exp (s - m) / Rsum ((λ s, exp (s - m)) <$> scores)) <$> scores).
Proof.
  intros Hm. unfold softmax. rewrite Hm. simpl. rewrite accumulate_Rsum.
  by rewrite <- list_fmap_compose.
Qed.

(** Every probability is positive. *)
Lemma softmax_positive scores :
  scores ≠ [] →
  ∃ probabilities,
    softmax scores = Some probabilities ∧
    length probabilities = length scores ∧
    Forall (λ p, 0 < p) probabilities.
Proof.
  intros Hne. destruct (max_element_spec scores Hne) as (m & Hm & Hin & _).
  eexists. split; [by apply softmax_unfold|].
  split; [by rewrite length_fmap|].
  apply Forall_fmap, Forall_forall. intros s _. simpl.
  pose proof (exp_sum_ge_1 scores m Hin).
  apply Rdiv_lt_0_compat; [apply exp_pos|lra].
Qed.



End ExactFacts.

(** * Layer normalisation of a constant vector *)

Section ConstantInput.
Import Exact.
Open Scope R_scope.

Lemma Rsum_replicate (n : nat) (x : R) : Rsum (replicate n x) = INR n * x.
Proof.
  induction n as [|n IH]; [simpl; lra|].
  cbn [replicate]. rewrite Rsum_cons, IH, S_INR. lra.
Qed.

Lemma mean_replicate (n : nat) (c : R) :
  (0 < n)%nat → arithmetic_mean (replicate n c) = c.
Proof.
  intros Hn. unfold arithmetic_mean.
  rewrite accumulate_Rsum, Rsum_replicate, length_replicate. simpl.
  field. apply not_0_INR. lia.
Qed.

Lemma variance_replicate (n : nat) (c : R) :
  (0 < n)%nat → population_variance (replicate n c) = 0.
Proof.
  intros Hn. unfold population_variance.
  rewrite (mean_replicate n c Hn), accumulate_Rsum, fmap_replicate,
    Rsum_replicate, length_replicate. simpl.
  field. apply not_0_INR. lia.
Qed.

(** In exact arithmetic, on a constant non-empty input the mean is the
    common value, the variance is zero, the divisor
    [sqrt(variance + epsilon)] is not zero for [epsilon > 0], and
    [Utils::layerNorm] returns [beta]. *)
Lemma layerNorm_constant_exact (n : nat) (c epsilon : R) (gamma beta : list R) :
  (0 < n)%nat → 0 < epsilon →
  length gamma = n → length beta = n →
  arithmetic_mean (replicate n c) = c ∧
  population_variance (replicate n c) = 0 ∧
  sqrt (population_variance (replicate n c) + epsilon) ≠ 0 ∧
  layerNorm (replicate n c) gamma beta epsilon = Some beta.
Proof.
  intros Hn Heps Hg Hb.
  split; [by apply mean_replicate|]. split; [by apply variance_replicate|].
  split.
  { rewrite variance_replicate by done. apply Rgt_not_eq, sqrt_lt_R0. lra. }
  destruct (layerNorm_total (replicate n c) gamma beta epsilon)
    as (out & Hout & Hlen); [rewrite length_replicate; lia..|].
  rewrite Hout. f_equal. rewrite length_replicate in Hlen.
  apply list_eq. intros i.
  destruct (decide (i < n)%nat) as [Hi|Hi].
  - destruct (lookup_lt_is_Some_2 gamma i) as [g Hgi]; [lia|].
    destruct (lookup_lt_is_Some_2 beta i) as [b Hbi]; [lia|].
    rewrite (layerNorm_lookup _ _ _ _ _ i Hout)
      by (by rewrite length_replicate).
    rewrite lookup_replicate_2, Hgi, Hbi, mean_replicate by done.
    simpl. f_equal. unfold Rdiv. ring.
  - rewrite !(proj2 (lookup_ge_None _ _)); [done|lia|lia].
Qed.

End ConstantInput.

Section ConstantInputBinary32.
Import Binary32.

(** [1e-5f] is the binary32 quotient of 1 by 100000. *)
Lemma epsilon32_is_rounded : SFdiv prec emax (of_Z 1) (of_Z 100000) = epsilon32.
Proof. reflexivity. Qed.


(** The sum of two entries can overflow: on the constant input of two
    entries [FLT_MAX] the mean is infinite and the result is not a number. *)
Lemma layerNorm_constant_overflow :
  let big := S754_finite false 16777215 104 in
  layerNorm [big; big] [fone; fone] [fzero; fzero] fepsilon
    = Some [S754_nan; S754_nan].
Proof. reflexivity. Qed.





End ConstantInputBinary32.

(** * The definitions at work *)

Section Checks.
Import Binary32.

Example read_words_example :
  read_words "The quick  brown fox " = ["The"; "quick"; "brown"; "fox"]%string.
Proof. reflexivity. Qed.

(** The vocabulary of the corpus ["the quick brown fox"]. *)
Example tokenizer_round_trip :
  let tok := Tokenizer.buildVocabulary Tokenizer.empty ["the quick brown fox"%string] in
  Tokenizer.getVocabSize tok = 4%Z ∧
  Tokenizer.decode tok (Tokenizer.encode tok "The") = "the"%string ∧
  Tokenizer.encode tok "zzz" = (-1)%Z ∧
  Tokenizer.decode tok 999 = "<unk>"%string.
Proof. vm_compute. done. Qed.

(** [(1, 2)] times the matrix with rows [(1, 2)] and [(3, 4)] is [(7, 10)],
    and the matrix times the column [(1, 2)] is [(5, 11)]. *)
Example matMul_2_2 :
  matMul [of_Z 1; of_Z 2] [[of_Z 1; of_Z 2]; [of_Z 3; of_Z 4]]
    = Some [of_Z 7; of_Z 10] ∧
  matMulCol [[of_Z 1; of_Z 2]; [of_Z 3; of_Z 4]] [of_Z 1; of_Z 2]
    = Some [of_Z 5; of_Z 11].
Proof. vm_compute. done. Qed.

(** A vector that is too short is read out of range. *)
Example matMul_out_of_range :
  matMul [of_Z 1; of_Z 2] [[of_Z 1; of_Z 2]] = None.
Proof. reflexivity. Qed.

(** [-1e9] is a binary32 number, and [x / std::sqrt(4)] halves [x]. *)
Example constants32 :
  fmask = S754_finite true 15625000 6 ∧
  fdiv_sqrt (of_Z 3) 4 = SFdiv prec emax (of_Z 3) (of_Z 2).
Proof. vm_compute. done. Qed.

End Checks.

(** * Further properties: the numeric utilities *)

Section MoreLoops.
Context {St : Type}.
Implicit Types (body : nat → St → option St) (s : St).

Lemma for_range_ext lo n body body' s :
  (∀ i t, lo ≤ i < lo + n → body i t = body' i t) →
  for_range lo n body s = for_range lo n body' s.
Proof.
  revert lo s. induction n as [|n IH]; intros lo s Hext; simpl; [done|].
  rewrite Hext by lia. destruct (body' lo s) as [s'|]; simpl; [|done].
  apply IH. intros i t Hi. apply Hext. lia.
Qed.

Lemma for_range_shift lo n body s :
  for_range (S lo) n body s = for_range lo n (λ i, body (S i)) s.
Proof.
  revert lo s. induction n as [|n IH]; intros lo s; simpl; [done|].
  destruct (body (S lo) s) as [s'|]; simpl; [|done]. apply IH.
Qed.

(** A loop that fails at some index fails as a whole, if the body does not
    depend on the state for its failure. *)
Lemma for_range_fails lo n body s k :
  lo ≤ k < lo + n → (∀ t, body k t = None) → for_range lo n body s = None.
Proof.
  revert lo s. induction n as [|n IH]; intros lo s Hk Hfail; simpl; [lia|].
  destruct (decide (k = lo)) as [->|Hne]; [by rewrite Hfail|].
  destruct (body lo s) as [s'|]; simpl; [|done]. apply IH; [lia|done].
Qed.

End MoreLoops.

Section MoreUtils.
Context {F : Type} `{Scalar F}.
Implicit Types (a b v vec input gamma beta : Vector F) (m matrix : Matrix F).

(** The loop of [dotProduct], started from any accumulator. *)
Lemma dot_loop_cons (x y : F) a b (acc : F) :
  for_range 0 (length (x :: a))
    (λ i result, p ← (x :: a) !! i; q ← (y :: b) !! i;
                 Some (fadd result (fmul p q))) acc
  = for_range 0 (length a)
      (λ i result, p ← a !! i; q ← b !! i; Some (fadd result (fmul p q)))
      (fadd acc (fmul x y)).
Proof. cbn [length for_range]. simpl. by rewrite for_range_shift. Qed.

Lemma dot_loop_spec a b (acc : F) :
  for_range 0 (length a)
    (λ i result, p ← a !! i; q ← b !! i; Some (fadd result (fmul p q))) acc
  = if decide (length a ≤ length b)
    then Some (foldl (λ acc xy, fadd acc (fmul xy.1 xy.2)) acc (zip a b))
    else None.
Proof.
  revert b acc. induction a as [|x a IH]; intros b acc.
  - destruct (decide (length (@nil F) ≤ length b)) as [|Hn]; [done|].
    simpl in Hn. lia.
  - destruct b as [|y b].
    + destruct (decide (length (x :: a) ≤ length (@nil F))) as [Hn|]; [|done].
      simpl in Hn. lia.
    + rewrite dot_loop_cons, IH.
      destruct (decide (length a ≤ length b)) as [Hle|Hle];
        destruct (decide (length (x :: a) ≤ length (y :: b))) as [Hle'|Hle'];
        simpl in Hle'; try lia; done.
Qed.

(** X1. [Utils::dotProduct] adds the products [a[i] * b[i]] from the left,
    starting from [0.0], over the indices of [a]: entries of [b] beyond the
    length of [a] are ignored, and a [b] shorter than [a] is read out of
    range. *)
Theorem dotProduct_sum_or_out_of_range a b :
  dotProduct a b
  = if decide (length a ≤ length b) then Some (sum_of_products a b) else None.
Proof. unfold dotProduct, sum_of_products. apply dot_loop_spec. Qed.

(** X2. [Utils::add] adds entry by entry over the indices of [a]: the
    result has the length of [a], entries of [b] beyond that are ignored,
    and a [b] shorter than [a] is read out of range. *)
Theorem add_zip_or_out_of_range a b :
  add a b
  = if decide (length a ≤ length b) then Some (zip_with fadd a b) else None.
Proof.
  unfold add. case_decide as Hlen.
  - apply tabulate_Some. split.
    + rewrite length_zip_with. lia.
    + intros i Hi. rewrite lookup_zip_with.
      destruct (lookup_lt_is_Some_2 a i) as [x ->]; [lia|].
      by destruct (lookup_lt_is_Some_2 b i) as [y ->]; [lia|].
  - apply mapM_None, Exists_exists. exists (length b). split.
    + apply elem_of_seq. lia.
    + destruct (lookup_lt_is_Some_2 a (length b)) as [x ->]; [lia|].
      simpl. by rewrite (proj2 (lookup_ge_None b (length b))) by lia.
Qed.

Lemma column_lookup r c matrix i j row :
  has_shape r c matrix → matrix !! j = Some row →
  column i matrix !! j = Some (default fzero (row !! i)).
Proof. intros _ Hrow. unfold column. by rewrite list_lookup_fmap, Hrow. Qed.

(** X3. [Utils::matMul(vector, matrix)] on a matrix of [r > 0] rows and [c]
    columns: a vector of at most [r] entries gives a vector of [c] entries,
    the [i]-th being the [dotProduct] of the vector with column [i]; a
    shorter vector is accepted as it is.  A vector of more than [r] entries
    reads a row out of range (for [c > 0]). *)
Theorem matMul_columns vec matrix r c :
  has_shape r c matrix → 0 < r →
  (length vec ≤ r →
   ∃ out, matMul vec matrix = Some out ∧ length out = c ∧
          ∀ i, i < c → out !! i = dotProduct vec (column i matrix)) ∧
  (r < length vec → 0 < c → matMul vec matrix = None).
Proof.
  intros Hshape Hr. pose proof Hshape as [Hlen Hrows].
  destruct (lookup_lt_is_Some_2 matrix 0) as [row0 Hrow0]; [lia|].
  pose proof (Hrows _ _ Hrow0) as Hc. split.
  - intros Hvec.
    destruct (matMul_total vec matrix r c Hshape Hr Hvec) as (out & Hout & Hlo).
    exists out. split; [done|]. split; [done|]. intros i Hi.
    unfold matMul in Hout. rewrite Hrow0 in Hout. simpl in Hout.
    rewrite Hc in Hout. rewrite (tabulate_lookup _ _ _ i Hout Hi).
    unfold dotProduct. apply for_range_ext. intros j t Hj.
    destruct (vec !! j) as [x|]; simpl; [|done].
    destruct (lookup_lt_is_Some_2 matrix j) as [rj Hrj]; [lia|].
    rewrite Hrj, (column_lookup r c _ i j rj Hshape Hrj). simpl.
    destruct (lookup_lt_is_Some_2 rj i) as [y ->];
      [rewrite (Hrows _ _ Hrj); lia|]. done.
  - intros Hvec Hcpos. unfold matMul. rewrite Hrow0. simpl. rewrite Hc.
    apply mapM_None, Exists_exists. exists 0. split; [apply elem_of_seq; lia|].
    apply (for_range_fails _ _ _ _ r); [lia|]. intros t.
    destruct (vec !! r); simpl; [|done].
    by rewrite (proj2 (lookup_ge_None matrix r)) by lia.
Qed.

(** X4. [Utils::layerNorm] returns exactly when [gamma] and [beta] have at
    least the length of [input]: it reads [gamma[i]] and [beta[i]] for every
    index of [input], without a check, and ignores further entries; the
    result has the length of [input] (the empty vector for an empty
    [input]). *)
Theorem layerNorm_returns_iff input gamma beta epsilon :
  (∃ output, layerNorm input gamma beta epsilon = Some output ∧
             length output = length input)
  ↔ length input ≤ length gamma ∧ length input ≤ length beta.
Proof.
  split; [|intros [Hg Hb]; by apply layerNorm_total].
  intros (out & Hout & _). unfold layerNorm in Hout.
  destruct (decide (length input ≤ length gamma ∧ length input ≤ length beta))
    as [|Hshort]; [done|]. exfalso.
  set (k := Nat.min (length gamma) (length beta)).
  assert (k < length input) as Hk by (unfold k; lia).
  pose proof (tabulate_lookup _ _ _ k Hout Hk) as Hlook.
  destruct (lookup_lt_is_Some_2 out k) as [y Hy];
    [by rewrite (tabulate_length _ _ _ Hout)|].
  rewrite Hy in Hlook.
  destruct (input !! k) as [x|]; simpl in Hlook; [|done].
  destruct (decide (length gamma ≤ length beta)) as [Hgb|Hgb].
  - rewrite (proj2 (lookup_ge_None gamma k)) in Hlook by (unfold k; lia). done.
  - destruct (gamma !! k); simpl in Hlook; [|done].
    rewrite (proj2 (lookup_ge_None beta k)) in Hlook by (unfold k; lia). done.
Qed.

End MoreUtils.

(** * Further properties: reading words and the tokenizer *)

Section Words.

Lemma isspace_tolower c : isspace (tolower c) = isspace c.
Proof. by destruct c as [[] [] [] [] [] [] [] []]. Qed.

Lemma tolower_idemp c : tolower (tolower c) = tolower c.
Proof. by destruct c as [[] [] [] [] [] [] [] []]. Qed.

Lemma fmap_rev {A B : Type} (f : A → B) (l : list A) : f <$> rev l = rev (f <$> l).
Proof. rewrite !rev_alt. apply (fmap_reverse f l). Qed.

Lemma lowercase_String c s : lowercase (String c s) = String (tolower c) (lowercase s).
Proof. done. Qed.

Lemma lowercase_of_list l :
  lowercase (string_of_list_ascii l) = string_of_list_ascii (tolower <$> l).
Proof. unfold lowercase. by rewrite list_ascii_of_string_of_list_ascii. Qed.

Lemma lowercase_idemp w : lowercase (lowercase w) = lowercase w.
Proof.
  unfold lowercase at 1 2. rewrite list_ascii_of_string_of_list_ascii.
  unfold lowercase. f_equal. rewrite <- list_fmap_compose.
  apply list_fmap_ext. intros _ c _. apply tolower_idemp.
Qed.

Lemma words_from_lowercase acc s :
  words_from (tolower <$> acc) (lowercase s) = lowercase <$> words_from acc s.
Proof.
  revert acc. induction s as [|c s IH]; intros acc.
  - destruct acc as [|a acc]; [done|].
    cbn [words_from lowercase list_ascii_of_string fmap list_fmap
         string_of_list_ascii].
    by rewrite lowercase_of_list, fmap_rev.
  - rewrite lowercase_String. cbn [words_from]. rewrite isspace_tolower.
    destruct (isspace c).
    + destruct acc as [|a acc]; [apply (IH [])|].
      cbn [fmap list_fmap].
      rewrite lowercase_of_list, fmap_rev. f_equal. apply (IH []).
    + apply (IH (c :: acc)).
Qed.

Lemma read_words_lowercase s :
  read_words (lowercase s) = lowercase <$> read_words s.
Proof. apply (words_from_lowercase []). Qed.

Lemma words_from_split acc s1 c s2 :
  isspace c = true →
  words_from acc (s1 +:+ String c s2) = words_from acc s1 ++ words_from [] s2.
Proof.
  intros Hc. revert acc. induction s1 as [|d s1 IH]; intros acc.
  - simpl. rewrite Hc. by destruct acc.
  - simpl. destruct (isspace d).
    + destruct acc; [apply IH|]. rewrite IH. done.
    + apply IH.
Qed.

Lemma mjoin_cons {A : Type} (x : list A) (l : list (list A)) :
  mjoin (x :: l) = x ++ mjoin l.
Proof. done. Qed.

Lemma string_of_list_nonempty l : l ≠ [] → string_of_list_ascii l ≠ EmptyString.
Proof. by destruct l. Qed.

Lemma words_from_tokens acc s :
  Forall (λ c, isspace c = false) acc →
  Forall (λ w, w ≠ EmptyString ∧
               Forall (λ c, isspace c = false) (list_ascii_of_string w))
         (words_from acc s) ∧
  mjoin (list_ascii_of_string <$> words_from acc s)
  = rev acc ++ filter (λ c, isspace c = false) (list_ascii_of_string s).
Proof.
  revert acc. induction s as [|c s IH]; intros acc Hacc.
  - destruct acc as [|a acc]; [done|]. cbn [words_from]. split.
    + constructor; [|done]. split.
      * apply string_of_list_nonempty. intros Hnil.
        apply (f_equal length) in Hnil. rewrite length_rev in Hnil. done.
      * rewrite list_ascii_of_string_of_list_ascii. by apply Forall_rev.
    + rewrite fmap_cons, mjoin_cons, list_ascii_of_string_of_list_ascii.
      done.
  - cbn [words_from list_ascii_of_string]. destruct (isspace c) eqn:Hc.
    + rewrite filter_cons_False by (rewrite Hc; done).
      destruct (IH [] ltac:(done)) as [IH1 IH2].
      destruct acc as [|a acc]; [done|]. split.
      * constructor; [|done]. split.
        -- apply string_of_list_nonempty. intros Hnil.
           apply (f_equal length) in Hnil. rewrite length_rev in Hnil. done.
        -- rewrite list_ascii_of_string_of_list_ascii. by apply Forall_rev.
      * rewrite fmap_cons, mjoin_cons, IH2.
        by rewrite list_ascii_of_string_of_list_ascii.
    + rewrite filter_cons_True by done.
      destruct (IH (c :: acc)) as [IH1 IH2]; [by constructor|].
      split; [done|]. rewrite IH2. cbn [rev]. by rewrite <- app_assoc.
Qed.

(** X5. The tokens that [iss >> word] reads are never empty and hold no
    white-space character, and read one after the other they are the
    sentence without its white space: nothing is dropped or added. *)
Theorem read_words_tokens (sentence : string) :
  Forall (λ w, w ≠ EmptyString ∧
               Forall (λ c, isspace c = false) (list_ascii_of_string w))
         (read_words sentence) ∧
  mjoin (list_ascii_of_string <$> read_words sentence)
  = filter (λ c, isspace c = false) (list_ascii_of_string sentence).
Proof.
  destruct (words_from_tokens [] sentence) as [Htok Hcat]; [done|].
  split; [exact Htok|]. unfold read_words. by rewrite Hcat.
Qed.

(** X6. A white-space character separates: the tokens of
    [s1 ++ c ++ s2] are the tokens of [s1] followed by those of [s2], so
    runs of white space and white space at either end produce no token. *)
Theorem read_words_split (s1 s2 : string) (c : ascii) :
  isspace c = true →
  read_words (s1 +:+ String c s2) = read_words s1 ++ read_words s2.
Proof. intros Hc. unfold read_words. by apply words_from_split. Qed.

End Words.

Section TokenizerFacts.
Import Tokenizer.

Lemma buildVocabulary_words (tk : Tokenizer.t) sentences :
  buildVocabulary tk sentences = foldl add_word tk (sentences ≫= read_words).
Proof.
  unfold buildVocabulary. revert tk.
  induction sentences as [|s sentences IH]; intros tk; [done|].
  cbn [foldl]. rewrite IH.
  change ((s :: sentences) ≫= read_words)
    with (read_words s ++ (sentences ≫= read_words)).
  by rewrite foldl_app.
Qed.

Lemma numbered_empty : numbered empty [].
Proof.
  split; [constructor|]. split; [done|]. split.
  - intros w i. cbn. rewrite lookup_empty. split; [done|by intros [_ ?]].
  - intros i w. cbn. rewrite lookup_empty. split; [done|by intros [_ ?]].
Qed.

Lemma numbered_known tk ws w :
  numbered tk ws → (is_Some (wordToIndex tk !! w) ↔ w ∈ ws).
Proof.
  intros (_ & _ & Hwi & _). split.
  - intros [i Hi]. apply Hwi in Hi as [_ Hi]. by eapply list_elem_of_lookup_2.
  - intros [k Hk]%list_elem_of_lookup_1. exists (Z.of_nat k).
    apply Hwi. split; [lia|]. by rewrite Nat2Z.id.
Qed.

Lemma lookup_snoc_Some (ws : list string) (v w : string) (k : nat) :
  v ∉ ws →
  (ws ++ [v]) !! k = Some w ↔
  (ws !! k = Some w ∧ w ≠ v) ∨ (k = length ws ∧ w = v).
Proof.
  intros Hnew. split.
  - intros Hk. destruct (decide (k < length ws)) as [Hlt|Hge].
    + rewrite lookup_app_l in Hk by done. left. split; [done|].
      intros ->. apply Hnew. by eapply list_elem_of_lookup_2.
    + rewrite lookup_app_r in Hk by lia.
      destruct (k - length ws) as [|?] eqn:Hd; [|done].
      injection Hk as <-. right. split; [lia|done].
  - intros [[Hk _]|[-> ->]].
    + rewrite lookup_app_l; [done|]. by eapply lookup_lt_Some.
    + by rewrite list_lookup_middle.
Qed.

Lemma numbered_add_word tk ws word :
  numbered tk ws →
  numbered (add_word tk word)
    (if bool_decide (lowercase word ∈ ws) then ws else ws ++ [lowercase word]).
Proof.
  intros Hnum. pose proof (numbered_known tk ws (lowercase word) Hnum) as Hknown.
  destruct Hnum as (Hnd & Hsize & Hwi & Hiw). unfold add_word.
  destruct (wordToIndex tk !! lowercase word) as [i|] eqn:Hlook.
  - rewrite bool_decide_eq_true_2 by (apply Hknown; eauto). done.
  - assert (lowercase word ∉ ws) as Hnew.
    { intros Hin. apply Hknown in Hin as [? ?]. done. }
    rewrite bool_decide_eq_false_2 by done.
    split; [|split; [|split]]; cbn.
    + apply NoDup_app. split; [done|]. split; [|apply NoDup_singleton].
      intros x Hx ->%list_elem_of_singleton. done.
    + rewrite length_app. simpl. lia.
    + intros w j. rewrite lookup_snoc_Some by done.
      destruct (decide (lowercase word = w)) as [<-|Hne].
      * rewrite lookup_insert_eq. split.
        -- intros [= <-]. split; [lia|]. right. split; [lia|done].
        -- intros [Hj [[Hin _]|[Hj' _]]]; [|f_equal; lia].
           exfalso. apply Hnew. by eapply list_elem_of_lookup_2.
      * rewrite lookup_insert_ne by done. rewrite Hwi. split.
        -- intros [Hj Hin]. split; [done|]. left. split; [done|congruence].
        -- intros [Hj [[Hin _]|[_ ->]]]; [done|congruence].
    + intros j w. rewrite lookup_snoc_Some by done.
      destruct (decide (vocabSize tk = j)) as [<-|Hne].
      * rewrite lookup_insert_eq. split.
        -- intros [= <-]. split; [lia|]. right. split; [lia|done].
        -- intros [Hj [[Hin _]|[_ ->]]]; [|done].
           apply lookup_lt_Some in Hin. lia.
      * rewrite lookup_insert_ne by done. rewrite Hiw. split.
        -- intros [Hj Hin]. split; [done|]. left. split; [done|].
           intros ->. apply Hnew. by eapply list_elem_of_lookup_2.
        -- intros [Hj [[Hin _]|[Hj' _]]]; [done|lia].
Qed.

Lemma numbered_foldl tk ws l :
  numbered tk ws →
  numbered (foldl add_word tk l)
    (foldl (λ acc w, if bool_decide (w ∈ acc) then acc else acc ++ [w])
           ws (lowercase <$> l)).
Proof.
  revert tk ws. induction l as [|w l IH]; intros tk ws Hnum; [done|].
  cbn [foldl fmap list_fmap]. apply IH. by apply numbered_add_word.
Qed.

Lemma buildVocabulary_numbered sentences :
  numbered (buildVocabulary empty sentences)
           (first_occurrences (corpus_words sentences)).
Proof.
  rewrite buildVocabulary_words. apply numbered_foldl, numbered_empty.
Qed.

Lemma first_occurrences_elem_from (acc l : list string) (w : string) :
  w ∈ foldl (λ acc w, if bool_decide (w ∈ acc) then acc else acc ++ [w]) acc l
  ↔ w ∈ acc ∨ w ∈ l.
Proof.
  revert acc. induction l as [|x l IH]; intros acc; cbn [foldl].
  - split; [by left|]. intros [?|Hin]; [done|]. by apply elem_of_nil in Hin.
  - rewrite IH. rewrite elem_of_cons. case_bool_decide as Hx.
    + split; [intros [?|?]; auto|]. intros [?|[->|?]]; auto.
    + rewrite elem_of_app, list_elem_of_singleton. tauto.
Qed.

Lemma first_occurrences_elem (l : list string) (w : string) : w ∈ first_occurrences l ↔ w ∈ l.
Proof.
  unfold first_occurrences. rewrite first_occurrences_elem_from.
  split; [intros [Hin|?]; [by apply elem_of_nil in Hin|done]|by right].
Qed.

Lemma numbered_encode tk ws word :
  numbered tk ws → encode tk word = position_of (lowercase word) ws.
Proof.
  intros (Hnd & _ & Hwi & _). unfold encode, position_of.
  destruct (list_find (λ v, v = lowercase word) ws) as [[k v]|] eqn:Hfind.
  - apply list_find_Some in Hfind as (Hk & -> & _).
    assert (wordToIndex tk !! lowercase word = Some (Z.of_nat k)) as ->; [|done].
    apply Hwi. split; [lia|]. by rewrite Nat2Z.id.
  - destruct (wordToIndex tk !! lowercase word) as [i|] eqn:Hlook; [|done].
    apply Hwi in Hlook as [_ Hin]. apply list_find_None in Hfind.
    apply list_elem_of_lookup_2 in Hin.
    by apply (proj1 (Forall_forall _ _) Hfind) in Hin.
Qed.

Lemma numbered_decode tk ws index :
  numbered tk ws →
  decode tk index
  = if (index <? 0)%Z then "<unk>"%string
    else default "<unk>"%string (ws !! Z.to_nat index).
Proof.
  intros (_ & _ & _ & Hiw). unfold decode.
  destruct (indexToWord tk !! index) as [w|] eqn:Hlook.
  - apply Hiw in Hlook as [Hpos ->].
    destruct (Z.ltb_spec index 0) as [?|_]; [lia|done].
  - destruct (Z.ltb_spec index 0) as [?|Hpos]; [done|].
    destruct (ws !! Z.to_nat index) as [w|] eqn:Hw; [|done].
    assert (indexToWord tk !! index = Some w) as Hcontra by (by apply Hiw).
    congruence.
Qed.

(** X7. [buildVocabulary] on a new tokenizer numbers the distinct
    lower-case words of the corpus [0, 1, 2, ...] in the order of their
    first occurrence: [getVocabSize] is their number, [decode] of an index
    is the word at that place, and ["<unk>"] for every other index. *)
Theorem buildVocabulary_numbers_first_occurrences (sentences : list string)
    (index : Z) :
  let tk := buildVocabulary empty sentences in
  let ws := first_occurrences (corpus_words sentences) in
  getVocabSize tk = Z.of_nat (length ws) ∧
  decode tk index
  = if (index <? 0)%Z then "<unk>"%string
    else default "<unk>"%string (ws !! Z.to_nat index).
Proof.
  intros tk ws. pose proof (buildVocabulary_numbered sentences) as Hnum.
  split; [apply Hnum|]. by apply numbered_decode.
Qed.

(** X8. [encode] on the tokenizer built from a corpus returns the place of
    the lower-cased word among the distinct corpus words in the order of
    their first occurrence, and [-1] exactly for a word that is not in the
    corpus. *)
Theorem encode_position_of_first_occurrence (sentences : list string)
    (word : string) :
  let tk := buildVocabulary empty sentences in
  encode tk word
  = position_of (lowercase word) (first_occurrences (corpus_words sentences)) ∧
  (encode tk word = (-1)%Z ↔ lowercase word ∉ corpus_words sentences).
Proof.
  intros tk. subst tk.
  pose proof (buildVocabulary_numbered sentences) as Hnum.
  rewrite (numbered_encode _ _ word Hnum). split; [done|].
  rewrite <- first_occurrences_elem. unfold position_of.
  destruct (list_find _ _) as [[k v]|] eqn:Hfind.
  - apply list_find_Some in Hfind as (Hk & -> & _). split; [lia|].
    intros Hnot. exfalso. apply Hnot. by eapply list_elem_of_lookup_2.
  - split; [|done]. intros _ Hin. apply list_find_None in Hfind.
    by apply (proj1 (Forall_forall _ _) Hfind) in Hin.
Qed.

(** X9. Round trip from words: a word that occurs in the corpus, in any
    spelling of upper and lower case, is encoded to an index in
    [0 .. vocabSize - 1], and decoding that index gives the word in lower
    case. *)
Theorem decode_encode_corpus_word (sentences : list string)
    (sentence word : string) :
  sentence ∈ sentences → word ∈ read_words sentence →
  let tk := buildVocabulary empty sentences in
  (0 ≤ encode tk word < getVocabSize tk)%Z ∧
  decode tk (encode tk word) = lowercase word.
Proof.
  intros Hs Hw tk.
  destruct (buildVocabulary_numbered sentences) as (Hnd & Hsize & Hwi & Hiw).
  fold tk in Hsize, Hwi, Hiw.
  assert (lowercase word ∈ first_occurrences (corpus_words sentences)) as Hin.
  { apply first_occurrences_elem, list_elem_of_fmap_2, list_elem_of_bind. eauto. }
  apply list_elem_of_lookup_1 in Hin as [k Hk].
  assert (wordToIndex tk !! lowercase word = Some (Z.of_nat k)) as Hlook.
  { apply Hwi. split; [lia|]. by rewrite Nat2Z.id. }
  unfold encode, decode, getVocabSize. rewrite Hlook, Hsize.
  apply lookup_lt_Some in Hk as Hlt. split; [lia|].
  assert (indexToWord tk !! Z.of_nat k = Some (lowercase word)) as ->; [|done].
  apply Hiw. split; [lia|]. by rewrite Nat2Z.id.
Qed.

(** X10. Round trip from indices: on the tokenizer built from a corpus,
    every index in [0 .. vocabSize - 1] decodes to a word that encodes back
    to the same index. *)
Theorem encode_decode_index (sentences : list string) (index : Z) :
  let tk := buildVocabulary empty sentences in
  (0 ≤ index < getVocabSize tk)%Z →
  encode tk (decode tk index) = index.
Proof.
  intros tk Hrange.
  destruct (buildVocabulary_numbered sentences) as (Hnd & Hsize & Hwi & Hiw).
  fold tk in Hsize, Hwi, Hiw. unfold getVocabSize in Hrange.
  destruct (lookup_lt_is_Some_2 (first_occurrences (corpus_words sentences))
              (Z.to_nat index)) as [w Hw]; [lia|].
  assert (indexToWord tk !! index = Some w) as Hlook by (apply Hiw; split; [lia|done]).
  assert (wordToIndex tk !! w = Some index) as Hback by (apply Hwi; split; [lia|done]).
  assert (lowercase w = w) as Hlow.
  { apply list_elem_of_lookup_2 in Hw.
    apply (proj1 (first_occurrences_elem _ _)) in Hw.
    unfold corpus_words in Hw. apply list_elem_of_fmap in Hw as (v & -> & _).
    apply lowercase_idemp. }
  unfold decode, encode. by rewrite Hlook, Hlow, Hback.
Qed.

Lemma add_word_known tk word :
  encode tk word ≠ (-1)%Z → add_word tk word = tk.
Proof.
  unfold encode, add_word.
  by destruct (wordToIndex tk !! lowercase word).
Qed.

(** X11. [buildVocabulary] changes nothing when every word of the
    sentences is known already: no word is renumbered, so building again
    from the same corpus leaves the tokenizer as it is. *)
Theorem buildVocabulary_known_words (tk : Tokenizer.t) (sentences : list string) :
  (∀ sentence word, sentence ∈ sentences → word ∈ read_words sentence →
                    encode tk word ≠ (-1)%Z) →
  buildVocabulary tk sentences = tk.
Proof.
  intros Hknown. rewrite buildVocabulary_words.
  assert (∀ word, word ∈ sentences ≫= read_words → encode tk word ≠ (-1)%Z)
    as Hall.
  { intros word (s & Hw & Hs)%list_elem_of_bind. by eapply Hknown. }
  clear Hknown. induction (sentences ≫= read_words) as [|w l IH]; [done|].
  cbn [foldl]. rewrite add_word_known by (apply Hall, list_elem_of_here).
  apply IH. intros word Hin. by apply Hall, list_elem_of_further.
Qed.

End TokenizerFacts.

(** * Further properties: the layer stacks *)

Section StackFacts.
Context {F : Type} `{Scalar F} `{ScalarExp F}.

Lemma ffn_rows_total (f : FeedForwardNetwork.t F) (n E : nat) (x : Matrix F) :
  ffn_ok f E → 0 < E → has_shape n E x →
  ∃ out, tabulate n (λ i, o ← x !! i; FeedForwardNetwork.forward f o) = Some out ∧
         has_shape n E out.
Proof.
  intros Hffn HE Hx.
  match goal with |- ∃ _, tabulate n ?f = _ ∧ _ =>
    destruct (tabulate_total n f) as [out Hout] end.
  { intros i Hi. destruct (lookup_lt_is_Some_2 x i) as [o Ho];
      [destruct Hx as [-> _]; lia|]. rewrite Ho. simpl.
    destruct (ffn_forward_total _ E o Hffn HE) as (r & -> & _); [|done].
    by eapply has_shape_lookup. }
  exists out. split; [done|].
  split; [by apply tabulate_length in Hout|]. intros i row Hrow.
  pose proof (lookup_lt_Some _ _ _ Hrow) as Hi.
  rewrite (tabulate_length _ _ _ Hout) in Hi.
  rewrite (tabulate_lookup _ _ _ i Hout Hi) in Hrow.
  destruct (x !! i) as [o|] eqn:Ho; simpl in Hrow; [|done].
  destruct (ffn_forward_total _ E o Hffn HE) as (r & Hr & Hlen);
    [by eapply has_shape_lookup|]. congruence.
Qed.

Lemma encoder_layer_forward_total (l : EncoderLayer.t F) (E n : nat)
    (input : Matrix F) :
  encoder_layer_ok l E → 0 < n → has_shape n E input →
  ∃ output, EncoderLayer.forward l input = Some output ∧ has_shape n E output.
Proof.
  intros (HE & Hatt & Hffn & Hg1 & Hb1 & Hg2 & Hb2) Hn Hin.
  pose proof (attention_valid_ok _ _ Hatt) as Hok.
  assert (0 < E) as HEpos by apply Hok.
  destruct (forward_total _ input false n E Hok Hn Hin)
    as (attn & Hattn & Hsh).
  unfold EncoderLayer.forward, alloc_size. rewrite Hattn, HE. simpl.
  destruct (Z.ltb_spec (Z.of_nat E) 0) as [?|_]; [lia|]. simpl.
  assert (length input = n) as -> by apply Hin.
  destruct (add_norm_total n E input attn _ _ Hin Hsh Hg1 Hb1)
    as (output1 & -> & Hsh1 & _). simpl.
  destruct (ffn_rows_total _ n E output1 Hffn HEpos Hsh1) as (ffnOut & -> & Hshf).
  simpl.
  destruct (add_norm_total n E output1 ffnOut _ _ Hsh1 Hshf Hg2 Hb2)
    as (output2 & -> & Hsh2 & _). eauto.
Qed.

Lemma decoder_layer_forward_total (l : DecoderLayer.t F) (E n : nat)
    (targetInput encoderOutput : Matrix F) :
  decoder_layer_ok l E → 0 < n → has_shape n E targetInput →
  ∃ output, DecoderLayer.forward l targetInput encoderOutput = Some output ∧
            has_shape n E output.
Proof.
  intros (HE & Hatt1 & Hatt2 & Hffn & Hg1 & Hb1 & Hg2 & Hb2 & Hg3 & Hb3) Hn Hin.
  pose proof (attention_valid_ok _ _ Hatt1) as Hok1.
  pose proof (attention_valid_ok _ _ Hatt2) as Hok2.
  assert (0 < E) as HEpos by apply Hok1.
  destruct (forward_total _ targetInput true n E Hok1 Hn Hin)
    as (attn1 & Hattn1 & Hsh).
  unfold DecoderLayer.forward, alloc_size. rewrite Hattn1, HE. simpl.
  destruct (Z.ltb_spec (Z.of_nat E) 0) as [?|_]; [lia|]. simpl.
  assert (length targetInput = n) as -> by apply Hin.
  destruct (add_norm_total n E targetInput attn1 _ _ Hin Hsh Hg1 Hb1)
    as (output1 & -> & Hsh1 & _). simpl.
  destruct (forward_total _ output1 false n E Hok2 Hn Hsh1)
    as (attn2 & -> & Hsha). simpl.
  destruct (add_norm_total n E output1 attn2 _ _ Hsh1 Hsha Hg2 Hb2)
    as (output2 & -> & Hsh2 & _). simpl.
  destruct (ffn_rows_total _ n E output2 Hffn HEpos Hsh2) as (ffnOut & -> & Hshf).
  simpl.
  destruct (add_norm_total n E output2 ffnOut _ _ Hsh2 Hshf Hg3 Hb3)
    as (output3 & -> & Hsh3 & _). eauto.
Qed.

Lemma encoder_forward_unfold (ls : list (EncoderLayer.t F)) numL (input : Matrix F) :
  Encoder.forward {| Encoder.layers := ls; Encoder.numLayers := numL |} input
  = foldl (λ output layer, o ← output; EncoderLayer.forward layer o)
          (Some input) ls.
Proof. done. Qed.

Lemma foldl_bind_None {A B : Type} (f : B → A → option A) (ls : list B) :
  foldl (λ output layer, o ← output; f layer o) None ls = None.
Proof. by induction ls. Qed.

Lemma encoder_layers_total (ls : list (EncoderLayer.t F)) (E n : nat)
    (input : Matrix F) :
  Forall (λ l, encoder_layer_ok l E) ls → 0 < n → has_shape n E input →
  ∃ output,
    foldl (λ output layer, o ← output; EncoderLayer.forward layer o)
          (Some input) ls = Some output ∧
    has_shape n E output.
Proof.
  intros Hls Hn. revert input.
  induction Hls as [|l ls Hl _ IH]; intros input Hin; [by exists input|].
  cbn [foldl]. simpl.
  destruct (encoder_layer_forward_total l E n input Hl Hn Hin) as (o & -> & Ho).
  by apply IH.
Qed.

(** X12. [Encoder::forward] on a stack of valid layers of any depth,
    applied to [n > 0] vectors of length [E], returns [n] vectors of
    length [E]; the attribute [numLayers] plays no part in it. *)
Theorem encoder_forward_shape (self : Encoder.t F) (E n : nat)
    (input : Matrix F) :
  Forall (λ l, encoder_layer_ok l E) (Encoder.layers self) →
  0 < n → has_shape n E input →
  ∃ output, Encoder.forward self input = Some output ∧ has_shape n E output.
Proof.
  intros Hls Hn. unfold Encoder.forward. revert input.
  induction Hls as [|l ls Hl _ IH]; intros input Hin; [by exists input|].
  cbn [foldl]. simpl.
  destruct (encoder_layer_forward_total l E n input Hl Hn Hin) as (o & -> & Ho).
  by apply IH.
Qed.

(** X13. [Encoder::forward] feeds the output of each layer to the next: a
    stack [ls1 ++ ls2] is the stack [ls1] followed by the stack [ls2], an
    error in the first part is the error of the whole, and the stack
    without layers returns its input. *)
Theorem encoder_forward_app (ls1 ls2 : list (EncoderLayer.t F)) (k : Z)
    (input : Matrix F) :
  Encoder.forward {| Encoder.layers := ls1 ++ ls2; Encoder.numLayers := k |} input
  = (o ← Encoder.forward {| Encoder.layers := ls1; Encoder.numLayers := k |} input;
     Encoder.forward {| Encoder.layers := ls2; Encoder.numLayers := k |} o) ∧
  Encoder.forward {| Encoder.layers := []; Encoder.numLayers := k |} input
  = Some input.
Proof.
  split; [|done]. rewrite !encoder_forward_unfold, foldl_app.
  destruct (foldl _ (Some input) ls1) as [o|]; simpl.
  - by rewrite encoder_forward_unfold.
  - apply foldl_bind_None.
Qed.

(** X14. [Decoder::forward] on a stack of valid decoder layers, applied to
    [n > 0] target vectors of length [E], returns [n] vectors of length [E]
    for every [encoderOutput], of whatever shape: the masked
    self-attention, the second attention, the feed-forward network and the
    three normalisations of each layer all keep the shape. *)
Theorem decoder_forward_shape (self : Decoder.t F) (E n : nat)
    (targetInput encoderOutput : Matrix F) :
  Forall (λ l, decoder_layer_ok l E) (Decoder.layers self) →
  0 < n → has_shape n E targetInput →
  ∃ output, Decoder.forward self targetInput encoderOutput = Some output ∧
            has_shape n E output.
Proof.
  intros Hls Hn. unfold Decoder.forward. revert targetInput.
  induction Hls as [|l ls Hl _ IH]; intros targetInput Hin;
    [by exists targetInput|].
  cbn [foldl]. simpl.
  destruct (decoder_layer_forward_total l E n targetInput encoderOutput Hl Hn Hin)
    as (o & -> & Ho).
  by apply IH.
Qed.

End StackFacts.

(** * Further properties: the attention module *)

Section MoreAttention.
Context {F : Type} `{Scalar F} `{ScalarExp F}.
Import MultiHeadSelfAttention.
Implicit Types (self : MultiHeadSelfAttention.t F) (Q K V X : Matrix F).

Lemma unmasked_row (i : nat) (row : Vector F) :
  length row ≤ S i → imap (λ j s, if i <? j then fmask else s) row = row.
Proof.
  intros Hlen. apply list_eq. intros j. rewrite list_lookup_imap.
  destruct (row !! j) as [s|] eqn:Hs; [|done]. simpl.
  apply lookup_lt_Some in Hs.
  destruct (Nat.ltb_spec i j) as [?|_]; [lia|done].
Qed.

(** Without keys after position [i], row [i] of the attention weights is
    the same with and without the mask. *)
Lemma attentionWeights_unmasked_row self Q K weights weights' i :
  length K ≤ S i →
  attentionWeights self Q K true = Some weights →
  attentionWeights self Q K false = Some weights' →
  weights !! i = weights' !! i.
Proof.
  intros Hlen. unfold attentionWeights. intros Hw Hw'.
  destruct (mapM _ Q) as [scores|] eqn:Hsc; simpl in Hw, Hw'; [|done].
  destruct (apply_mask scores !! 0); simpl in Hw; [|done].
  destruct (scores !! 0); simpl in Hw'; [|done].
  rewrite (mapM_lookup _ _ _ i Hw), (mapM_lookup _ _ _ i Hw').
  f_equal. unfold apply_mask. rewrite list_lookup_imap.
  destruct (scores !! i) as [srow|] eqn:Hsrow; [|done]. simpl. f_equal.
  apply unmasked_row.
  rewrite (mapM_lookup _ _ _ i Hsc) in Hsrow.
  destruct (Q !! i) as [Qi|]; simpl in Hsrow; [|done].
  by rewrite <- (length_mapM _ _ _ Hsrow).
Qed.

Lemma scaledDotProductAttention_unmasked_row self Q K V out out' i :
  length K ≤ S i →
  scaledDotProductAttention self Q K V true = Some out →
  scaledDotProductAttention self Q K V false = Some out' →
  out !! i = out' !! i.
Proof.
  intros Hlen. unfold scaledDotProductAttention. intros Ho Ho'.
  destruct (attentionWeights self Q K true) as [w|] eqn:Hw;
    simpl in Ho; [|done].
  destruct (attentionWeights self Q K false) as [w'|] eqn:Hw';
    simpl in Ho'; [|done].
  destruct (V !! 0) as [V0|]; simpl in Ho, Ho'; [|done].
  destruct (w !! 0) as [w0|] eqn:Hw0; simpl in Ho; [|done].
  destruct (w' !! 0) as [w0'|] eqn:Hw0'; simpl in Ho'; [|done].
  rewrite (mapM_lookup _ _ _ i Ho), (mapM_lookup _ _ _ i Ho').
  rewrite (attentionWeights_row_length _ _ _ _ _ _ _ Hw Hw0).
  rewrite (attentionWeights_row_length _ _ _ _ _ _ _ Hw' Hw0').
  by rewrite (attentionWeights_unmasked_row _ _ _ _ _ i Hlen Hw Hw').
Qed.

Lemma head_step_unmasked_row self Q_all K_all V_all n h cat cat' r r' i :
  length K_all ≤ S i → cat !! i = cat' !! i →
  head_step self Q_all K_all V_all true n h cat = Some r →
  head_step self Q_all K_all V_all false n h cat' = Some r' →
  r !! i = r' !! i.
Proof.
  intros Hlen Hcat. unfold head_step. intros Hr Hr'.
  destruct (alloc_size (headDim self)) as [D|]; simpl in *; [|done].
  destruct (split_head Q_all h D) as [Qh|] eqn:HQh; simpl in Hr, Hr'; [|done].
  destruct (split_head K_all h D) as [Kh|] eqn:HKh; simpl in Hr, Hr'; [|done].
  destruct (split_head V_all h D) as [Vh|] eqn:HVh; simpl in Hr, Hr'; [|done].
  destruct (scaledDotProductAttention self Qh Kh Vh true) as [ho|] eqn:Hho;
    simpl in Hr; [|done].
  destruct (scaledDotProductAttention self Qh Kh Vh false) as [ho'|] eqn:Hho';
    simpl in Hr'; [|done].
  eapply concat_head_row; [|exact Hcat|exact Hr|exact Hr'].
  eapply scaledDotProductAttention_unmasked_row; [|exact Hho|exact Hho'].
  unfold split_head in HKh. by rewrite <- (length_mapM _ _ _ HKh).
Qed.

Lemma forward_unmasked_row self X out out' :
  forward self X true = Some out → forward self X false = Some out' →
  out !! (length X - 1) = out' !! (length X - 1).
Proof.
  unfold forward. intros Ho Ho'.
  destruct (alloc_size (embeddingDim self)) as [E|]; simpl in *; [|done].
  destruct (mapM (λ x, matMul x (W_Q self)) X) as [Q_all|] eqn:HQ;
    simpl in Ho, Ho'; [|done].
  destruct (mapM (λ x, matMul x (W_K self)) X) as [K_all|] eqn:HK;
    simpl in Ho, Ho'; [|done].
  destruct (mapM (λ x, matMul x (W_V self)) X) as [V_all|] eqn:HVall;
    simpl in Ho, Ho'; [|done].
  destruct (for_range _ _ _ _) as [cat|] eqn:Hcat in Ho; simpl in Ho; [|done].
  destruct (for_range _ _ _ _) as [cat'|] eqn:Hcat' in Ho'; simpl in Ho'; [|done].
  rewrite (mapM_lookup _ _ _ _ Ho), (mapM_lookup _ _ _ _ Ho'). f_equal.
  refine (for_range_rel (λ _ a b, a !! (length X - 1) = b !! (length X - 1))
            0 _ _ _ _ _ cat cat' eq_refl _ Hcat Hcat').
  intros h a b a' b' _ Hab. apply head_step_unmasked_row; [|done].
  rewrite (length_mapM _ _ _ HK). lia.
Qed.

(** X15. The causal mask leaves the last position alone: for a valid
    module and [n > 0] input vectors, [forward] with and without the mask
    both return, and their rows [n - 1] are equal, since no score
    [scores[n - 1][j]] has [j > n - 1].  For a single input vector the two
    results are the same. *)
Theorem forward_mask_last_row self (E n : nat) X :
  attention_ok self E → 0 < n → has_shape n E X →
  ∃ masked unmasked,
    forward self X true = Some masked ∧
    forward self X false = Some unmasked ∧
    masked !! (n - 1) = unmasked !! (n - 1) ∧
    (n = 1 → masked = unmasked).
Proof.
  intros Hok Hn HX.
  destruct (forward_total self X true n E Hok Hn HX) as (m & Hm & Hshm).
  destruct (forward_total self X false n E Hok Hn HX) as (u & Hu & Hshu).
  exists m, u. split; [done|]. split; [done|].
  pose proof (forward_unmasked_row self X m u Hm Hu) as Hrow.
  destruct HX as [HlenX _]. rewrite HlenX in Hrow. split; [done|].
  intros ->. destruct Hshm as [Hlm _], Hshu as [Hlu _].
  apply list_eq. intros [|k]; [exact Hrow|].
  rewrite !(proj2 (lookup_ge_None _ _)); [done|lia|lia].
Qed.

(** X16. [forward] on a valid module with at least one head returns
    exactly for a non-empty input: for the empty sequence the first head
    reads [scores[0]] of an empty score matrix. *)
Theorem forward_returns_iff_nonempty self (E n : nat) X (mask : bool) :
  attention_ok self E → (0 < numHeads self)%Z → has_shape n E X →
  (∃ out, forward self X mask = Some out ∧ has_shape n E out) ↔ 0 < n.
Proof.
  intros Hok Hheads HX. split.
  - intros (out & Hout & _). destruct X as [|x X].
    + by rewrite forward_empty_input in Hout.
    + destruct HX as [<- _]. simpl. lia.
  - intros Hn. by apply (forward_total self X mask n E).
Qed.

End MoreAttention.

(** * Further properties: the constructors of the layers *)

Section MoreConstruction.
Context {F : Type} `{Scalar F} `{ScalarExp F}.

Lemma attention_new_valid (rnd : nat → F) (embedDim nHeads : Z) (calls : nat) :
  (0 < embedDim)%Z → (0 < nHeads)%Z → (nHeads | embedDim)%Z →
  ∃ a, MultiHeadSelfAttention.new rnd embedDim nHeads calls
       = Some (a, calls + 4 * (Z.to_nat embedDim * Z.to_nat embedDim)) ∧
       attention_valid a (Z.to_nat embedDim).
Proof.
  intros HE HH [q Hq]. unfold MultiHeadSelfAttention.new.
  destruct (Z.eqb_spec nHeads 0) as [?|_]; [lia|]. simpl.
  destruct (initializeMatrix_shape rnd embedDim embedDim calls)
    as (wq & -> & Hwq); [lia..|]. simpl.
  match goal with |- context [initializeMatrix rnd embedDim embedDim ?c] =>
    destruct (initializeMatrix_shape rnd embedDim embedDim c)
      as (wk & -> & Hwk); [lia..|] end. simpl.
  match goal with |- context [initializeMatrix rnd embedDim embedDim ?c] =>
    destruct (initializeMatrix_shape rnd embedDim embedDim c)
      as (wv & -> & Hwv); [lia..|] end. simpl.
  match goal with |- context [initializeMatrix rnd embedDim embedDim ?c] =>
    destruct (initializeMatrix_shape rnd embedDim embedDim c)
      as (wo & -> & Hwo); [lia..|] end. simpl.
  eexists. split; [do 2 f_equal; lia|].
  unfold attention_valid, heads_divide. simpl.
  split; [|split; [lia|split; [lia|done]]].
  split; [done|]. subst embedDim. rewrite Z.quot_mul by lia. lia.
Qed.

Lemma ffn_new_ok (rnd : nat → F) (inDim hDim : Z) (calls : nat) :
  (0 < inDim)%Z → (0 < hDim)%Z →
  ∃ f, FeedForwardNetwork.new rnd inDim hDim calls
       = Some (f, calls + (Z.to_nat inDim * Z.to_nat hDim
                           + Z.to_nat hDim * Z.to_nat inDim)) ∧
       ffn_ok f (Z.to_nat inDim).
Proof.
  intros Hi Hh. unfold FeedForwardNetwork.new.
  destruct (initializeMatrix_shape rnd inDim hDim calls)
    as (w1 & -> & Hw1); [lia..|]. simpl.
  match goal with |- context [initializeMatrix rnd hDim inDim ?c] =>
    destruct (initializeMatrix_shape rnd hDim inDim c)
      as (w2 & -> & Hw2); [lia..|] end. simpl.
  unfold alloc_size.
  destruct (Z.ltb_spec hDim 0) as [?|_]; [lia|].
  destruct (Z.ltb_spec inDim 0) as [?|_]; [lia|]. simpl.
  eexists. split; [do 2 f_equal; lia|].
  exists (Z.to_nat hDim). simpl. rewrite !length_replicate.
  split; [lia|]. done.
Qed.

Lemma encoder_layer_new_draws (rnd : nat → F) (embedDim nHeads hidden : Z)
    (calls : nat) :
  (0 < embedDim)%Z → (0 < nHeads)%Z → (0 < hidden)%Z → (nHeads | embedDim)%Z →
  ∃ l, EncoderLayer.new rnd embedDim nHeads hidden calls
       = Some (l, calls + encoder_layer_draws (Z.to_nat embedDim) (Z.to_nat hidden)) ∧
       encoder_layer_ok l (Z.to_nat embedDim).
Proof.
  intros HE HH Hh Hdiv. unfold EncoderLayer.new.
  destruct (attention_new_valid rnd embedDim nHeads calls HE HH Hdiv)
    as (a & -> & Ha). simpl.
  match goal with |- context [FeedForwardNetwork.new rnd embedDim hidden ?c] =>
    destruct (ffn_new_ok rnd embedDim hidden c HE Hh) as (f & -> & Hf) end.
  simpl. unfold alloc_size.
  destruct (Z.ltb_spec embedDim 0) as [?|_]; [lia|]. simpl.
  eexists. split; [unfold encoder_layer_draws; do 2 f_equal; lia|].
  unfold encoder_layer_ok. simpl. rewrite !length_replicate.
  split; [lia|]. done.
Qed.

Lemma decoder_layer_new_draws (rnd : nat → F) (embedDim nHeads hidden : Z)
    (calls : nat) :
  (0 < embedDim)%Z → (0 < nHeads)%Z → (0 < hidden)%Z → (nHeads | embedDim)%Z →
  ∃ l, DecoderLayer.new rnd embedDim nHeads hidden calls
       = Some (l, calls + (4 * (Z.to_nat embedDim * Z.to_nat embedDim)
                           + encoder_layer_draws (Z.to_nat embedDim)
                               (Z.to_nat hidden))) ∧
       decoder_layer_ok l (Z.to_nat embedDim) ∧
       decoder_layer_norms_initial l (Z.to_nat embedDim).
Proof.
  intros HE HH Hh Hdiv. unfold DecoderLayer.new.
  destruct (attention_new_valid rnd embedDim nHeads calls HE HH Hdiv)
    as (a1 & -> & Ha1). simpl.
  match goal with |- context [MultiHeadSelfAttention.new rnd embedDim nHeads ?c] =>
    destruct (attention_new_valid rnd embedDim nHeads c HE HH Hdiv)
      as (a2 & -> & Ha2) end. simpl.
  match goal with |- context [FeedForwardNetwork.new rnd embedDim hidden ?c] =>
    destruct (ffn_new_ok rnd embedDim hidden c HE Hh) as (f & -> & Hf) end.
  simpl. unfold alloc_size.
  destruct (Z.ltb_spec embedDim 0) as [?|_]; [lia|]. simpl.
  eexists. split; [unfold encoder_layer_draws; do 2 f_equal; lia|].
  split; [|by repeat split].
  unfold decoder_layer_ok. simpl. rewrite !length_replicate.
  split; [lia|]. done.
Qed.

(** X17. The constructor of [Encoder], in the documented case that
    [numHeads] divides [embedDim]: it builds [numLayers] valid layers (none
    for a negative [numLayers]), each from its own calls of [rand()],
    [4 E^2 + 2 E hidden] per layer, and [forward] of the new stack returns
    [n] vectors of length [E] for every input of that shape with
    [n > 0]. *)
Theorem encoder_new_valid (rnd : nat → F) (numL embedDim numHeads hidden : Z)
    (calls : nat) :
  (0 < embedDim)%Z → (0 < numHeads)%Z → (0 < hidden)%Z →
  (numHeads | embedDim)%Z →
  ∃ enc,
    Encoder.new rnd numL embedDim numHeads hidden calls
    = Some (enc, calls + Z.to_nat numL
                         * encoder_layer_draws (Z.to_nat embedDim)
                             (Z.to_nat hidden)) ∧
    length (Encoder.layers enc) = Z.to_nat numL ∧
    Forall (λ l, encoder_layer_ok l (Z.to_nat embedDim)) (Encoder.layers enc) ∧
    ∀ (n : nat) (input : Matrix F),
      0 < n → has_shape n (Z.to_nat embedDim) input →
      ∃ output, Encoder.forward enc input = Some output ∧
                has_shape n (Z.to_nat embedDim) output.
Proof.
  intros HE HH Hh Hdiv. unfold Encoder.new.
  set (draws := encoder_layer_draws (Z.to_nat embedDim) (Z.to_nat hidden)).
  match goal with |- context [for_range 0 ?k ?body ?s] =>
    destruct (for_range_inv
      (λ i (st : list (EncoderLayer.t F) * nat),
         length st.1 = i ∧
         Forall (λ l, encoder_layer_ok l (Z.to_nat embedDim)) st.1 ∧
         st.2 = calls + i * draws) 0 k body s)
      as ([ls c] & -> & Hlen & Hls & Hc) end.
  - simpl. split; [done|]. split; [constructor|lia].
  - intros i [ls c] _ (Hlen & Hls & Hc). simpl in Hlen, Hls, Hc.
    destruct (encoder_layer_new_draws rnd embedDim numHeads hidden c HE HH Hh Hdiv)
      as (l & -> & Hl). simpl.
    eexists. split; [reflexivity|]. simpl. rewrite length_app. simpl.
    split; [lia|]. split; [|fold draws; lia].
    apply Forall_app. split; [done|]. by constructor.
  - simpl in Hlen, Hls, Hc. simpl. eexists. split; [by rewrite Hc|].
    simpl. split; [done|]. split; [done|].
    intros n input Hn Hin. by apply encoder_layers_total.
Qed.

(** X18. The constructor of [Decoder], in the same case: [numLayers]
    valid decoder layers, each with two attention modules and a
    feed-forward network drawn from its own calls of [rand()],
    [8 E^2 + 2 E hidden] per layer, and in every layer all three [gamma]
    vectors are all ones and all three [beta] vectors all zeros. *)
Theorem decoder_new_valid (rnd : nat → F) (numL embedDim numHeads hidden : Z)
    (calls : nat) :
  (0 < embedDim)%Z → (0 < numHeads)%Z → (0 < hidden)%Z →
  (numHeads | embedDim)%Z →
  ∃ dec,
    Decoder.new rnd numL embedDim numHeads hidden calls
    = Some (dec, calls + Z.to_nat numL
                         * (4 * (Z.to_nat embedDim * Z.to_nat embedDim)
                            + encoder_layer_draws (Z.to_nat embedDim)
                                (Z.to_nat hidden))) ∧
    length (Decoder.layers dec) = Z.to_nat numL ∧
    Forall (λ l, decoder_layer_ok l (Z.to_nat embedDim)) (Decoder.layers dec) ∧
    Forall (λ l, decoder_layer_norms_initial l (Z.to_nat embedDim))
      (Decoder.layers dec).
Proof.
  intros HE HH Hh Hdiv. unfold Decoder.new.
  set (draws := 4 * (Z.to_nat embedDim * Z.to_nat embedDim)
                + encoder_layer_draws (Z.to_nat embedDim) (Z.to_nat hidden)).
  match goal with |- context [for_range 0 ?k ?body ?s] =>
    destruct (for_range_inv
      (λ i (st : list (DecoderLayer.t F) * nat),
         length st.1 = i ∧
         Forall (λ l, decoder_layer_ok l (Z.to_nat embedDim)) st.1 ∧
         Forall (λ l, decoder_layer_norms_initial l (Z.to_nat embedDim)) st.1 ∧
         st.2 = calls + i * draws) 0 k body s)
      as ([ls c] & -> & Hlen & Hls & Hnorms & Hc) end.
  - simpl. split; [done|]. split; [constructor|]. split; [constructor|lia].
  - intros i [ls c] _ (Hlen & Hls & Hnorms & Hc). simpl in Hlen, Hls, Hnorms, Hc.
    destruct (decoder_layer_new_draws rnd embedDim numHeads hidden c HE HH Hh Hdiv)
      as (l & -> & Hl & Hn). simpl.
    eexists. split; [reflexivity|]. simpl. rewrite length_app. simpl.
    split; [lia|]. split; [|split; [|fold draws; lia]].
    + apply Forall_app. split; [done|]. by constructor.
    + apply Forall_app. split; [done|]. by constructor.
  - simpl in Hlen, Hls, Hnorms, Hc. simpl. eexists. split; [by rewrite Hc|].
    simpl. done.
Qed.

(** X19. The constructor of [MultiHeadSelfAttention] fails in two cases
    only: [nHeads = 0], where [embedDim / nHeads] divides by zero, and a
    negative [embedDim], which is no size of a matrix.  A negative
    [nHeads] is accepted. *)
Theorem attention_new_fails_iff (rnd : nat → F) (embedDim nHeads : Z)
    (calls : nat) :
  MultiHeadSelfAttention.new rnd embedDim nHeads calls = None
  ↔ nHeads = 0%Z ∨ (embedDim < 0)%Z.
Proof.
  unfold MultiHeadSelfAttention.new, initializeMatrix, alloc_size.
  destruct (Z.eqb_spec nHeads 0) as [Hz|Hnz]; simpl.
  - split; [by left|done].
  - destruct (Z.ltb_spec embedDim 0) as [Hneg|Hpos]; simpl.
    + split; [by right|done].
    + split; [done|]. intros [?|?]; [done|lia].
Qed.

End MoreConstruction.

(** * Further properties: the embeddings *)

Section MoreEmbeddings.
Context {F : Type} `{Scalar F}.
Import Embeddings.

Lemma add_same_length (a b : Vector F) :
  length a ≤ length b → add a b = Some (zip_with fadd a b).
Proof.
  intros Hlen. apply tabulate_Some. split.
  - rewrite length_zip_with. lia.
  - intros i Hi. rewrite lookup_zip_with.
    destruct (lookup_lt_is_Some_2 a i) as [x ->]; [lia|].
    by destruct (lookup_lt_is_Some_2 b i) as [y ->]; [lia|].
Qed.

Lemma at_int_Some {A : Type} (v : list A) (i : Z) (x : A) :
  at_int v i = Some x ↔ (0 ≤ i)%Z ∧ v !! Z.to_nat i = Some x.
Proof.
  unfold at_int. destruct (Z.ltb_spec i 0) as [Hneg|Hpos].
  - split; [done|]. intros [? _]. lia.
  - split; [done|]. by intros [_ ?].
Qed.

Lemma at_int_None {A : Type} (v : list A) (i : Z) :
  at_int v i = None ↔ (i < 0)%Z ∨ (Z.of_nat (length v) ≤ i)%Z.
Proof.
  unfold at_int. destruct (Z.ltb_spec i 0) as [Hneg|Hpos].
  - split; [by left|done].
  - rewrite lookup_ge_None. lia.
Qed.

(** X20. [getEmbedding] on tables for [V] words and [M] positions of
    dimension [E]: for a token index in [0 .. V - 1] and a position in
    [0 .. M - 1] it returns the entry-wise sum of the word embedding and the
    positional encoding, a vector of length [E]; any other index or
    position, a position [>= M] included, reads a table out of range. *)
Theorem getEmbedding_sum_or_out_of_range (e : Embeddings.t F) (V E M : nat)
    (tokenIndex position : Z) :
  embeddings_ok e V E M →
  ((0 ≤ tokenIndex < Z.of_nat V)%Z ∧ (0 ≤ position < Z.of_nat M)%Z →
   ∃ w p, wordEmbeddings e !! Z.to_nat tokenIndex = Some w ∧
          positionalEncodings e !! Z.to_nat position = Some p ∧
          getEmbedding e tokenIndex position = Some (zip_with fadd w p) ∧
          length (zip_with fadd w p) = E) ∧
  (¬ ((0 ≤ tokenIndex < Z.of_nat V)%Z ∧ (0 ≤ position < Z.of_nat M)%Z) →
   getEmbedding e tokenIndex position = None).
Proof.
  intros [[HlenW HrowsW] [HlenP HrowsP]]. unfold getEmbedding. split.
  - intros [Htok Hpos].
    destruct (lookup_lt_is_Some_2 (wordEmbeddings e) (Z.to_nat tokenIndex))
      as [w Hw]; [lia|].
    destruct (lookup_lt_is_Some_2 (positionalEncodings e) (Z.to_nat position))
      as [p Hp]; [lia|].
    exists w, p. split; [done|]. split; [done|].
    pose proof (HrowsW _ _ Hw) as Hlw. pose proof (HrowsP _ _ Hp) as Hlp.
    rewrite (proj2 (at_int_Some _ tokenIndex w)) by (split; [lia|done]).
    rewrite (proj2 (at_int_Some _ position p)) by (split; [lia|done]).
    simpl. split; [apply add_same_length; lia|].
    rewrite length_zip_with. lia.
  - intros Hout.
    destruct (at_int (wordEmbeddings e) tokenIndex) as [w|] eqn:Hw; [|done].
    simpl.
    destruct (at_int (positionalEncodings e) position) as [p|] eqn:Hp; [|done].
    exfalso. apply Hout.
    apply at_int_Some in Hw as [Htok Hw]. apply at_int_Some in Hp as [Hpos Hp].
    apply lookup_lt_Some in Hw. apply lookup_lt_Some in Hp. lia.
Qed.

Context `{ScalarTrig F}.

Lemma generatePositionalEncodings_shape (maxSeqLen embedDim : Z) :
  (0 ≤ maxSeqLen)%Z → (0 ≤ embedDim)%Z →
  ∃ pe, generatePositionalEncodings maxSeqLen embedDim = Some pe ∧
        has_shape (Z.to_nat maxSeqLen) (Z.to_nat embedDim) pe.
Proof.
  intros HM HE. unfold generatePositionalEncodings, alloc_size.
  destruct (Z.ltb_spec embedDim 0) as [?|_]; [lia|].
  destruct (Z.ltb_spec maxSeqLen 0) as [?|_]; [lia|]. simpl.
  eexists. split; [reflexivity|]. split.
  - by rewrite length_fmap, length_seq.
  - intros i row. rewrite list_lookup_fmap.
    destruct (seq 0 (Z.to_nat maxSeqLen) !! i); simpl; [|done].
    intros [= <-]. by rewrite length_fmap, length_seq.
Qed.

Lemma embeddings_new_ok (rnd : nat → F) (vocabSize embedDim maxSeqLen : Z)
    (calls : nat) :
  (0 ≤ vocabSize)%Z → (0 ≤ embedDim)%Z → (0 ≤ maxSeqLen)%Z →
  ∃ e, Embeddings.new rnd vocabSize embedDim maxSeqLen calls
       = Some (e, calls + Z.to_nat vocabSize * Z.to_nat embedDim) ∧
       embeddings_ok e (Z.to_nat vocabSize) (Z.to_nat embedDim)
         (Z.to_nat maxSeqLen) ∧
       maxSequenceLength e = maxSeqLen ∧
       ∀ t j, t < Z.to_nat vocabSize → j < Z.to_nat embedDim →
         wordEmbeddings e !! t ≫= (.!! j)
         = Some (rnd (calls + t * Z.to_nat embedDim + j)).
Proof.
  intros HV HE HM. unfold Embeddings.new.
  destruct (initializeMatrix_shape rnd vocabSize embedDim calls HV HE)
    as (words & Hwords & Hsh).
  rewrite Hwords. simpl.
  destruct (generatePositionalEncodings_shape maxSeqLen embedDim HM HE)
    as (pe & -> & Hpe). simpl.
  eexists. split; [reflexivity|]. split; [done|]. split; [done|]. simpl.
  intros t j Ht Hj. unfold initializeMatrix, alloc_size in Hwords.
  destruct (Z.ltb_spec vocabSize 0) as [?|_]; [lia|].
  destruct (Z.ltb_spec embedDim 0) as [?|_]; [lia|]. simpl in Hwords.
  injection Hwords as <-.
  rewrite list_lookup_fmap, lookup_seq_lt by done. simpl.
  by rewrite list_lookup_fmap, lookup_seq_lt.
Qed.

(** X21. The constructor of [Embeddings] returns exactly for
    non-negative sizes.  It then makes [vocabSize * embedDim] calls of
    [rand()] and stores them row by row: entry [j] of the embedding of
    word [t] is draw number [t * embedDim + j]; the tables have
    [vocabSize] and [maxSeqLen] rows of length [embedDim]. *)
Theorem embeddings_new_tables (rnd : nat → F) (vocabSize embedDim maxSeqLen : Z)
    (calls : nat) :
  ((0 ≤ vocabSize)%Z ∧ (0 ≤ embedDim)%Z ∧ (0 ≤ maxSeqLen)%Z →
   ∃ e, Embeddings.new rnd vocabSize embedDim maxSeqLen calls
        = Some (e, calls + Z.to_nat vocabSize * Z.to_nat embedDim) ∧
        embeddings_ok e (Z.to_nat vocabSize) (Z.to_nat embedDim)
          (Z.to_nat maxSeqLen) ∧
        getEmbeddingDim e = embedDim ∧ getMaxSequenceLength e = maxSeqLen ∧
        ∀ t j, t < Z.to_nat vocabSize → j < Z.to_nat embedDim →
          wordEmbeddings e !! t ≫= (.!! j)
          = Some (rnd (calls + t * Z.to_nat embedDim + j))) ∧
  (¬ ((0 ≤ vocabSize)%Z ∧ (0 ≤ embedDim)%Z ∧ (0 ≤ maxSeqLen)%Z) →
   Embeddings.new rnd vocabSize embedDim maxSeqLen calls = None).
Proof.
  split.
  - intros (HV & HE & HM).
    destruct (embeddings_new_ok rnd vocabSize embedDim maxSeqLen calls HV HE HM)
      as (e & Hnew & Hok & Hmax & Hdraw).
    exists e. split; [done|]. split; [done|]. split; [|done].
    unfold Embeddings.new in Hnew.
    destruct (initializeMatrix _ _ _ _) as [[words c]|]; simpl in Hnew; [|done].
    destruct (generatePositionalEncodings _ _) as [pe|]; simpl in Hnew; [|done].
    by injection Hnew as <- _.
  - intros Hneg. unfold Embeddings.new, initializeMatrix,
      generatePositionalEncodings, alloc_size.
    destruct (Z.ltb_spec vocabSize 0) as [?|HV]; [done|].
    destruct (Z.ltb_spec embedDim 0) as [?|HE]; [done|]. simpl.
    destruct (Z.ltb_spec maxSeqLen 0) as [?|HM]; [done|]. lia.
Qed.

End MoreEmbeddings.

(** * Further properties: the prediction *)

Section MorePrediction.
Context {F : Type} `{Scalar F} `{ScalarExp F}.
Import Transformer.

Lemma tabulate_ext {A : Type} (n : nat) (f g : nat → option A) :
  (∀ i, i < n → f i = g i) → tabulate n f = tabulate n g.
Proof.
  intros Hfg. unfold tabulate. apply Forall_mapM_ext, Forall_forall.
  intros i Hi%elem_of_seq. apply Hfg. lia.
Qed.

Lemma highest_probability_index (l : Vector F) :
  (highest_probability l).1 = 0 ∨ (highest_probability l).1 < length l.
Proof.
  unfold highest_probability. induction l as [|p l IH] using rev_ind.
  - by left.
  - rewrite imap_app, foldl_app. cbn [imap foldl].
    destruct (foldl _ _ (imap pair l)) as [k m]. simpl in IH.
    rewrite length_app. simpl. destruct (fltb m p); simpl; lia.
Qed.

Lemma predictedIndex_lt (l : Vector F) : l ≠ [] → predictedIndex l < length l.
Proof.
  intros Hne. unfold predictedIndex.
  destruct (highest_probability_index l) as [->|?]; [|done].
  destruct l; [done|simpl; lia].
Qed.

(** The row of the encoder input for one token. *)
Lemma encoder_input_row (m : Transformer.t F) (V E M : nat) (token : string)
    (i : nat) :
  transformer_ok m V E M →
  (M ≤ i → Tokenizer.encode (tokenizer m) token = (-1)%Z) →
  ∃ row,
    (if (Tokenizer.encode (tokenizer m) token =? -1)%Z
     then Some (replicate E fzero)
     else Embeddings.getEmbedding (embeddings m)
            (Tokenizer.encode (tokenizer m) token) (Z.of_nat i)) = Some row ∧
    length row = E.
Proof.
  intros (HV & HE & HEm & (ws & Hnum & Hws) & [[HlenW HrowsW] [HlenP HrowsP]]
          & _) Hpos.
  destruct (Z.eqb_spec (Tokenizer.encode (tokenizer m) token) (-1)) as [Hunk|Hknown].
  - eexists. split; [done|]. by rewrite length_replicate.
  - assert (i < M) as Hi by (destruct (decide (i < M)); [done|]; lia).
    unfold Tokenizer.encode in *.
    destruct (Tokenizer.wordToIndex (tokenizer m) !! lowercase token)
      as [index|] eqn:Hlook; [|done].
    destruct Hnum as (_ & _ & Hwi & _). apply Hwi in Hlook as [Hidx Hin].
    apply lookup_lt_Some in Hin.
    destruct (lookup_lt_is_Some_2 (Embeddings.wordEmbeddings (embeddings m))
                (Z.to_nat index)) as [w Hw]; [lia|].
    destruct (lookup_lt_is_Some_2 (Embeddings.positionalEncodings (embeddings m)) i)
      as [p Hp]; [lia|].
    unfold Embeddings.getEmbedding.
    rewrite (proj2 (at_int_Some _ index w)) by done.
    rewrite (proj2 (at_int_Some _ (Z.of_nat i) p))
      by (split; [lia|by rewrite Nat2Z.id]).
    simpl. pose proof (HrowsW _ _ Hw). pose proof (HrowsP _ _ Hp).
    rewrite add_same_length by lia. eexists. split; [done|].
    rewrite length_zip_with. lia.
Qed.

Lemma predictNextWord_total (m : Transformer.t F) (V E M : nat)
    (sentence : string) :
  transformer_ok m V E M →
  read_words sentence ≠ [] →
  (∀ i token, read_words sentence !! i = Some token → M ≤ i →
              Tokenizer.encode (tokenizer m) token = (-1)%Z) →
  ∃ word index,
    predictNextWord m sentence = Some word ∧
    (0 ≤ index < Z.of_nat V)%Z ∧
    Tokenizer.indexToWord (tokenizer m) !! index = Some word.
Proof.
  intros Hok Hne Hpos. unfold predictNextWord.
  destruct (read_words sentence) as [|t ts] eqn:Htokens; [done|].
  set (tokens := t :: ts) in *.
  pose proof Hok as (HV & HE & HEm & (ws & Hnum & Hws) & Hemb & Hlayers & Hout).
  unfold alloc_size. rewrite HEm.
  destruct (Z.ltb_spec (Z.of_nat E) 0) as [?|_]; [lia|].
  cbn [mbind option_bind]. rewrite Nat2Z.id.
  match goal with |- context [tabulate ?n ?f] =>
    destruct (tabulate_total n f) as [input Hinput] end.
  { intros i Hi. destruct (lookup_lt_is_Some_2 tokens i) as [token Htoken];
      [done|]. rewrite Htoken. simpl.
    destruct (encoder_input_row m V E M token i Hok) as (row & -> & _);
      [by apply (Hpos i)|done]. }
  rewrite Hinput. cbn [mbind option_bind].
  assert (has_shape (length tokens) E input) as Hshape.
  { split; [by apply tabulate_length in Hinput|]. intros i row Hrow.
    pose proof (lookup_lt_Some _ _ _ Hrow) as Hi.
    rewrite (tabulate_length _ _ _ Hinput) in Hi.
    rewrite (tabulate_lookup _ _ _ i Hinput Hi) in Hrow.
    destruct (tokens !! i) as [token|] eqn:Htoken; simpl in Hrow; [|done].
    destruct (encoder_input_row m V E M token i Hok) as (row' & Hrow' & Hlen);
      [by apply (Hpos i)|]. congruence. }
  destruct (encoder_layers_total (Encoder.layers (encoder m)) E (length tokens)
              input Hlayers) as (output & Houtput & [Hlen Hrows]);
    [simpl; lia|done|].
  unfold Encoder.forward. rewrite Houtput. cbn [mbind option_bind].
  destruct (lookup_lt_is_Some_2 output (length output - 1)) as [last Hlast];
    [rewrite Hlen; simpl; lia|].
  rewrite Hlast. cbn [mbind option_bind].
  destruct (matMul_total last (outputLayerWeights m) E V Hout HE)
    as (logits & -> & Hlogits); [by rewrite (Hrows _ _ Hlast)|].
  cbn [mbind option_bind].
  destruct (softmax_total logits) as (probabilities & -> & Hprobs);
    [by destruct logits; [simpl in Hlogits; lia|]|].
  cbn [mbind option_bind].
  assert (predictedIndex probabilities < V) as Hidx.
  { rewrite <- Hlogits, <- Hprobs. apply predictedIndex_lt.
    destruct probabilities; [simpl in Hprobs; lia|done]. }
  destruct (lookup_lt_is_Some_2 ws (predictedIndex probabilities)) as [word Hword];
    [lia|].
  destruct Hnum as (_ & _ & _ & Hiw).
  assert (Tokenizer.indexToWord (tokenizer m)
            !! Z.of_nat (predictedIndex probabilities) = Some word) as Hdec.
  { apply Hiw. split; [lia|]. by rewrite Nat2Z.id. }
  exists word, (Z.of_nat (predictedIndex probabilities)).
  split; [|split; [lia|done]].
  unfold Tokenizer.decode. by rewrite Hdec.
Qed.

(** X23. [predictNextWord] on a built model with a vocabulary of [V]
    words and positional encodings for [M] positions, for a sentence with
    at least one token: if every token at a position [>= M] is unknown to
    the tokenizer, the call returns a word of the vocabulary, the one of
    an index in [0 .. V - 1], and never the ["<unk>"] of [decode]; unknown
    tokens count as zero vectors.  A known token at a position [>= M] reads
    the positional encodings out of range. *)
Theorem predictNextWord_returns_vocabulary_word (m : Transformer.t F)
    (V E M : nat) (sentence : string) :
  transformer_ok m V E M →
  read_words sentence ≠ [] →
  ((∀ i token, read_words sentence !! i = Some token → M ≤ i →
               Tokenizer.encode (tokenizer m) token = (-1)%Z) →
   ∃ word index,
     predictNextWord m sentence = Some word ∧
     (0 ≤ index < Z.of_nat V)%Z ∧
     Tokenizer.indexToWord (tokenizer m) !! index = Some word) ∧
  ((∃ i token, read_words sentence !! i = Some token ∧ M ≤ i ∧
               Tokenizer.encode (tokenizer m) token ≠ (-1)%Z) →
   predictNextWord m sentence = None).
Proof.
  intros Hok Hne. split; [by apply (predictNextWord_total m V E M)|].
  intros (i & token & Htoken & Hi & Hknown). unfold predictNextWord.
  destruct (read_words sentence) as [|t ts] eqn:Htokens; [done|].
  destruct (alloc_size (embeddingDim m)) as [E'|]; [|done].
  cbn [mbind option_bind].
  match goal with |- context [tabulate ?n ?f] =>
    assert (tabulate n f = None) as -> end; [|done].
  apply mapM_None, Exists_exists. exists i. split.
  - apply elem_of_seq. apply lookup_lt_Some in Htoken. lia.
  - rewrite Htoken. simpl.
    destruct (Z.eqb_spec (Tokenizer.encode (tokenizer m) token) (-1)) as [?|_];
      [done|].
    unfold Embeddings.getEmbedding.
    destruct (Embeddings.at_int (Embeddings.wordEmbeddings _) _); [|done].
    simpl.
    rewrite (proj2 (at_int_None _ (Z.of_nat i))); [done|].
    right. destruct Hok as (_ & _ & _ & _ & [_ [-> _]] & _). lia.
Qed.

(** X24. Before [build], while [outputLayerWeights] is empty,
    [predictNextWord] has no defined result for any sentence with a token:
    whatever the encoder does, [matMul] reads row 0 of the empty matrix. *)
Theorem predictNextWord_without_output_weights (m : Transformer.t F)
    (sentence : string) :
  outputLayerWeights m = [] →
  read_words sentence ≠ [] →
  predictNextWord m sentence = None.
Proof.
  intros Hweights Hne. unfold predictNextWord.
  destruct (read_words sentence) as [|t ts]; [done|].
  destruct (alloc_size (embeddingDim m)) as [E|]; [|done].
  cbn [mbind option_bind].
  destruct (tabulate _ _) as [input|]; [|done]. cbn [mbind option_bind].
  destruct (Encoder.forward (encoder m) input) as [output|]; [|done].
  cbn [mbind option_bind].
  destruct (output !! (length output - 1)) as [last|]; [|done].
  cbn [mbind option_bind]. unfold matMul. by rewrite Hweights.
Qed.

Lemma encode_lowercase (tk : Tokenizer.t) (word : string) :
  Tokenizer.encode tk (lowercase word) = Tokenizer.encode tk word.
Proof. unfold Tokenizer.encode. by rewrite lowercase_idemp. Qed.

(** X25. The prediction does not see the case of the letters: the
    sentence in lower case gives the same result, error or word, as the
    sentence itself, since [encode] lowers every token and white space has
    no case. *)
Theorem predictNextWord_lowercase (m : Transformer.t F) (sentence : string) :
  predictNextWord m (lowercase sentence) = predictNextWord m sentence.
Proof.
  unfold predictNextWord. rewrite read_words_lowercase.
  destruct (read_words sentence) as [|t ts] eqn:Htokens; [done|].
  set (tokens := t :: ts).
  destruct (lowercase <$> tokens) as [|t' ts'] eqn:Hlower; [done|].
  rewrite <- Hlower. clear t' ts' Hlower.
  destruct (alloc_size (embeddingDim m)) as [E|]; [|done].
  cbn [mbind option_bind]. rewrite length_fmap.
  match goal with |- ?a ≫= _ = ?b ≫= _ => assert (a = b) as ->; [|done] end.
  apply tabulate_ext. intros i Hi. rewrite list_lookup_fmap.
  destruct (tokens !! i) as [token|]; [|done]. simpl.
  by rewrite encode_lowercase.
Qed.

End MorePrediction.

(** * Further properties: construction of the model and [main] *)

Section MoreModel.
Context {F : Type} `{Scalar F} `{ScalarExp F} `{ScalarTrig F}.
Import Transformer.

Lemma encoder_new_total (rnd : nat → F) (numL embedDim numHeads hidden : Z)
    (calls : nat) :
  (0 < embedDim)%Z → (0 < numHeads)%Z → (0 < hidden)%Z →
  (numHeads | embedDim)%Z →
  ∃ enc calls',
    Encoder.new rnd numL embedDim numHeads hidden calls = Some (enc, calls') ∧
    Forall (λ l, encoder_layer_ok l (Z.to_nat embedDim)) (Encoder.layers enc).
Proof.
  intros HE HH Hh Hdiv. unfold Encoder.new.
  match goal with |- context [for_range 0 ?k ?body ?s] =>
    destruct (for_range_inv
      (λ _ (st : list (EncoderLayer.t F) * nat),
         Forall (λ l, encoder_layer_ok l (Z.to_nat embedDim)) st.1) 0 k body s)
      as ([ls c] & -> & Hls) end.
  - constructor.
  - intros i [ls c] _ Hls. simpl in Hls.
    destruct (encoder_layer_new_ok rnd embedDim numHeads hidden c HE HH Hh Hdiv)
      as (l & c' & -> & Hl). simpl.
    eexists. split; [reflexivity|]. simpl.
    apply Forall_app. split; [done|]. by constructor.
  - simpl. by eexists _, _.
Qed.

Lemma decoder_new_total (rnd : nat → F) (numL embedDim numHeads hidden : Z)
    (calls : nat) :
  (0 < embedDim)%Z → (0 < numHeads)%Z → (0 < hidden)%Z →
  (numHeads | embedDim)%Z →
  ∃ dec calls',
    Decoder.new rnd numL embedDim numHeads hidden calls = Some (dec, calls').
Proof.
  intros HE HH Hh Hdiv. unfold Decoder.new.
  match goal with |- context [for_range 0 ?k ?body ?s] =>
    destruct (for_range_inv
      (λ _ (st : list (DecoderLayer.t F) * nat), True) 0 k body s)
      as ([ls c] & -> & _) end.
  - done.
  - intros i [ls c] _ _.
    destruct (decoder_layer_new_draws rnd embedDim numHeads hidden c HE HH Hh Hdiv)
      as (l & -> & _). simpl. by eexists.
  - simpl. by eexists _, _.
Qed.

Lemma first_occurrences_length (ws : list string) :
  ws ≠ [] → 0 < length (first_occurrences ws).
Proof.
  intros Hne. destruct ws as [|w ws]; [done|].
  assert (w ∈ first_occurrences (w :: ws)) as Hin
    by apply first_occurrences_elem, list_elem_of_here.
  destruct (first_occurrences (w :: ws)); [by apply elem_of_nil in Hin|].
  simpl. lia.
Qed.

Lemma transformer_build_total (rnd : nat → F) (indeterminate : Z)
    (embedDim numHeads hidden numL maxSeqLen : Z) (corpus : list string)
    (calls : nat) :
  (0 < embedDim)%Z → (0 < numHeads)%Z → (0 < hidden)%Z →
  (numHeads | embedDim)%Z → (0 ≤ maxSeqLen)%Z →
  corpus_words corpus ≠ [] →
  ∃ m0 calls0 m calls',
    Transformer.new rnd indeterminate embedDim numHeads hidden numL maxSeqLen calls
    = Some (m0, calls0) ∧
    outputLayerWeights m0 = [] ∧
    Transformer.build rnd m0 corpus calls0 = Some (m, calls') ∧
    tokenizer m = Tokenizer.buildVocabulary Tokenizer.empty corpus ∧
    Transformer.vocabSize m
    = Z.of_nat (length (first_occurrences (corpus_words corpus))) ∧
    transformer_ok m (length (first_occurrences (corpus_words corpus)))
      (Z.to_nat embedDim) (Z.to_nat maxSeqLen).
Proof.
  intros HE HH Hh Hdiv HM Hcorpus.
  destruct (embeddings_new_ok rnd 1 embedDim maxSeqLen calls)
    as (e0 & He0 & _ & Hmax & _); [lia..|].
  destruct (encoder_new_total rnd numL embedDim numHeads hidden
              (calls + Z.to_nat 1 * Z.to_nat embedDim) HE HH Hh Hdiv)
    as (enc & c1 & Hencnew & Henc).
  destruct (decoder_new_total rnd numL embedDim numHeads hidden c1 HE HH Hh Hdiv)
    as (dec & c2 & Hdecnew).
  pose proof (buildVocabulary_numbered corpus) as Hnum.
  pose proof Hnum as (_ & Hsize & _).
  set (ws := first_occurrences (corpus_words corpus)) in *.
  destruct (embeddings_new_ok rnd (Z.of_nat (length ws)) embedDim maxSeqLen c2)
    as (e & Henew & He & _); [lia..|].
  destruct (initializeMatrix_shape rnd embedDim (Z.of_nat (length ws))
              (c2 + Z.to_nat (Z.of_nat (length ws)) * Z.to_nat embedDim))
    as (w & Hwnew & Hw); [lia..|].
  rewrite Nat2Z.id in He, Hw.
  exists {| tokenizer := Tokenizer.empty; embeddings := e0; encoder := enc;
            decoder := dec; outputLayerWeights := [];
            embeddingDim := embedDim; vocabSize := indeterminate |}, c2,
         {| tokenizer := Tokenizer.buildVocabulary Tokenizer.empty corpus;
            embeddings := e; encoder := enc; decoder := dec;
            outputLayerWeights := w; embeddingDim := embedDim;
            vocabSize := Z.of_nat (length ws) |}.
  eexists. split.
  { unfold Transformer.new. rewrite He0. cbn [mbind option_bind].
    rewrite Hencnew. cbn [mbind option_bind]. by rewrite Hdecnew. }
  split; [done|]. split.
  { unfold Transformer.build. cbn [tokenizer embeddings embeddingDim].
    unfold Tokenizer.getVocabSize, Embeddings.getMaxSequenceLength.
    rewrite Hsize, Hmax, Henew. cbn [mbind option_bind].
    rewrite Hwnew. cbn [mbind option_bind]. reflexivity. }
  split; [done|]. split; [done|].
  unfold transformer_ok. simpl.
  split; [by apply first_occurrences_length|]. split; [lia|].
  split; [lia|]. split; [by exists ws|]. done.
Qed.

(** X26. Constructor and [build], in the documented case that
    [numHeads] divides [embedDim], for a corpus with at least one word.
    The constructor leaves [outputLayerWeights] empty, so that
    [predictNextWord] has no defined result yet; [build] then fills the
    vocabulary, and replaces the indeterminate [vocabSize], the embeddings
    and the output weights by ones of the size of the vocabulary: the
    model is well formed. *)
Theorem transformer_new_then_build (rnd : nat → F) (indeterminate : Z)
    (embedDim numHeads hidden numL maxSeqLen : Z) (corpus : list string)
    (calls : nat) :
  (0 < embedDim)%Z → (0 < numHeads)%Z → (0 < hidden)%Z →
  (numHeads | embedDim)%Z → (0 ≤ maxSeqLen)%Z →
  corpus_words corpus ≠ [] →
  ∃ m0 calls0 m calls',
    Transformer.new rnd indeterminate embedDim numHeads hidden numL maxSeqLen calls
    = Some (m0, calls0) ∧
    (∀ sentence, read_words sentence ≠ [] → predictNextWord m0 sentence = None) ∧
    Transformer.build rnd m0 corpus calls0 = Some (m, calls') ∧
    Transformer.vocabSize m = Tokenizer.getVocabSize (tokenizer m) ∧
    transformer_ok m (Z.to_nat (Transformer.vocabSize m))
      (Z.to_nat embedDim) (Z.to_nat maxSeqLen).
Proof.
  intros HE HH Hh Hdiv HM Hcorpus.
  destruct (transformer_build_total rnd indeterminate embedDim numHeads hidden
              numL maxSeqLen corpus calls HE HH Hh Hdiv HM Hcorpus)
    as (m0 & calls0 & m & calls' & Hnew & Hempty & Hbuild & Htok & Hsize & Hok).
  exists m0, calls0, m, calls'. split; [done|]. split.
  - intros sentence Hne. unfold predictNextWord.
    destruct (read_words sentence) as [|t ts]; [done|].
    destruct (alloc_size (embeddingDim m0)) as [E|]; [|done].
    cbn [mbind option_bind].
    destruct (tabulate _ _) as [input|]; [|done]. cbn [mbind option_bind].
    destruct (Encoder.forward (encoder m0) input) as [output|]; [|done].
    cbn [mbind option_bind].
    destruct (output !! (length output - 1)) as [last|]; [|done].
    cbn [mbind option_bind]. unfold matMul. by rewrite Hempty.
  - split; [done|]. split.
    + rewrite Hsize, Htok. symmetry.
      apply (buildVocabulary_numbered corpus).
    + by rewrite Hsize, Nat2Z.id.
Qed.

(** Constructor, [build] and [predictNextWord] one after the other, as in
    [main]. *)
Lemma new_build_predict (rnd : nat → F) (indeterminate : Z)
    (embedDim numHeads hidden numL maxSeqLen : Z) (corpus : list string)
    (calls : nat) :
  (0 < embedDim)%Z → (0 < numHeads)%Z → (0 < hidden)%Z →
  (numHeads | embedDim)%Z → (0 ≤ maxSeqLen)%Z →
  corpus_words corpus ≠ [] →
  ∃ m,
    (∀ sentence,
       ('(transformer, calls) ←
          Transformer.new rnd indeterminate embedDim numHeads hidden numL
            maxSeqLen calls;
        '(transformer, _) ← Transformer.build rnd transformer corpus calls;
        predictNextWord transformer sentence)
       = predictNextWord m sentence) ∧
    tokenizer m = Tokenizer.buildVocabulary Tokenizer.empty corpus ∧
    transformer_ok m (length (first_occurrences (corpus_words corpus)))
      (Z.to_nat embedDim) (Z.to_nat maxSeqLen).
Proof.
  intros HE HH Hh Hdiv HM Hcorpus.
  destruct (transformer_build_total rnd indeterminate embedDim numHeads hidden
              numL maxSeqLen corpus calls HE HH Hh Hdiv HM Hcorpus)
    as (m0 & calls0 & m & calls' & Hnew & _ & Hbuild & Htok & _ & Hok).
  exists m. split; [|by split].
  intros sentence. rewrite Hnew. cbn [mbind option_bind].
  rewrite Hbuild. reflexivity.
Qed.

(** The vocabulary of the corpus of [main]. *)
Lemma main_vocabulary :
  first_occurrences (corpus_words Main.corpus)
  = ["the"; "quick"; "brown"; "fox"; "jumps"; "over"; "lazy"; "dog";
     "barks"; "loudly"; "is"; "a"; "clever"; "animal"]%string.
Proof. vm_compute. reflexivity. Qed.

Lemma main_corpus_words : corpus_words Main.corpus ≠ [].
Proof. by vm_compute. Qed.

Lemma main_heads_divide : (Main.NUM_HEADS | Main.EMBEDDING_DIM)%Z.
Proof. by exists 16%Z. Qed.

(** X27. The program [main]: whatever [rand()] returns and whatever the
    line read from the standard input, if the line has between 1 and 100
    tokens, the predicted word is one of the fourteen words of the
    corpus. *)
Theorem main_predicts_corpus_word (rnd : nat → F) (indeterminate : Z)
    (sentence : string) :
  read_words sentence ≠ [] →
  length (read_words sentence) ≤ 100 →
  ∃ word,
    Main.predictedWord rnd indeterminate sentence = Some word ∧
    word ∈ ["the"; "quick"; "brown"; "fox"; "jumps"; "over"; "lazy"; "dog";
            "barks"; "loudly"; "is"; "a"; "clever"; "animal"]%string.
Proof.
  intros Hne Hlen.
  destruct (new_build_predict rnd indeterminate Main.EMBEDDING_DIM
              Main.NUM_HEADS Main.FFN_HIDDEN_DIM Main.NUM_LAYERS Main.MAX_SEQ_LEN
              Main.corpus 0 eq_refl eq_refl eq_refl main_heads_divide)
    as (m & Heq & Htok & Hok); [done|exact main_corpus_words|].
  unfold Main.predictedWord. rewrite Heq.
  destruct (predictNextWord_total m _ _ _ sentence Hok Hne)
    as (word & index & Hword & Hindex & Hlook).
  { intros i token Htoken Hi. apply lookup_lt_Some in Htoken.
    change (Z.to_nat Main.MAX_SEQ_LEN) with 100 in Hi. lia. }
  exists word. split; [exact Hword|].
  rewrite Htok in Hlook.
  destruct (buildVocabulary_numbered Main.corpus) as (_ & _ & _ & Hiw).
  apply Hiw in Hlook as [_ Hlook]. apply list_elem_of_lookup_2 in Hlook.
  rewrite main_vocabulary in Hlook. exact Hlook.
Qed.

End MoreModel.

(** * Further properties in binary32 *)

Section MoreBinary32.
Import Binary32.

(** X30. [relu] in the arithmetic of [float]: [std::max(0.0f, x)] is
    [x] only when [0.0f < x], so no entry of the result is negative, a
    negative zero or a NaN; a NaN in the input becomes [+0.0] and is not
    passed on to the second layer of the feed-forward network. *)
Theorem relu_never_negative_or_nan (input : list float) :
  length (FeedForwardNetwork.relu input) = length input ∧
  Forall (λ y, nonnegative32 y = true) (FeedForwardNetwork.relu input) ∧
  FeedForwardNetwork.relu [S754_nan; S754_zero true] = [fzero; fzero].
Proof.
  split; [apply relu_length|]. split; [|done].
  unfold FeedForwardNetwork.relu. apply Forall_fmap, Forall_forall.
  intros x _. simpl.
  destruct x as [[|]|[|]| |[|] mx ex]; try done.
Qed.

End MoreBinary32.

(** * The further properties at concrete inputs *)

Section MoreChecks.
Import MultiHeadSelfAttention Exact Examples MoreExamples.
Open Scope nat_scope.

Lemma tiny_decoder_layer_ok : decoder_layer_ok tiny_decoder_layer 2.
Proof.
  unfold decoder_layer_ok, attention_valid, heads_divide, ffn_ok. simpl.
  repeat split; try lia; try (intros [|[|?]] row [= <-]; reflexivity).
  exists 1%nat. repeat split; try lia;
    intros [|[|?]] row [= <-]; reflexivity.
Qed.

Lemma tiny_embeddings_ok : embeddings_ok tiny_embeddings 2 2 2.
Proof. split; apply shape_2_2. Qed.

Lemma tiny_model_ok : transformer_ok tiny_model 2 2 2.
Proof.
  unfold transformer_ok. split; [lia|]. split; [lia|]. split; [done|].
  split.
  { exists (first_occurrences (corpus_words ["a b"%string])).
    split; [apply buildVocabulary_numbered|]. by vm_compute. }
  split; [exact tiny_embeddings_ok|]. split.
  - constructor; [exact tiny_layer_ok|constructor].
  - apply shape_2_2.
Qed.

(** The vector [(1, 1)] times the matrix with rows [(1, 2)] and [(3, 4)]. *)
Lemma matMul_columns_witness :
  ∃ out, matMul [1; 1]%R [[1; 2]; [3; 4]]%R = Some out ∧ length out = 2 ∧
         ∀ i, i < 2 → out !! i = dotProduct [1; 1]%R (column i [[1; 2]; [3; 4]]%R).
Proof.
  apply (matMul_columns [1; 1]%R [[1; 2]; [3; 4]]%R 2 2);
    [apply shape_2_2|lia|simpl; lia].
Defined.

Lemma read_words_split_witness :
  read_words ("hello" +:+ String " " "world")
  = read_words "hello" ++ read_words "world".
Proof. apply (read_words_split "hello" "world" " "). reflexivity. Defined.

Lemma decode_encode_corpus_word_witness :
  let tk := Tokenizer.buildVocabulary Tokenizer.empty ["The fox"%string] in
  (0 ≤ Tokenizer.encode tk "The" < Tokenizer.getVocabSize tk)%Z ∧
  Tokenizer.decode tk (Tokenizer.encode tk "The") = lowercase "The".
Proof.
  apply (decode_encode_corpus_word ["The fox"%string] "The fox" "The").
  - apply list_elem_of_here.
  - exact (list_elem_of_here "The"%string ["fox"%string]).
Defined.

Lemma encode_decode_index_witness :
  let tk := Tokenizer.buildVocabulary Tokenizer.empty ["a b"%string] in
  Tokenizer.encode tk (Tokenizer.decode tk 1) = 1%Z.
Proof.
  apply (encode_decode_index ["a b"%string] 1). vm_compute.
  split; [discriminate|reflexivity].
Defined.

Lemma buildVocabulary_known_words_witness :
  let tk := Tokenizer.buildVocabulary Tokenizer.empty ["a b"%string] in
  Tokenizer.buildVocabulary tk ["B a"%string] = tk.
Proof.
  apply buildVocabulary_known_words. intros sentence word Hs Hw.
  apply list_elem_of_singleton in Hs as ->.
  change (read_words "B a") with ["B"; "a"]%string in Hw.
  apply elem_of_cons in Hw as [->|Hw]; [vm_compute; discriminate|].
  apply list_elem_of_singleton in Hw as ->. vm_compute. discriminate.
Defined.

Lemma encoder_forward_shape_witness :
  ∃ output,
    Encoder.forward {| Encoder.layers := [tiny_layer]; Encoder.numLayers := 1 |}
      seq_c = Some output ∧
    has_shape 2 2 output.
Proof.
  apply (encoder_forward_shape _ 2 2 seq_c).
  - constructor; [exact tiny_layer_ok|constructor].
  - lia.
  - apply shape_2_2.
Defined.

(** The decoder stack does not look at [encoderOutput]: here it is empty. *)
Lemma decoder_forward_shape_witness :
  ∃ output,
    Decoder.forward
      {| Decoder.layers := [tiny_decoder_layer]; Decoder.numLayers := 1 |}
      seq_c [] = Some output ∧
    has_shape 2 2 output.
Proof.
  apply (decoder_forward_shape _ 2 2 seq_c []).
  - constructor; [exact tiny_decoder_layer_ok|constructor].
  - lia.
  - apply shape_2_2.
Defined.

Lemma forward_mask_last_row_witness :
  ∃ masked unmasked,
    forward two_heads seq_c true = Some masked ∧
    forward two_heads seq_c false = Some unmasked ∧
    masked !! (2 - 1) = unmasked !! (2 - 1) ∧
    (2 = 1 → masked = unmasked).
Proof.
  apply (forward_mask_last_row two_heads 2 2 seq_c).
  - exact two_heads_ok.
  - lia.
  - apply shape_2_2.
Defined.

Lemma forward_returns_iff_nonempty_witness :
  (∃ out, forward two_heads seq_c true = Some out ∧ has_shape 2 2 out) ↔ 0 < 2.
Proof.
  apply (forward_returns_iff_nonempty two_heads 2 2 seq_c true).
  - exact two_heads_ok.
  - reflexivity.
  - apply shape_2_2.
Defined.

(** Two encoder layers of dimension 4 with two heads and a hidden layer of
    width 3: 2 * (4 * 16 + 2 * 12) = 176 calls of [rand()]. *)
Lemma encoder_new_valid_witness :
  ∃ enc,
    Encoder.new (λ _, 0%R) 2 4 2 3 0 = Some (enc, 176) ∧
    length (Encoder.layers enc) = 2.
Proof.
  destruct (encoder_new_valid (λ _, 0%R) 2 4 2 3 0) as (enc & Hnew & Hlen & _);
    [lia|lia|lia|by exists 2%Z|].
  exists enc. split; [exact Hnew|exact Hlen].
Defined.

(** Two decoder layers of the same sizes: 2 * (8 * 16 + 2 * 12) = 304
    calls. *)
Lemma decoder_new_valid_witness :
  ∃ dec,
    Decoder.new (λ _, 0%R) 2 4 2 3 0 = Some (dec, 304) ∧
    length (Decoder.layers dec) = 2 ∧
    Forall (λ l, decoder_layer_norms_initial l 4) (Decoder.layers dec).
Proof.
  destruct (decoder_new_valid (λ _, 0%R) 2 4 2 3 0)
    as (dec & Hnew & Hlen & _ & Hnorms); [lia|lia|lia|by exists 2%Z|].
  exists dec. split; [exact Hnew|]. split; [exact Hlen|exact Hnorms].
Defined.

Lemma getEmbedding_sum_or_out_of_range_witness :
  Embeddings.getEmbedding tiny_embeddings 1 0 = Some [3 + 0; 4 + 1]%R ∧
  Embeddings.getEmbedding tiny_embeddings 1 2 = None.
Proof.
  split.
  - destruct (getEmbedding_sum_or_out_of_range tiny_embeddings 2 2 2 1 0
                tiny_embeddings_ok) as [Hin _].
    destruct Hin as (w & p & Hw & Hp & Hsum & _); [lia|].
    injection Hw as <-. injection Hp as <-. exact Hsum.
  - apply (getEmbedding_sum_or_out_of_range tiny_embeddings 2 2 2 1 2
             tiny_embeddings_ok). lia.
Defined.

Lemma predictNextWord_returns_vocabulary_word_witness :
  ∃ word index,
    Transformer.predictNextWord tiny_model "b A" = Some word ∧
    (0 ≤ index < 2)%Z ∧
    Tokenizer.indexToWord (Transformer.tokenizer tiny_model) !! index = Some word.
Proof.
  apply (predictNextWord_returns_vocabulary_word tiny_model 2 2 2 "b A").
  - exact tiny_model_ok.
  - discriminate.
  - intros i token Htoken Hi. apply lookup_lt_Some in Htoken.
    change (length (read_words "b A")) with 2 in Htoken. lia.
Defined.

Lemma predictNextWord_without_output_weights_witness :
  Transformer.predictNextWord unbuilt "the" = None.
Proof.
  apply (predictNextWord_without_output_weights unbuilt "the").
  - reflexivity.
  - discriminate.
Defined.

Lemma transformer_new_then_build_witness :
  ∃ m0 calls0 m calls',
    Transformer.new (λ _, 0%R) 7 4 2 3 1 5 0 = Some (m0, calls0) ∧
    Transformer.build (λ _, 0%R) m0 ["a b"%string] calls0 = Some (m, calls') ∧
    Transformer.vocabSize m = Tokenizer.getVocabSize (Transformer.tokenizer m).
Proof.
  destruct (transformer_new_then_build (λ _, 0%R) 7 4 2 3 1 5 ["a b"%string] 0)
    as (m0 & calls0 & m & calls' & Hnew & _ & Hbuild & Hsize & _);
    [lia|lia|lia|by exists 2%Z|lia|by vm_compute|].
  exists m0, calls0, m, calls'. split; [exact Hnew|]. split; [exact Hbuild|exact Hsize].
Defined.

Lemma main_predicts_corpus_word_witness :
  ∃ word,
    Main.predictedWord (λ _, 0%R) 0 "the quick brown" = Some word ∧
    word ∈ ["the"; "quick"; "brown"; "fox"; "jumps"; "over"; "lazy"; "dog";
            "barks"; "loudly"; "is"; "a"; "clever"; "animal"]%string.
Proof.
  apply (main_predicts_corpus_word (λ _, 0%R) 0 "the quick brown").
  - discriminate.
  - change (length (read_words "the quick brown")) with 3. lia.
Defined.

End MoreChecks.

(** * Shifting the scores of [softmax] *)

Section ShiftFacts.
Context {F : Type} `{Scalar F} `{ScalarExp F}.

(** C5, as amended.  [Utils::softmax] gives the same result for the
    scores and for the scores with [c] added to each, whenever adding [c]
    changes neither the outcome of a comparison [a < b] of two scores nor
    their difference [a - b], as it is when the additions are exact.  In
    every arithmetic. *)
Theorem softmax_shift_invariant (scores : Vector F) (c : F) :
  (∀ a b, a ∈ scores → b ∈ scores →
          fltb (fadd a c) (fadd b c) = fltb a b) →
  (∀ a b, a ∈ scores → b ∈ scores →
          fsub (fadd a c) (fadd b c) = fsub a b) →
  softmax ((λ s, fadd s c) <$> scores) = softmax scores.
Proof.
  intros Hlt Hsub. unfold softmax.
  destruct (max_element_shift (λ s, fadd s c) scores Hlt) as [-> Hin].
  destruct (max_element scores) as [m|]; [|done]. simpl.
  specialize (Hin m eq_refl).
  assert ((λ score, fexp (fsub score (fadd m c))) <$> ((λ s, fadd s c) <$> scores)
          = (λ score, fexp (fsub score m)) <$> scores) as ->; [|done].
  rewrite <- list_fmap_compose. apply list_fmap_ext.
  intros i s Hs. simpl. rewrite Hsub; [done| |done].
  by eapply list_elem_of_lookup_2.
Qed.

End ShiftFacts.

Section ShiftBinary32.
Import Binary32.

(** The scores 1, 3, 2 shifted by 10: every sum is exact. *)
Lemma softmax_shift_invariant_witness :
  softmax ((λ s, fadd s (of_Z 10)) <$> [of_Z 1; of_Z 3; of_Z 2])
  = softmax [of_Z 1; of_Z 3; of_Z 2].
Proof.
  apply (softmax_shift_invariant [of_Z 1; of_Z 3; of_Z 2] (of_Z 10)).
  - intros a b Ha Hb.
    repeat (apply elem_of_cons in Ha as [->|Ha]);
      try (by apply elem_of_nil in Ha);
      repeat (apply elem_of_cons in Hb as [->|Hb]);
      try (by apply elem_of_nil in Hb); reflexivity.
  - intros a b Ha Hb.
    repeat (apply elem_of_cons in Ha as [->|Ha]);
      try (by apply elem_of_nil in Ha);
      repeat (apply elem_of_cons in Hb as [->|Hb]);
      try (by apply elem_of_nil in Hb); reflexivity.
Defined.

(** C5 as stated fails in the arithmetic of [float].  For the finite
    scores 0 and 1 and the finite constant [1e8], the sums [0 + 1e8] and
    [1 + 1e8] are both [1e8]: [float] has 24 bits.  The shifted scores are
    equal and [softmax] returns [0.5, 0.5]; for the scores themselves it
    returns [0.26894143, 0.7310586]. *)
Lemma softmax_shift_changes_result :
  let v := [of_Z 0; of_Z 1] in
  let c := of_Z 100000000 in
  (λ s, fadd s c) <$> v = [c; c] ∧
  softmax ((λ s, fadd s c) <$> v)
  = Some [S754_finite false 8388608 (-24); S754_finite false 8388608 (-24)] ∧
  softmax v
  = Some [S754_finite false 9024177 (-25); S754_finite false 12265128 (-24)] ∧
  softmax ((λ s, fadd s c) <$> v) ≠ softmax v.
Proof. vm_compute. repeat split; discriminate. Qed.

End ShiftBinary32.

(** * The arithmetic of [float]: signs *)

Section RoundingSigns.
Variables prec emax : Z.

Lemma iter_pos_nat {A : Type} (f : A → A) (n : positive) (x : A) :
  SpecFloat.iter_pos f n x = Nat.iter (Pos.to_nat n) f x.
Proof.
  assert (Hswap : ∀ k y, Nat.iter k f (f y) = f (Nat.iter k f y)).
  { intros k y. symmetry. apply (Nat.iter_succ_r k). }
  revert x. induction n as [n IH|n IH|]; intros x.
  - rewrite Pos2Nat.inj_xI. cbn [SpecFloat.iter_pos]. rewrite !IH.
    replace (S (2 * Pos.to_nat n)) with (S (Pos.to_nat n + Pos.to_nat n)) by lia.
    by rewrite Nat.iter_succ, Nat.iter_add, !Hswap.
  - rewrite Pos2Nat.inj_xO. cbn [SpecFloat.iter_pos]. rewrite !IH.
    replace (2 * Pos.to_nat n) with (Pos.to_nat n + Pos.to_nat n) by lia.
    by rewrite Nat.iter_add.
  - done.
Qed.

Lemma shr_1_nonneg (mrs : shr_record) : (0 ≤ shr_m mrs → 0 ≤ shr_m (shr_1 mrs))%Z.
Proof.
  destruct mrs as [m r s]. simpl.
  destruct m as [|[p|p|]|[p|p|]]; simpl; lia.
Qed.

Lemma shr_nonneg (mrs : shr_record) (e n : Z) :
  (0 ≤ shr_m mrs → 0 ≤ shr_m (shr mrs e n).1)%Z.
Proof.
  intros Hm. unfold shr. destruct n as [|p|p]; simpl; try done.
  rewrite iter_pos_nat. induction (Pos.to_nat p) as [|k IH]; simpl; [done|].
  by apply shr_1_nonneg.
Qed.

Lemma shr_fexp_nonneg (m e : Z) (l : location) :
  (0 ≤ m → 0 ≤ shr_m (shr_fexp prec emax m e l).1)%Z.
Proof.
  intros Hm. unfold shr_fexp. apply shr_nonneg.
  by destruct l as [|[]].
Qed.

Lemma round_nearest_even_nonneg (m : Z) (l : location) :
  (0 ≤ m → 0 ≤ round_nearest_even m l)%Z.
Proof.
  intros Hm. unfold round_nearest_even.
  destruct l as [|[]]; try done; [destruct (Z.even m)|]; lia.
Qed.

(** Rounding a non-negative mantissa never gives a NaN, and the result
    has the sign it is given. *)
Lemma binary_round_aux_sign (sx : bool) (mx ex : Z) (lx : location) :
  (0 ≤ mx)%Z → has_sign sx (binary_round_aux prec emax sx mx ex lx).
Proof.
  intros Hm. unfold binary_round_aux.
  pose proof (shr_fexp_nonneg mx ex lx Hm) as H1.
  destruct (shr_fexp prec emax mx ex lx) as [mrs' e']. simpl in H1.
  pose proof (shr_fexp_nonneg _ e' loc_Exact
                (round_nearest_even_nonneg _ (loc_of_shr_record mrs') H1)) as H2.
  destruct (shr_fexp prec emax _ e' loc_Exact) as [mrs'' e'']. simpl in H2.
  destruct (shr_m mrs'') as [|m|m]; [done| |lia].
  by destruct (e'' <=? emax - prec)%Z.
Qed.

Lemma binary_round_sign (sx : bool) (mx : positive) (ex : Z) :
  has_sign sx (binary_round prec emax sx mx ex).
Proof.
  unfold binary_round. destruct (shl_align mx ex _) as [mz ez].
  by apply binary_round_aux_sign.
Qed.

(** ** Exponents, and results that are not zero *)

Lemma shr_fexp_exponent (m e : Z) (l : location) :
  (emin prec emax ≤ (shr_fexp prec emax m e l).2)%Z.
Proof.
  unfold shr_fexp, shr.
  destruct (SpecFloat.fexp prec emax (Zdigits2 m + e) - e)%Z eqn:Hn; simpl;
    unfold SpecFloat.fexp in Hn; lia.
Qed.

(** A finite result of rounding has an exponent of the format. *)
Lemma binary_round_aux_exponent (sx : bool) (mx ex : Z) (lx : location)
    (s : bool) (m : positive) (e : Z) :
  binary_round_aux prec emax sx mx ex lx = S754_finite s m e →
  (emin prec emax ≤ e)%Z.
Proof.
  unfold binary_round_aux.
  destruct (shr_fexp prec emax mx ex lx) as [mrs' e'].
  pose proof (shr_fexp_exponent
                (round_nearest_even (shr_m mrs') (loc_of_shr_record mrs'))
                e' loc_Exact) as He.
  destruct (shr_fexp prec emax _ e' loc_Exact) as [mrs'' e'']. simpl in He.
  destruct (shr_m mrs'') as [|m''|m'']; [done| |done].
  destruct (e'' <=? emax - prec)%Z; [|done]. by intros [= _ _ <-].
Qed.

Lemma shr_iter_positive (k : nat) (m : positive) (r s : bool) :
  k < Pos.to_nat (digits2_pos m) →
  ∃ m', shr_m (Nat.iter k shr_1 {| shr_m := Z.pos m; shr_r := r; shr_s := s |})
        = Z.pos m' ∧
        Pos.to_nat (digits2_pos m') + k = Pos.to_nat (digits2_pos m).
Proof.
  induction k as [|k IH]; intros Hk.
  - exists m. split; [done|lia].
  - destruct IH as (m' & Hm' & Hd); [lia|].
    rewrite Nat.iter_succ.
    destruct (Nat.iter k shr_1 _) as [m0 r0 s0]. simpl in Hm'. subst m0.
    destruct m' as [p|p|]; simpl in *.
    + exists p. split; [done|]. rewrite Pos2Nat.inj_succ in Hd. lia.
    + exists p. split; [done|]. rewrite Pos2Nat.inj_succ in Hd. lia.
    + lia.
Qed.





End RoundingSigns.

(** * The arithmetic of [float]: digits *)

Section Digits.

Lemma digits2_pos_bounds (m : positive) :
  (2 ^ (Z.pos (digits2_pos m) - 1) ≤ Z.pos m < 2 ^ Z.pos (digits2_pos m))%Z.
Proof.
  induction m as [m IH|m IH|]; simpl digits2_pos.
  - rewrite Pos2Z.inj_succ, Z.pow_succ_r by lia.
    replace (Z.succ (Z.pos (digits2_pos m)) - 1)%Z
      with (Z.succ (Z.pos (digits2_pos m) - 1)) by lia.
    rewrite Z.pow_succ_r by lia. lia.
  - rewrite Pos2Z.inj_succ, Z.pow_succ_r by lia.
    replace (Z.succ (Z.pos (digits2_pos m)) - 1)%Z
      with (Z.succ (Z.pos (digits2_pos m) - 1)) by lia.
    rewrite Z.pow_succ_r by lia. lia.
  - simpl. lia.
Qed.

Lemma digits2_pos_le (a b : positive) :
  (a ≤ b)%positive → (digits2_pos a ≤ digits2_pos b)%positive.
Proof.
  intros Hab.
  destruct (Z.le_gt_cases (Z.pos (digits2_pos a)) (Z.pos (digits2_pos b)))
    as [?|Hgt]; [lia|exfalso].
  pose proof (digits2_pos_bounds a) as [Ha _].
  pose proof (digits2_pos_bounds b) as [_ Hb].
  assert (2 ^ Z.pos (digits2_pos b) ≤ 2 ^ (Z.pos (digits2_pos a) - 1))%Z
    by (apply Z.pow_le_mono_r; lia).
  lia.
Qed.

Lemma digits2_pos_lt_pow (m : positive) (d : Z) :
  (0 ≤ d)%Z → (Z.pos m < 2 ^ d)%Z → (Z.pos (digits2_pos m) ≤ d)%Z.
Proof.
  intros Hd Hm. destruct (Z.le_gt_cases (Z.pos (digits2_pos m)) d) as [?|Hgt];
    [done|exfalso].
  pose proof (digits2_pos_bounds m) as [Ha _].
  assert (2 ^ d ≤ 2 ^ (Z.pos (digits2_pos m) - 1))%Z
    by (apply Z.pow_le_mono_r; lia).
  lia.
Qed.

Lemma digits2_pos_succ (m : positive) :
  digits2_pos (Pos.succ m) = digits2_pos m ∨
  digits2_pos (Pos.succ m) = Pos.succ (digits2_pos m).
Proof.
  induction m as [m IH|m IH|]; simpl; [|by left|by right].
  destruct IH as [->| ->]; [by left|by right].
Qed.

Lemma iter_xO_value (m d : positive) :
  Z.pos (Pos.iter xO m d) = (Z.pos m * 2 ^ Z.pos d)%Z.
Proof.
  induction d as [|d IH] using Pos.peano_ind.
  - simpl. lia.
  - rewrite Pos.iter_succ, Pos2Z.inj_succ, Z.pow_succ_r by lia.
    rewrite Pos2Z.inj_xO, IH. lia.
Qed.

Lemma iter_xO_digits (m d : positive) :
  digits2_pos (Pos.iter xO m d) = (digits2_pos m + d)%positive.
Proof.
  induction d as [|d IH] using Pos.peano_ind.
  - simpl. lia.
  - rewrite Pos.iter_succ. simpl. rewrite IH. lia.
Qed.

End Digits.

(** * The arithmetic of [float]: rounding in the normal range *)

Section RoundingNormal.
Variables prec emax : Z.

(** A mantissa with at least [prec] digits is cut to exactly [prec]
    digits. *)
Lemma shr_fexp_large (m : positive) (e : Z) (l : location) :
  (0 < prec)%Z →
  (emin prec emax ≤ e)%Z → (prec ≤ Z.pos (digits2_pos m))%Z →
  ∃ m', shr_m (shr_fexp prec emax (Z.pos m) e l).1 = Z.pos m' ∧
        Z.pos (digits2_pos m') = prec ∧
        (shr_fexp prec emax (Z.pos m) e l).2
        = (e + (Z.pos (digits2_pos m) - prec))%Z.
Proof.
  intros Hprec He Hd. unfold shr_fexp, shr.
  assert (∃ r s, shr_record_of_loc (Z.pos m) l
                 = {| shr_m := Z.pos m; shr_r := r; shr_s := s |})
    as (r & s & ->) by (destruct l as [|[]]; simpl; eauto).
  destruct (SpecFloat.fexp prec emax (Zdigits2 (Z.pos m) + e) - e)%Z
    as [|p|p] eqn:Hn; unfold SpecFloat.fexp in Hn; simpl in Hn.
  - exists m. simpl. split; [done|]. lia.
  - rewrite iter_pos_nat.
    destruct (shr_iter_positive (Pos.to_nat p) m r s) as (m' & Hm' & Hdig);
      [lia|].
    exists m'. simpl. split; [done|]. lia.
  - lia.
Qed.

Lemma binary_round_aux_large (sx : bool) (m : positive) (e : Z) (l : location) :
  (0 < prec)%Z →
  (emin prec emax ≤ e)%Z → (prec ≤ Z.pos (digits2_pos m))%Z →
  match binary_round_aux prec emax sx (Z.pos m) e l with
  | S754_finite s' m' e' =>
      s' = sx ∧ Z.pos (digits2_pos m') = prec ∧
      (e + (Z.pos (digits2_pos m) - prec) ≤ e')%Z
  | S754_infinity s' => s' = sx
  | _ => False
  end.
Proof.
  intros Hprec He Hd. unfold binary_round_aux.
  destruct (shr_fexp_large m e l Hprec He Hd) as (m1 & Hm1 & Hd1 & He1).
  destruct (shr_fexp prec emax (Z.pos m) e l) as [mrs' e']. simpl in Hm1, He1.
  rewrite Hm1.
  assert (∃ m2, round_nearest_even (Z.pos m1) (loc_of_shr_record mrs') = Z.pos m2 ∧
                (Z.pos (digits2_pos m2) = prec ∨
                 Z.pos (digits2_pos m2) = prec + 1)%Z) as (m2 & -> & Hd2).
  { assert (Z.pos (digits2_pos (Pos.succ m1)) = prec ∨
            Z.pos (digits2_pos (Pos.succ m1)) = prec + 1)%Z as Hsucc.
    { destruct (digits2_pos_succ m1) as [->| ->]; [by left|right; lia]. }
    unfold round_nearest_even.
    destruct (loc_of_shr_record mrs') as [|[]]; try (exists m1; by auto).
    - destruct (IntDef.Z.even (Z.pos m1)); [exists m1; by auto|].
      exists (Pos.succ m1). split; [|done]. by rewrite Pos2Z.inj_succ.
    - exists (Pos.succ m1). split; [|done]. by rewrite Pos2Z.inj_succ. }
  assert (emin prec emax ≤ e')%Z as He' by lia.
  destruct (shr_fexp_large m2 e' loc_Exact Hprec He') as (m3 & Hm3 & Hd3 & He3); [lia|].
  destruct (shr_fexp prec emax (Z.pos m2) e' loc_Exact) as [mrs'' e''].
  simpl in Hm3, He3. rewrite Hm3.
  destruct (e'' <=? emax - prec)%Z; [|done]. split; [done|]. split; [done|]. lia.
Qed.

(** In the normal range [binary_round] gives a normalised number: [prec]
    digits, and the exponent that the number of digits asks for. *)
Lemma binary_round_normal (sx : bool) (m : positive) (e : Z) :
  (0 < prec)%Z →
  (emin prec emax ≤ e)%Z →
  (emin prec emax ≤ Z.pos (digits2_pos m) + e - prec)%Z →
  match binary_round prec emax sx m e with
  | S754_finite s' m' e' =>
      s' = sx ∧ Z.pos (digits2_pos m') = prec ∧
      (Z.pos (digits2_pos m) + e - prec ≤ e')%Z
  | S754_infinity s' => s' = sx
  | _ => False
  end.
Proof.
  intros Hprec He Hn. unfold binary_round, shl_align.
  destruct (SpecFloat.fexp prec emax (Z.pos (digits2_pos m) + e) - e)%Z
    as [|p|p] eqn:Hf; unfold SpecFloat.fexp in Hf.
  - pose proof (binary_round_aux_large sx m e loc_Exact Hprec He) as Hr.
    destruct (binary_round_aux _ _ _ _ _ _); try (apply Hr; lia).
    destruct Hr as (? & ? & ?); [lia|]. split; [done|]. split; [done|]. lia.
  - pose proof (binary_round_aux_large sx m e loc_Exact Hprec He) as Hr.
    destruct (binary_round_aux _ _ _ _ _ _); try (apply Hr; lia).
    destruct Hr as (? & ? & ?); [lia|]. split; [done|]. split; [done|]. lia.
  - pose proof (binary_round_aux_large sx (Pos.iter xO m p)
                  (Z.max (Z.pos (digits2_pos m) + e - prec) (emin prec emax))
                  loc_Exact Hprec) as Hr.
    rewrite iter_xO_digits in Hr.
    destruct (binary_round_aux _ _ _ _ _ _); try (apply Hr; lia).
    destruct Hr as (? & ? & ?); [lia|lia|]. split; [done|]. split; [done|]. lia.
Qed.

End RoundingNormal.

(** * The arithmetic of [float]: rounding without overflow *)

Section RoundingBounded.
Variables prec emax : Z.

Lemma shr_1_digits (mrs : shr_record) :
  (0 ≤ shr_m mrs)%Z →
  (0 ≤ shr_m (shr_1 mrs))%Z ∧
  Zdigits2 (shr_m (shr_1 mrs)) = Z.max (Zdigits2 (shr_m mrs) - 1) 0.
Proof.
  destruct mrs as [m r s]. simpl.
  destruct m as [|[p|p|]|p]; simpl; intros Hm; try lia;
    rewrite ?Pos2Z.inj_succ; lia.
Qed.

Lemma shr_iter_digits (k : nat) (mrs : shr_record) :
  (0 ≤ shr_m mrs)%Z →
  (0 ≤ shr_m (Nat.iter k shr_1 mrs))%Z ∧
  Zdigits2 (shr_m (Nat.iter k shr_1 mrs))
  = Z.max (Zdigits2 (shr_m mrs) - Z.of_nat k) 0.
Proof.
  intros Hm. induction k as [|k [IH0 IH]].
  - simpl. split; [done|]. destruct (shr_m mrs); simpl; lia.
  - rewrite Nat.iter_succ. destruct (shr_1_digits _ IH0) as [H0 H1].
    split; [done|]. rewrite H1, IH. lia.
Qed.

Lemma Zdigits2_nonneg (m : Z) : (0 ≤ Zdigits2 m)%Z.
Proof. destruct m; simpl; lia. Qed.

(** Cutting a mantissa keeps the sum of the number of digits and the
    exponent, up to the least exponent. *)
Lemma shr_fexp_digit_sum (m e : Z) (l : location) :
  (0 < prec)%Z → (0 ≤ m)%Z →
  (0 ≤ shr_m (shr_fexp prec emax m e l).1)%Z ∧
  (Zdigits2 (shr_m (shr_fexp prec emax m e l).1) + (shr_fexp prec emax m e l).2
   ≤ Z.max (Zdigits2 m + e) (emin prec emax))%Z ∧
  ((shr_fexp prec emax m e l).2
   ≤ Z.max e (Z.max (Zdigits2 m + e - prec) (emin prec emax)))%Z.
Proof.
  intros Hprec Hm. unfold shr_fexp, shr.
  assert (shr_m (shr_record_of_loc m l) = m) as Hrec by (by destruct l as [|[]]).
  destruct (SpecFloat.fexp prec emax (Zdigits2 m + e) - e)%Z as [|p|p] eqn:Hn;
    unfold SpecFloat.fexp in Hn; simpl; rewrite ?Hrec.
  - split; [done|]. lia.
  - rewrite iter_pos_nat.
    destruct (shr_iter_digits (Pos.to_nat p) (shr_record_of_loc m l)) as [H0 H1];
      [by rewrite Hrec|].
    split; [done|]. rewrite H1, Hrec. lia.
  - split; [done|]. lia.
Qed.

Lemma Zdigits2_succ (m : Z) :
  (0 ≤ m)%Z → (Zdigits2 (m + 1) ≤ Zdigits2 m + 1)%Z.
Proof.
  destruct m as [|p|p]; [simpl; lia| |lia]. intros _.
  change (Z.pos p + 1)%Z with (Z.pos (p + 1)). rewrite Pos.add_1_r. simpl.
  destruct (digits2_pos_succ p) as [->| ->]; lia.
Qed.

Lemma round_nearest_even_digits (m : Z) (l : location) :
  (0 ≤ m)%Z →
  (0 ≤ round_nearest_even m l)%Z ∧
  (Zdigits2 (round_nearest_even m l) ≤ Zdigits2 m + 1)%Z.
Proof.
  intros Hm. pose proof (Zdigits2_succ m Hm). unfold round_nearest_even.
  destruct l as [|[]]; try (split; lia).
  destruct (IntDef.Z.even m); split; lia.
Qed.

(** A mantissa and an exponent below the largest finite numbers round to
    a finite number or to zero. *)
Lemma binary_round_aux_no_overflow (sx : bool) (m e : Z) (l : location) :
  (0 < prec)%Z → (0 ≤ m)%Z → (emin prec emax ≤ emax - prec)%Z →
  (e ≤ emax - prec)%Z → (Zdigits2 m + e < emax)%Z →
  match binary_round_aux prec emax sx m e l with
  | S754_infinity _ => False
  | _ => True
  end.
Proof.
  intros Hprec Hm Hemin He Hd. unfold binary_round_aux.
  destruct (shr_fexp_digit_sum m e l Hprec Hm) as (H0 & Hsum & Hexp).
  destruct (shr_fexp prec emax m e l) as [mrs' e']. simpl in H0, Hsum, Hexp.
  destruct (round_nearest_even_digits (shr_m mrs') (loc_of_shr_record mrs') H0)
    as [H1 Hd1].
  destruct (shr_fexp_digit_sum _ e' loc_Exact Hprec H1) as (H2 & Hsum2 & Hexp2).
  destruct (shr_fexp prec emax _ e' loc_Exact) as [mrs'' e''].
  simpl in H2, Hsum2, Hexp2.
  destruct (shr_m mrs''); try done.
  destruct (Z.leb_spec e'' (emax - prec)); [done|lia].
Qed.

Lemma binary_round_no_overflow (sx : bool) (m : positive) (e : Z) :
  (0 < prec)%Z → (emin prec emax ≤ emax - prec)%Z →
  (e ≤ emax - prec)%Z → (Z.pos (digits2_pos m) + e < emax)%Z →
  match binary_round prec emax sx m e with
  | S754_infinity _ => False
  | _ => True
  end.
Proof.
  intros Hprec Hemin He Hd. unfold binary_round, shl_align.
  destruct (SpecFloat.fexp prec emax (Z.pos (digits2_pos m) + e) - e)%Z
    as [|p|p] eqn:Hf; unfold SpecFloat.fexp in Hf.
  - apply binary_round_aux_no_overflow; simpl; lia.
  - apply binary_round_aux_no_overflow; simpl; lia.
  - apply binary_round_aux_no_overflow; unfold SpecFloat.fexp; cbn [Zdigits2];
      rewrite ?(iter_xO_digits m p); lia.
Qed.

Lemma binary_round_exponent (sx : bool) (m : positive) (e : Z) :
  match binary_round prec emax sx m e with
  | S754_finite _ _ e' => (emin prec emax ≤ e')%Z
  | _ => True
  end.
Proof.
  unfold binary_round. destruct (shl_align m e _) as [mz ez].
  destruct (binary_round_aux _ _ _ _ _ _) as [| | |s' m' e'] eqn:Hr; try done.
  by eapply binary_round_aux_exponent.
Qed.

End RoundingBounded.

(** * The selection of the predicted index *)

Section SelectionFacts.
Context {F : Type} `{Scalar F} `{ScalarExp F}.

(** [predictNextWord] decodes the predicted index of the probabilities. *)
Lemma predictNextWord_unfold (self : Transformer.t F) (sentence : string) :
  read_words sentence ≠ [] →
  Transformer.predictNextWord self sentence =
  probabilities ← next_word_probabilities self sentence;
  Some (Tokenizer.decode (Transformer.tokenizer self)
          (Z.of_nat (Transformer.predictedIndex probabilities))).
Proof.
  intros Hne. unfold Transformer.predictNextWord, next_word_probabilities.
  destruct (read_words sentence) as [|t ts] eqn:Htokens; [done|].
  destruct (alloc_size _) as [E|]; [|done]. cbn [mbind option_bind].
  destruct (tabulate _ _) as [input|]; [|done]. cbn [mbind option_bind].
  destruct (Encoder.forward _ _) as [output|]; [|done]. cbn [mbind option_bind].
  destruct (output !! _) as [last|]; [|done]. cbn [mbind option_bind].
  by destruct (matMul last _) as [logits|].
Qed.

(** The search loop on a prefix [l] of the probabilities, when [<] orders
    them together with the start value [0.0f]: the maximum so far is the
    start value or an entry, nothing seen is above it, and either nothing
    above the start value was seen and the state is the initial one, or the
    index is that of the first largest entry. *)
Lemma highest_probability_ordered (probabilities l : Vector F) :
  ordered_by_lt (fzero :: probabilities) →
  (∀ p, p ∈ l → p ∈ probabilities) →
  let '(k, m) := Transformer.highest_probability l in
  m ∈ fzero :: probabilities ∧
  (∀ j p, l !! j = Some p → fltb m p = false) ∧
  ((k = 0 ∧ m = fzero) ∨
   (l !! k = Some m ∧ ∀ j p, j < k → l !! j = Some p → fltb p m = true)).
Proof.
  intros (Hirr & Htrans & Hneg). unfold Transformer.highest_probability.
  induction l as [|p l IH] using rev_ind; intros Hsub.
  - simpl. split; [by left|]. split; [done|]. by left.
  - rewrite imap_app, foldl_app. cbn [imap foldl].
    assert (∀ q, q ∈ l → q ∈ probabilities) as Hsub'.
    { intros q Hq. apply Hsub, elem_of_app. by left. }
    assert (p ∈ fzero :: probabilities) as Hp.
    { right. apply Hsub, elem_of_app. right. by left. }
    assert (∀ j q, l !! j = Some q → q ∈ fzero :: probabilities) as Hin.
    { intros j q Hq. right. apply Hsub'. by eapply list_elem_of_lookup_2. }
    specialize (IH Hsub').
    destruct (foldl _ _ (imap pair l)) as [k m].
    destruct IH as (Hm & Hbound & Hfirst).
    rewrite Nat.add_0_r. destruct (fltb m p) eqn:Hc.
    + split; [done|]. split.
      * intros j q Hq. apply lookup_app_Some in Hq as [Hq|[_ Hq]].
        -- destruct (fltb p q) eqn:Hpq; [|done].
           pose proof (Hbound j q Hq) as Hmq.
           by rewrite (Htrans m p q Hm Hp (Hin j q Hq) Hc Hpq) in Hmq.
        -- apply list_lookup_singleton_Some in Hq as [_ <-]. by apply Hirr.
      * right. split.
        -- rewrite lookup_app_r by done. by rewrite Nat.sub_diag.
        -- intros j q Hj Hq. rewrite lookup_app_l in Hq by done.
           destruct (fltb q p) eqn:Hqp; [done|].
           by rewrite (Hneg m q p Hm (Hin j q Hq) Hp (Hbound j q Hq) Hqp) in Hc.
    + split; [done|]. split.
      * intros j q Hq. apply lookup_app_Some in Hq as [Hq|[_ Hq]].
        -- by apply (Hbound j).
        -- by apply list_lookup_singleton_Some in Hq as [_ <-].
      * destruct Hfirst as [?|[Hk Hlt]]; [by left|]. right. split.
        -- by apply lookup_app_l_Some.
        -- intros j q Hj Hq. apply (Hlt j q Hj).
           rewrite lookup_app_l in Hq; [done|].
           apply lookup_lt_Some in Hk. lia.
Qed.

(** The predicted index is the index of the first largest probability,
    when [<] orders the probabilities and none is below [0.0f]. *)
Lemma predictedIndex_first_maximum (probabilities : Vector F) :
  probabilities ≠ [] →
  ordered_by_lt (fzero :: probabilities) →
  (∀ p, p ∈ probabilities → fltb p fzero = false) →
  first_maximum probabilities (Transformer.predictedIndex probabilities).
Proof.
  intros Hne Hord Hpos. unfold Transformer.predictedIndex.
  pose proof (highest_probability_ordered probabilities probabilities Hord
                (λ p Hp, Hp)) as Hspec.
  destruct (Transformer.highest_probability probabilities) as [k m]. simpl.
  destruct Hspec as (Hm & Hbound & [[-> ->]|[Hk Hfirst]]).
  - destruct probabilities as [|p0 rest]; [done|]. exists p0.
    split; [done|]. split; [|intros; lia].
    intros j p Hp. destruct Hord as (_ & _ & Hneg).
    apply (Hneg p0 fzero p).
    + right. by left.
    + by left.
    + right. by eapply list_elem_of_lookup_2.
    + apply Hpos. by left.
    + by apply (Hbound j).
  - exists m. by repeat split.
Qed.

(** When nothing is below a NaN-like probability, i.e. no entry compares
    above any value, the search keeps its initial index. *)
Lemma predictedIndex_unordered (probabilities : Vector F) :
  (∀ p m, p ∈ probabilities → fltb m p = false) →
  Transformer.predictedIndex probabilities = 0.
Proof.
  intros Hnan. unfold Transformer.predictedIndex, Transformer.highest_probability.
  assert (∀ l, (∀ p, p ∈ l → p ∈ probabilities) →
               ∀ (k : nat) (m : F) (n : nat),
                 foldl (λ '(predictedIndex, maxProb) '(i, p),
                          if fltb maxProb p then (i, p)
                          else (predictedIndex, maxProb))
                       (k, m) (imap (λ i, pair (n + i)) l) = (k, m)) as Hloop.
  { intros l. induction l as [|p l IH]; intros Hsub k m n; [done|].
    simpl. rewrite (Hnan p m) by (apply Hsub; by left).
    rewrite <- (IH (λ q Hq, Hsub q (list_elem_of_further _ _ _ Hq)) k m (S n)) at 2.
    f_equal. apply imap_ext. intros i q _. simpl. f_equal. lia. }
  by rewrite (Hloop probabilities (λ p Hp, Hp) 0 fzero 0).
Qed.

(** On a built model the probabilities exist, one for each word of the
    vocabulary. *)
Lemma next_word_probabilities_total (m : Transformer.t F) (V E M : nat)
    (sentence : string) :
  transformer_ok m V E M →
  read_words sentence ≠ [] →
  (∀ i token, read_words sentence !! i = Some token → M ≤ i →
              Tokenizer.encode (Transformer.tokenizer m) token = (-1)%Z) →
  ∃ probabilities,
    next_word_probabilities m sentence = Some probabilities ∧
    length probabilities = V.
Proof.
  intros Hok Hne Hpos. unfold next_word_probabilities.
  destruct (read_words sentence) as [|t ts] eqn:Htokens; [done|].
  set (tokens := t :: ts) in *.
  pose proof Hok as (HV & HE & HEm & (ws & Hnum & Hws) & Hemb & Hlayers & Hout).
  unfold alloc_size. rewrite HEm.
  destruct (Z.ltb_spec (Z.of_nat E) 0) as [?|_]; [lia|].
  cbn [mbind option_bind]. rewrite Nat2Z.id.
  match goal with |- context [tabulate ?n ?f] =>
    destruct (tabulate_total n f) as [input Hinput] end.
  { intros i Hi. destruct (lookup_lt_is_Some_2 tokens i) as [token Htoken];
      [done|]. rewrite Htoken. simpl.
    destruct (encoder_input_row m V E M token i Hok) as (row & -> & _);
      [by apply (Hpos i)|done]. }
  rewrite Hinput. cbn [mbind option_bind].
  assert (has_shape (length tokens) E input) as Hshape.
  { split; [by apply tabulate_length in Hinput|]. intros i row Hrow.
    pose proof (lookup_lt_Some _ _ _ Hrow) as Hi.
    rewrite (tabulate_length _ _ _ Hinput) in Hi.
    rewrite (tabulate_lookup _ _ _ i Hinput Hi) in Hrow.
    destruct (tokens !! i) as [token|] eqn:Htoken; simpl in Hrow; [|done].
    destruct (encoder_input_row m V E M token i Hok) as (row' & Hrow' & Hlen);
      [by apply (Hpos i)|]. congruence. }
  destruct (encoder_layers_total (Encoder.layers (Transformer.encoder m)) E
              (length tokens) input Hlayers) as (output & Houtput & [Hlen Hrows]);
    [simpl; lia|done|].
  unfold Encoder.forward. rewrite Houtput. cbn [mbind option_bind].
  destruct (lookup_lt_is_Some_2 output (length output - 1)) as [last Hlast];
    [rewrite Hlen; simpl; lia|].
  rewrite Hlast. cbn [mbind option_bind].
  destruct (matMul_total last (Transformer.outputLayerWeights m) E V Hout HE)
    as (logits & -> & Hlogits); [by rewrite (Hrows _ _ Hlast)|].
  cbn [mbind option_bind].
  destruct (softmax_total logits) as (probabilities & -> & Hprobs);
    [by destruct logits; [simpl in Hlogits; lia|]|].
  exists probabilities. split; [done|]. by rewrite Hprobs.
Qed.

End SelectionFacts.

(** * The arithmetic of [float]: order, and signs of the operations *)

Section Binary32Order.
Import Binary32.

Lemma SFltb_key (x y : float) :
  is_nan x = false → is_nan y = false →
  SFltb x y = true ↔ key_lt (float_key x) (float_key y).
Proof.
  unfold SFltb, key_lt.
  destruct x as [[]|[]| |[] mx ex], y as [[]|[]| |[] my ey]; simpl;
    try done; intros _ _;
    try (split; [done|lia]); try (split; [lia|done]); try (split; [intros; lia|done]).
  - change (PosDef.Pos.compare_cont Eq mx my) with (mx ?= my)%positive.
    destruct (Z.compare_spec ex ey), (Pos.compare_spec mx my); simpl;
      (split; [try done; intros; lia|try done; intros; lia]).
  - change (PosDef.Pos.compare_cont Eq mx my) with (mx ?= my)%positive.
    destruct (Z.compare_spec ex ey), (Pos.compare_spec mx my); simpl;
      (split; [try done; intros; lia|try done; intros; lia]).
Qed.

Lemma key_lt_irreflexive (a : Z * Z * Z) : ¬ key_lt a a.
Proof. unfold key_lt. lia. Qed.

Lemma key_lt_transitive (a b c : Z * Z * Z) :
  key_lt a b → key_lt b c → key_lt a c.
Proof. unfold key_lt. lia. Qed.

Lemma key_lt_negatively_transitive (a b c : Z * Z * Z) :
  ¬ key_lt a b → ¬ key_lt b c → ¬ key_lt a c.
Proof. unfold key_lt. lia. Qed.

(** On numbers, [<] of [float] is the strict part of a total preorder. *)
Lemma ordered_by_lt_32 (vs : list float) :
  Forall (λ x, is_nan x = false) vs → ordered_by_lt vs.
Proof.
  intros Hnum. rewrite Forall_forall in Hnum. repeat split.
  - intros a Ha. simpl. apply not_true_is_false. intros Hlt.
    apply SFltb_key in Hlt; [|by apply Hnum..]. by apply key_lt_irreflexive in Hlt.
  - intros a b c Ha Hb Hc Hab Hbc. simpl in *.
    apply SFltb_key in Hab, Hbc; [|by apply Hnum..].
    apply SFltb_key; [by apply Hnum..|]. by eapply key_lt_transitive.
  - intros a b c Ha Hb Hc Hab Hbc. simpl in *.
    apply not_true_is_false. intros Hac.
    apply SFltb_key in Hac; [|by apply Hnum..].
    revert Hac. apply (key_lt_negatively_transitive _ (float_key b)).
    + intros Hk. apply SFltb_key in Hk; [|by apply Hnum..]. congruence.
    + intros Hk. apply SFltb_key in Hk; [|by apply Hnum..]. congruence.
Qed.

End Binary32Order.

Section Binary32Signs.
Import Binary32.

Lemma has_sign_number (s : bool) (x : float) : has_sign s x → is_nan x = false.
Proof. by destruct x. Qed.

Lemma has_sign_not_below_zero (x : float) :
  has_sign false x → fltb x fzero = false.
Proof. by destruct x as [[]|[]| |[] m e]. Qed.

Lemma SFadd_number (x y : float) :
  is_nan (fadd x y) = false → is_nan x = false ∧ is_nan y = false.
Proof. intros Hxy. split; [by destruct x|by destruct y, x]. Qed.

Lemma SFdiv_number (x y : float) :
  is_nan (fdiv x y) = false → is_nan x = false ∧ is_nan y = false.
Proof. intros Hxy. split; [by destruct x|by destruct y, x]. Qed.

Lemma SFadd_sign (x y : float) :
  has_sign false x → has_sign false y → has_sign false (fadd x y).
Proof.
  destruct x as [[]|[]| |[] mx ex], y as [[]|[]| |[] my ey]; try done.
  intros _ _. cbn [fadd b32_scalar SFadd]. cbv zeta.
  destruct (shl_align mx ex _) as [a ea], (shl_align my ey _) as [b eb].
  cbn [fst cond_Zopp]. change (Z.pos a + Z.pos b)%Z with (Z.pos (a + b)).
  apply binary_round_sign.
Qed.

Lemma div_eucl_nonneg (a : Z) (b : positive) :
  (0 ≤ a → 0 ≤ (Z.div_eucl a (Z.pos b)).1)%Z.
Proof.
  intros Ha. change (Z.div_eucl a (Z.pos b)).1 with (a / Z.pos b)%Z.
  apply Z.div_pos; lia.
Qed.

Lemma SFdiv_sign (x y : float) :
  has_sign false x → has_sign false y → is_nan (fdiv x y) = false →
  has_sign false (fdiv x y).
Proof.
  destruct x as [[]|[]| |[] mx ex], y as [[]|[]| |[] my ey]; try done.
  intros _ _ _. cbn [fdiv b32_scalar SFdiv]. unfold SFdiv_core_binary. cbv zeta.
  match goal with |- context [IntDef.Z.div_eucl ?a ?b] =>
    pose proof (div_eucl_nonneg a my) as Hq;
    destruct (IntDef.Z.div_eucl a b) as [q r] end.
  apply binary_round_aux_sign. apply Hq.
  match goal with |- (0 ≤ match ?s with _ => _ end)%Z => destruct s eqn:Hs end;
    [lia| |lia].
  apply Z.shiftl_nonneg. lia.
Qed.

Lemma exp32_number (x : float) :
  is_nan (fexp x) = false → has_sign false (fexp x).
Proof.
  destruct x as [[]|[]| |s m e]; try done.
  intros _. cbn [fexp b32_exp]. unfold exp32.
  destruct (SFltb _ _); [done|]. destruct (SFltb _ _); [done|].
  cbv zeta. apply binary_round_sign.
Qed.

Lemma accumulate_snoc (l : list float) (e : float) :
  accumulate (l ++ [e]) = fadd (accumulate l) e.
Proof. unfold accumulate. by rewrite foldl_app. Qed.

(** A sum of terms without a sign bit has none, when it is a number. *)
Lemma accumulate_sign (l : list float) :
  (∀ e, e ∈ l → is_nan e = false → has_sign false e) →
  is_nan (accumulate l) = false → has_sign false (accumulate l).
Proof.
  induction l as [|e l IH] using rev_ind; [done|].
  rewrite accumulate_snoc. intros Hterms Hsum.
  destruct (SFadd_number _ _ Hsum) as [Hl He]. apply SFadd_sign.
  - apply IH; [|done]. intros e' He'. apply Hterms, elem_of_app. by left.
  - apply Hterms; [|done]. apply elem_of_app. right. by left.
Qed.

(** The entries of [softmax] that are numbers are not negative. *)
Lemma softmax_sign (scores probabilities : list float) :
  softmax scores = Some probabilities →
  Forall (λ p, is_nan p = false) probabilities →
  Forall (has_sign false) probabilities.
Proof.
  unfold softmax. destruct (max_element scores) as [m|]; [|done].
  cbn [mbind option_bind]. cbv zeta.
  set (es := (λ score, fexp (fsub score m)) <$> scores).
  assert (∀ e, e ∈ es → is_nan e = false → has_sign false e) as Hexp.
  { intros e (s & -> & _)%list_elem_of_fmap. apply exp32_number. }
  clearbody es. intros [= <-].
  rewrite !Forall_fmap, !Forall_forall. intros Hnum e He.
  specialize (Hnum e He). simpl in *.
  destruct (SFdiv_number _ _ Hnum) as [He' Hsum].
  apply SFdiv_sign; [by apply Hexp|by apply accumulate_sign|done].
Qed.

End Binary32Signs.

Section Binary32Accumulate.
Import Binary32.





End Binary32Accumulate.

(** * The prediction in [float] arithmetic *)

Section Prediction32.
Import Binary32 Transformer Examples32.

(** C7. [predictNextWord] on a built model, in [float] arithmetic: for a
    sentence with tokens (those at positions beyond the positional
    encodings unknown), the call computes one probability for each word of
    the vocabulary, [softmax] of the logits, and returns the word decoded
    from the predicted index.  When the probabilities are numbers, the
    predicted index is an index of maximum probability and the lowest
    such: no probability is above the one at the predicted index, and
    every probability at a lower index is below it.  (Probabilities that
    are all NaN compare with nothing and leave the index at 0.) *)
Theorem predicted_index_first_maximum (m : Transformer.t float) (V E M : nat)
    (sentence : string) :
  transformer_ok m V E M →
  read_words sentence ≠ [] →
  (∀ i token, read_words sentence !! i = Some token → M ≤ i →
              Tokenizer.encode (tokenizer m) token = (-1)%Z) →
  ∃ probabilities,
    next_word_probabilities m sentence = Some probabilities ∧
    length probabilities = V ∧
    predictNextWord m sentence =
      Some (Tokenizer.decode (tokenizer m)
              (Z.of_nat (predictedIndex probabilities))) ∧
    (Forall (λ p, is_nan p = false) probabilities →
     first_maximum probabilities (predictedIndex probabilities)) ∧
    (Forall (λ p, is_nan p = true) probabilities →
     predictedIndex probabilities = 0).
Proof.
  intros Hok Hne Hpos.
  destruct (next_word_probabilities_total m V E M sentence Hok Hne Hpos)
    as (probabilities & Hprobs & Hlen).
  exists probabilities. split; [done|]. split; [done|]. split; [|split].
  - rewrite predictNextWord_unfold by done. by rewrite Hprobs.
  - intros Hnum. apply predictedIndex_first_maximum.
    + destruct Hok as (HV & _). destruct probabilities; [simpl in Hlen; lia|done].
    + apply ordered_by_lt_32. by constructor.
    + unfold next_word_probabilities in Hprobs.
      assert (∃ logits, softmax logits = Some probabilities) as [logits Hsm].
      { simplify_option_eq. eauto. }
      pose proof (softmax_sign logits probabilities Hsm Hnum) as Hsign.
      rewrite Forall_forall in Hsign. intros p Hp.
      by apply has_sign_not_below_zero, Hsign.
  - intros Hnan. apply predictedIndex_unordered. intros p best Hp.
    rewrite Forall_forall in Hnan. specialize (Hnan p Hp).
    destruct p; try done. by destruct best.
Qed.

Lemma tie_model_ok : transformer_ok tie_model 3 2 2.
Proof.
  unfold transformer_ok. split; [lia|]. split; [lia|]. split; [done|].
  split.
  { exists (first_occurrences (corpus_words ["a b c"%string])).
    split; [apply buildVocabulary_numbered|]. by vm_compute. }
  split; [|split].
  - split; (split; [done|]); intros [|[|[|?]]] row [= <-]; reflexivity.
  - constructor.
  - split; [done|]. intros [|[|?]] row [= <-]; reflexivity.
Qed.

Lemma tie_model_probabilities :
  next_word_probabilities tie_model "a"
  = Some [S754_finite false 10426195 (-26); S754_finite false 14170668 (-25);
          S754_finite false 14170668 (-25)].
Proof. vm_compute. reflexivity. Qed.

(** The sentence ["a"] on [tie_model]: the logits are 1, 2 and 2, the
    second and the third probability are equal and the largest, and the
    second word is predicted. *)
Lemma predicted_index_first_maximum_witness :
  ∃ probabilities,
    next_word_probabilities tie_model "a" = Some probabilities ∧
    probabilities = [S754_finite false 10426195 (-26);
                     S754_finite false 14170668 (-25);
                     S754_finite false 14170668 (-25)] ∧
    predictNextWord tie_model "a" = Some "b"%string ∧
    predictedIndex probabilities = 1 ∧
    first_maximum probabilities (predictedIndex probabilities).
Proof.
  destruct (predicted_index_first_maximum tie_model 3 2 2 "a" tie_model_ok)
    as (probabilities & Hprobs & Hlen & Hword & Hmax & _).
  - discriminate.
  - intros i token Htoken Hi. apply lookup_lt_Some in Htoken.
    change (length (read_words "a")) with 1 in Htoken. lia.
  - exists probabilities. pose proof Hprobs as Heq.
    rewrite tie_model_probabilities in Heq. injection Heq as <-.
    split; [done|]. split; [done|]. split; [by rewrite Hword|].
    split; [done|]. apply Hmax. by repeat constructor.
Defined.

End Prediction32.

(** * Causal masking in [float] arithmetic *)

Section Causality32.
Import Binary32 MultiHeadSelfAttention.







(** [exp] of a [float] below [-104] is [+0.0]. *)
Lemma exp32_underflow (x : float) :
  fltb x (of_Z (-104)) = true → fexp x = fzero.
Proof.
  destruct x as [[]|[]| |s m e]; try done.
  intros Hlt. cbn [fexp b32_exp]. unfold exp32.
  change (SFltb (S754_finite s m e) (of_Z (-104)) = true) in Hlt.
  by rewrite Hlt.
Qed.

(** The weight that [softmax] gives to a masked score: it is zero as soon
    as [-1e9] lies more than 104 below the largest score of the row. *)
Lemma softmax_masked_weight_zero (scores weights : list float) (m z : float)
    (j : nat) :
  softmax scores = Some weights →
  max_element scores = Some m →
  fltb (fsub fmask m) (of_Z (-104)) = true →
  scores !! j = Some fmask → weights !! j = Some z →
  is_nan z = false → is_zero z = true.
Proof.
  unfold softmax. intros Hsm Hmax Hlt Hj Hz Hnum. rewrite Hmax in Hsm.
  cbn [mbind option_bind] in Hsm. cbv zeta in Hsm.
  set (total := accumulate _) in Hsm. apply (inj Some) in Hsm. subst weights.
  rewrite !list_lookup_fmap, Hj in Hz. cbn [fmap option_fmap option_map] in Hz.
  apply (inj Some) in Hz. subst z. rewrite (exp32_underflow _ Hlt) in *.
  by destruct total as [[]|[]| |s a e].
Qed.

End Causality32.

Section Causality32Examples.
Import Binary32 MultiHeadSelfAttention Examples32.











End Causality32Examples.

(** * [softmax] in [float] arithmetic *)

Section Softmax32.
Import Binary32.

Lemma shl_align_value (mx : positive) (ex ez : Z) :
  (ez ≤ ex)%Z →
  Z.pos (shl_align mx ex ez).1 = (Z.pos mx * 2 ^ (ex - ez))%Z.
Proof.
  intros Hle. unfold shl_align.
  destruct (ez - ex)%Z as [|d|d] eqn:Hd; simpl.
  - replace (ex - ez)%Z with 0%Z by lia. simpl. lia.
  - lia.
  - rewrite iter_xO_value. f_equal. f_equal. lia.
Qed.

(** What [valid_binary] says of a finite [float]. *)
Lemma is_float_finite (s : bool) (m : positive) (e : Z) :
  is_float (S754_finite s m e) = true →
  (-149 ≤ e)%Z ∧ (Z.pos m < 2 ^ 24)%Z ∧
  ((-149 < e)%Z → (2 ^ 23 ≤ Z.pos m)%Z).
Proof.
  unfold is_float, valid_binary, bounded, canonical_mantissa, SpecFloat.fexp.
  change (emin prec emax) with (-149)%Z. change prec with 24%Z.
  intros [Hc _]%andb_prop. apply Z.eqb_eq in Hc.
  pose proof (digits2_pos_bounds m) as [Hlo Hhi].
  split; [lia|]. split.
  - assert (2 ^ Z.pos (digits2_pos m) ≤ 2 ^ 24)%Z
      by (apply Z.pow_le_mono_r; lia). lia.
  - intros He. replace (Z.pos (digits2_pos m)) with 24%Z in Hlo by lia.
    exact Hlo.
Qed.

Lemma has_sign_true_nonpositive (x : float) : has_sign true x → nonpositive x.
Proof. by destruct x as [[]|[]| |[] m e]. Qed.

(** The difference of a score and a score that is not below it is not
    positive. *)
Lemma fsub_not_above (s m : float) :
  is_finite s = true → is_finite m = true →
  is_float s = true → is_float m = true →
  fltb m s = false → nonpositive (fsub s m).
Proof.
  destruct s as [ss| | |ss ms es], m as [sm| | |sm mm em]; try done.
  - by destruct ss, sm.
  - destruct sm; [done|]. by intros.
  - destruct ss; [by intros|done].
  - intros _ _ Hs Hm Hlt.
    destruct (is_float_finite _ _ _ Hs) as (Hes & Hms & Hns).
    destruct (is_float_finite _ _ _ Hm) as (Hem & Hmm & Hnm).
    cbn [fsub b32_scalar SFsub]. cbv zeta.
    pose proof (shl_align_value ms es (Z.min es em) ltac:(lia)) as Ha.
    pose proof (shl_align_value mm em (Z.min es em) ltac:(lia)) as Hb.
    change IntDef.Z.min with Z.min.
    set (a := (shl_align ms es (Z.min es em)).1) in *.
    set (b := (shl_align mm em (Z.min es em)).1) in *.
    assert (cond_Zopp ss (Z.pos a) - cond_Zopp sm (Z.pos b) ≤ 0)%Z as Hd.
    { unfold fltb, b32_scalar, SFltb, SFcompare in Hlt.
      change (PosDef.Pos.compare_cont Eq mm ms) with (mm ?= ms)%positive in Hlt.
      destruct ss, sm; simpl in *; try lia; try done.
      - destruct (Z.compare_spec em es) as [Heq|Hl|Hg]; [| |done].
        + subst em. rewrite Z.min_id, Z.sub_diag in Ha, Hb. simpl in Ha, Hb.
          destruct (Pos.compare_spec mm ms); simpl in Hlt; try done; lia.
        + rewrite Z.min_r in Ha, Hb by lia. rewrite Z.sub_diag in Hb.
          assert (2 ^ 1 ≤ 2 ^ (es - em))%Z by (apply Z.pow_le_mono_r; lia).
          specialize (Hns ltac:(lia)). nia.
      - destruct (Z.compare_spec em es) as [Heq|Hl|Hg]; [|done|].
        + subst em. rewrite Z.min_id, Z.sub_diag in Ha, Hb. simpl in Ha, Hb.
          destruct (Pos.compare_spec mm ms); simpl in Hlt; try done; lia.
        + rewrite Z.min_l in Ha, Hb by lia. rewrite Z.sub_diag in Ha.
          assert (2 ^ 1 ≤ 2 ^ (em - es))%Z by (apply Z.pow_le_mono_r; lia).
          specialize (Hnm ltac:(lia)). nia. }
    destruct (cond_Zopp ss (Z.pos a) - cond_Zopp sm (Z.pos b))%Z
      as [|d|d]; [done|lia|].
    apply has_sign_true_nonpositive. unfold binary_normalize.
    apply binary_round_sign.
Qed.

(** The partial sums of the exponential series stay between the first sum
    and that plus one unit for each further term: the terms of an
    argument below [ln 2] decrease. *)
Lemma exp_series_bounds (fuel : nat) (n r term acc : Z) :
  (0 ≤ r ≤ 2 ^ exp_bits)%Z → (1 ≤ n)%Z → (0 ≤ term ≤ 2 ^ exp_bits)%Z →
  (acc ≤ exp_series fuel n r term acc ≤ acc + Z.of_nat fuel * 2 ^ exp_bits)%Z.
Proof.
  assert (0 < 2 ^ exp_bits)%Z as HT by done.
  remember (2 ^ exp_bits)%Z as T eqn:HTdef. intros Hr.
  revert n term acc. induction fuel as [|fuel IH]; intros n term acc Hn Hterm.
  - simpl. lia.
  - cbn [exp_series]. cbv zeta. rewrite <- HTdef.
    assert (0 ≤ term * r / (n * T) ≤ term)%Z as Hnext.
    { assert (0 < n * T)%Z by (apply Z.mul_pos_pos; lia).
      assert (0 ≤ term * T)%Z by (apply Z.mul_nonneg_nonneg; lia).
      assert (term * r ≤ term * T)%Z by (apply Z.mul_le_mono_nonneg_l; lia).
      assert (term * T * 1 ≤ term * T * n)%Z
        by (apply Z.mul_le_mono_nonneg_l; lia).
      split; [apply Z.div_pos; [apply Z.mul_nonneg_nonneg|]; lia|].
      apply Z.div_le_upper_bound; [done|].
      replace (n * T * term)%Z with (term * T * n)%Z by ring. lia. }
    specialize (IH (n + 1)%Z (term * r / (n * T))%Z (acc + term * r / (n * T))%Z
                  ltac:(lia) ltac:(lia)).
    rewrite Nat2Z.inj_succ, Z.mul_succ_l. lia.
Qed.

Lemma ln2_fixed_bounds : (0 < ln2_fixed < 2 ^ exp_bits)%Z.
Proof. done. Qed.

(** [exp] of a number that is not positive is a finite number that is not
    negative: no NaN and no overflow. *)
Lemma exp32_nonpositive (x : float) :
  nonpositive x → finite_nonnegative (fexp x).
Proof.
  destruct x as [s|[]| |[] m e]; try done.
  intros _. cbn [fexp b32_exp]. unfold exp32.
  destruct (SFltb _ _); [done|].
  replace (SFltb (of_Z 89) (S754_finite true m e)) with false by done.
  cbv zeta. cbn [cond_Zopp].
  set (xfix := (- Z.pos m * 2 ^ (e + exp_bits))%Z).
  pose proof ln2_fixed_bounds as [HL0 HLT].
  assert (xfix ≤ 0)%Z as Hx.
  { unfold xfix. pose proof (Z.pow_nonneg 2 (e + exp_bits) ltac:(lia)). nia. }
  assert (xfix / ln2_fixed ≤ 0)%Z as Hk by (apply Z.div_le_upper_bound; lia).
  set (k := (xfix / ln2_fixed)%Z) in *.
  assert (0 ≤ xfix - k * ln2_fixed < ln2_fixed)%Z as Hr.
  { pose proof (Z.mod_pos_bound xfix ln2_fixed HL0) as Hmod.
    rewrite Z.mod_eq in Hmod by lia. fold k in Hmod. lia. }
  set (r := (xfix - k * ln2_fixed)%Z) in *.
  pose proof (exp_series_bounds 40 1 r (2 ^ exp_bits) (2 ^ exp_bits)
                ltac:(lia) ltac:(lia) ltac:(lia)) as Hsum.
  set (sum := exp_series 40 1 r (2 ^ exp_bits) (2 ^ exp_bits)) in *.
  assert (0 < sum < 2 ^ 134)%Z as Hbound.
  { assert (2 ^ exp_bits + Z.of_nat 40 * 2 ^ exp_bits < 2 ^ 134)%Z by done.
    lia. }
  clearbody sum. clear Hsum.
  unfold binary_normalize.
  pose proof (binary_round_sign prec emax false (Z.to_pos sum) (k - exp_bits))
    as Hsign.
  pose proof (binary_round_exponent prec emax false (Z.to_pos sum) (k - exp_bits))
    as Hexp.
  pose proof (binary_round_no_overflow prec emax false (Z.to_pos sum)
                (k - exp_bits) eq_refl) as Hfin.
  destruct (binary_round prec emax false (Z.to_pos sum) (k - exp_bits))
    as [[]|[]| |[] m' e']; try done.
  - apply Hfin; [done|unfold exp_bits; change (emax - prec)%Z with 104%Z; lia|].
    assert (Z.pos (digits2_pos (Z.to_pos sum)) ≤ 134)%Z.
    { apply digits2_pos_lt_pow; [lia|]. rewrite Z2Pos.id; lia. }
    unfold exp_bits. change emax with 128%Z. lia.
Qed.

Lemma finite_nonnegative_sign (x : float) :
  finite_nonnegative x → has_sign false x ∧ lower_bounded x.
Proof. by destruct x as [[]|[]| |[] m e]. Qed.

Lemma fadd_lower_bounded (x y : float) :
  lower_bounded x → lower_bounded y → lower_bounded (fadd x y).
Proof.
  destruct x as [[]|[]| |sx mx ex], y as [[]|[]| |sy my ey]; try done.
  intros _ _. cbn [fadd b32_scalar SFadd]. cbv zeta.
  destruct (_ + _)%Z as [|m|m]; [done|..]; unfold binary_normalize;
    apply (binary_round_exponent prec emax).
Qed.

(** Adding a number that is not negative to a number that is at least 1
    gives a number that is at least 1. *)
Lemma fadd_at_least_one (x y : float) :
  has_sign false x → has_sign false y →
  lower_bounded x → lower_bounded y →
  at_least_one x ∨ at_least_one y →
  at_least_one (fadd x y).
Proof.
  destruct x as [[]|[]| |[] mx ex], y as [[]|[]| |[] my ey]; try done;
    try (by intros _ _ _ _ [?|?]).
  intros _ _ Hx Hy Hone. cbn [fadd b32_scalar SFadd]. cbv zeta.
  cbn [cond_Zopp]. change IntDef.Z.min with Z.min.
  pose proof (shl_align_value mx ex (Z.min ex ey) ltac:(lia)) as Ha.
  pose proof (shl_align_value my ey (Z.min ex ey) ltac:(lia)) as Hb.
  set (a := (shl_align mx ex (Z.min ex ey)).1) in *.
  set (b := (shl_align my ey (Z.min ex ey)).1) in *.
  change (Z.pos a + Z.pos b)%Z with (Z.pos (a + b)). unfold binary_normalize.
  simpl in Hx, Hy.
  assert (1 ≤ Z.pos (digits2_pos (a + b)) + Z.min ex ey)%Z as Hdigits.
  { assert (0 ≤ ex - Z.min ex ey)%Z as Hdx by lia.
    assert (0 ≤ ey - Z.min ex ey)%Z as Hdy by lia.
    pose proof (digits2_pos_bounds (a + b)) as [_ Hhi].
    destruct (Z.le_gt_cases 1 (Z.pos (digits2_pos (a + b)) + Z.min ex ey))
      as [?|Hsmall]; [done|exfalso].
    destruct Hone as [[Hd He]|[Hd He]].
    - pose proof (digits2_pos_bounds mx) as [Hlo _]. rewrite Hd in Hlo.
      assert (2 ^ Z.pos (digits2_pos (a + b)) ≤ 2 ^ (- Z.min ex ey))%Z
        by (apply Z.pow_le_mono_r; lia).
      assert (2 ^ (24 - 1) * 2 ^ (ex - Z.min ex ey) ≤ Z.pos a)%Z
        by (rewrite Ha; apply Z.mul_le_mono_nonneg_r; lia).
      rewrite <- Z.pow_add_r in * by lia.
      assert (2 ^ (- Z.min ex ey) ≤ 2 ^ (24 - 1 + (ex - Z.min ex ey)))%Z
        by (apply Z.pow_le_mono_r; lia).
      lia.
    - pose proof (digits2_pos_bounds my) as [Hlo _]. rewrite Hd in Hlo.
      assert (2 ^ Z.pos (digits2_pos (a + b)) ≤ 2 ^ (- Z.min ex ey))%Z
        by (apply Z.pow_le_mono_r; lia).
      assert (2 ^ (24 - 1) * 2 ^ (ey - Z.min ex ey) ≤ Z.pos b)%Z
        by (rewrite Hb; apply Z.mul_le_mono_nonneg_r; lia).
      rewrite <- Z.pow_add_r in * by lia.
      assert (2 ^ (- Z.min ex ey) ≤ 2 ^ (24 - 1 + (ey - Z.min ex ey)))%Z
        by (apply Z.pow_le_mono_r; lia).
      lia. }
  pose proof (binary_round_normal prec emax false (a + b) (Z.min ex ey) eq_refl)
    as Hr.
  change (emin prec emax) with (-149)%Z in Hr. change prec with 24%Z in Hr.
  specialize (Hr ltac:(lia) ltac:(lia)).
  destruct (binary_round _ _ _ _ _) as [| | |s' m' e']; try done.
  - by subst.
  - destruct Hr as (-> & Hd' & He'). split; [done|]. lia.
Qed.

Lemma accumulate_nonneg (es : list float) :
  Forall finite_nonnegative es →
  has_sign false (accumulate es) ∧ lower_bounded (accumulate es).
Proof.
  induction es as [|e es IH] using rev_ind; [done|].
  rewrite Forall_app, Forall_singleton, accumulate_snoc. intros [Hes He].
  destruct (IH Hes) as [Hs Hl].
  destruct (finite_nonnegative_sign e He) as [Hse Hle].
  split; [by apply SFadd_sign|by apply fadd_lower_bounded].
Qed.

(** A sum of finite numbers that are not negative, one of them at least 1,
    is at least 1. *)
Lemma accumulate_at_least_one (es : list float) :
  Forall finite_nonnegative es →
  (∃ e, e ∈ es ∧ at_least_one e) →
  at_least_one (accumulate es).
Proof.
  induction es as [|e es IH] using rev_ind;
    [by intros _ (e & ?%not_elem_of_nil & _)|].
  rewrite Forall_app, Forall_singleton, accumulate_snoc.
  intros [Hes He] (one & Hin & Hone).
  destruct (accumulate_nonneg es Hes) as [Hs Hl].
  destruct (finite_nonnegative_sign e He) as [Hse Hle].
  apply fadd_at_least_one; try done.
  apply elem_of_app in Hin as [Hin|Hin].
  - left. apply IH; [done|]. by exists one.
  - right. apply list_elem_of_singleton in Hin. by subst.
Qed.

Lemma at_least_one_not_below_one (x : float) :
  at_least_one x → fltb x fone = false.
Proof.
  destruct x as [[]|[]| |[] m e]; try done. intros [Hd He].
  change (fltb (S754_finite false m e) fone)
    with (SFltb (S754_finite false m e) (S754_finite false 8388608 (-23))).
  unfold SFltb, SFcompare.
  destruct (Z.compare_spec e (-23)) as [_|?|_]; [|lia|done].
  change (PosDef.Pos.compare_cont Eq m 8388608) with (m ?= 8388608)%positive.
  destruct (Pos.compare_spec m 8388608) as [?|Hlt|?]; try done.
  pose proof (digits2_pos_bounds m) as [Hlo _]. rewrite Hd in Hlo.
  change (2 ^ (24 - 1))%Z with 8388608%Z in Hlo. lia.
Qed.

Lemma fdiv_finite_sign (mx my : positive) (ex ey : Z) :
  has_sign false (fdiv (S754_finite false mx ex) (S754_finite false my ey)).
Proof.
  cbn [fdiv b32_scalar SFdiv]. unfold SFdiv_core_binary. cbv zeta.
  match goal with |- context [IntDef.Z.div_eucl ?a ?b] =>
    pose proof (div_eucl_nonneg a my) as Hq;
    destruct (IntDef.Z.div_eucl a b) as [q r] end.
  apply binary_round_aux_sign. apply Hq.
  match goal with |- (0 ≤ match ?s with _ => _ end)%Z => destruct s eqn:Hs end;
    [lia| |lia].
  apply Z.shiftl_nonneg. lia.
Qed.

(** A finite number that is not negative, divided by a number that is at
    least 1: a number that is not negative. *)
Lemma fdiv_at_least_one (e t : float) :
  finite_nonnegative e → at_least_one t → has_sign false (fdiv e t).
Proof.
  destruct e as [[]|[]| |[] me ee], t as [[]|[]| |[] mt et]; try done.
  intros _ _. apply fdiv_finite_sign.
Qed.

End Softmax32.
